(** * CommandLine.hpp of monet-explorer: a shallow embedding

    The header [protocol_doc/monet-explorer/CommandLine.hpp] declares the
    command-line parser of the tool: the registry of argument definitions
    ([Helper::ArgumentAccumulator]), the tokenizer ([Parser::Parse]) with its
    diagnostic renderer ([Parser::ThrowError]), and the text layout engine
    ([Parser::FormatLine], driven by [Parser::ColumnFormat]).

    Conventions of the embedding:
    - C [int] and [long] values are integers of [Z]; the only narrowing the
      code performs ([long] to [int] after [strtol]) is written out;
    - a [char] is an [ascii], its numeric value ([code]) the value of the
      byte read as [unsigned char];
    - [std::string] is [string]; [std::map] and [std::unordered_map] are
      [gmap], [std::set] is [gset]; [insert] keeps an entry that exists;
    - an exception is a value of [exn], carried next to the state the
      object was left in when it was thrown. *)

From Stdlib Require Import ZArith Ascii String List Bool Lia.
From Stdlib Require SpecFloat.
From stdpp Require Import base gmap strings list pretty.

Local Open Scope string_scope.
Local Open Scope Z_scope.

(** ** The C library, as far as the header uses it *)

Module Libc.

(** The value of a [char] read as an [unsigned char]. *)
Definition code (c : ascii) : Z := Z.of_N (N_of_ascii c).

Definition NUL : ascii := "000"%char.

(** [isprint] in the "C" locale: the space and the graphic characters. *)
Definition isprint (c : ascii) : bool := (32 <=? code c) && (code c <=? 126).

(** [isspace] in the "C" locale. *)
Definition isspace (c : ascii) : bool :=
  (code c =? 32) || ((9 <=? code c) && (code c <=? 13)).

Definition isdigit (c : ascii) : bool := (48 <=? code c) && (code c <=? 57).

(** [errno] values. The C standard sets [errno] to zero at program
    startup; no library function sets it back to zero. *)
Definition ERANGE : Z := 34.

(** [long] is 64 bits wide (LP64), [int] 32 bits. *)
Definition LONG_MAX : Z := 2 ^ 63 - 1.
Definition LONG_MIN : Z := - 2 ^ 63.

(** The conversion of a [long] to [int]: modulo 2^32, as GCC and Clang
    define it. *)
Definition int_of_long (z : Z) : Z := (z + 2 ^ 31) mod 2 ^ 32 - 2 ^ 31.

(** What a [strtol] or [strtod] call reports: the converted value, the
    offset of [endptr] from the start of the string, and whether the call
    stored [ERANGE] in [errno]. *)
Record conversion (A : Type) : Type := Conversion {
  conv_value : A;
  conv_end : nat;
  conv_erange : bool
}.
Arguments Conversion {A} _ _ _.
Arguments conv_value {A} _.
Arguments conv_end {A} _.
Arguments conv_erange {A} _.

(** The length of the leading white space of a string. *)
Fixpoint span_space (s : string) : nat :=
  match s with
  | String c s' => if isspace c then S (span_space s') else 0%nat
  | EmptyString => 0%nat
  end.

(** The decimal digits at the start of [s], accumulated onto [acc]: the
    number of digits and the (unbounded) value. *)
Fixpoint digits (s : string) (acc : Z) : nat * Z :=
  match s with
  | String c s' =>
      if isdigit c then
        let '(n, v) := digits s' (10 * acc + (code c - 48)) in (S n, v)
      else (0%nat, acc)
  | EmptyString => (0%nat, acc)
  end.

(** The rest of a string from an offset. *)
Fixpoint drop_string (n : nat) (s : string) : string :=
  match n, s with
  | O, _ => s
  | S n', String _ s' => drop_string n' s'
  | S _, EmptyString => EmptyString
  end.

(** [strtol(s, &endptr, 10)]: optional white space, an optional sign, then
    decimal digits. With no digit nothing is converted: the result is 0 and
    [endptr] is the start of the string. A value outside [long] is clamped
    and reported through [ERANGE]. *)
Definition strtol (s : string) : conversion Z :=
  let ws := span_space s in
  let s1 := drop_string ws s in
  let '(neg, sg) :=
    match s1 with
    | String "-" _ => (true, 1%nat)
    | String "+" _ => (false, 1%nat)
    | _ => (false, 0%nat)
    end in
  let '(n, v) := digits (drop_string sg s1) 0 in
  match n with
  | O => Conversion 0 0%nat false
  | S _ =>
      let v' := if neg then - v else v in
      if LONG_MAX <? v' then Conversion LONG_MAX (ws + sg + n)%nat true
      else if v' <? LONG_MIN then Conversion LONG_MIN (ws + sg + n)%nat true
      else Conversion v' (ws + sg + n)%nat false
  end.

(** The byte a [char *] at offset [i] of a NUL-terminated string points
    to: the terminator from the end of the string on. *)
Definition char_at (s : string) (i : nat) : ascii :=
  match String.get i s with Some c => c | None => NUL end.

(** The floating-point side of the platform: the type [double] with the
    operations the header applies to it, [strtod], [round] and the
    conversions between [int] and [double]. None of this is code of the
    repository; [Binary64] below gives the IEEE 754 instance. *)
Class FloatingPoint : Type := {
  double : Type;
  strtod : string -> conversion double;
  int_of_double : double -> Z;
  double_of_int : Z -> double;
  fadd : double -> double -> double;
  fmul : double -> double -> double;
  fdiv : double -> double -> double;
  fle : double -> double -> bool;
  fround : double -> double
}.

End Libc.

Export Libc.

(** ** Exceptions *)

(** The exceptions the header can raise: its own [std::runtime_error]s,
    and the two the standard library raises on a bad size or offset
    ([std::string(n, c)] with a negative [n], [substr] past the end). *)
Inductive exn : Type :=
| runtime_error (what : string)
| length_error
| out_of_range.

(** The outcome of a call on an object of state [S]: it returned, or it
    threw; either way the object is left in a state. *)
Inductive result (S : Type) : Type :=
| Returned (s : S)
| Thrown (e : exn) (s : S).
Arguments Returned {S} _.
Arguments Thrown {S} _ _.

Definition state_of {S : Type} (r : result S) : S :=
  match r with Returned s => s | Thrown _ s => s end.

Definition returned {S : Type} (r : result S) : bool :=
  match r with Returned _ => true | Thrown _ _ => false end.

(** [insert] of [std::map] and [std::unordered_map]: an element is added
    only if the container holds none with that key. *)
Definition map_insert `{Countable K} {V : Type} (k : K) (v : V) (m : gmap K V) : gmap K V :=
  match m !! k with
  | Some _ => m
  | None => <[k := v]> m
  end.

(** ** namespace Helper *)

Module Helper.

(** [enum class ArgumentType] and [enum class ArgumentClass]; as in the
    header, their values are named through the type. *)
Module ArgumentType.
Inductive t : Type := String | Int | Double | Boolean.
End ArgumentType.

Module ArgumentClass.
Inductive t : Type := Argument | Option | Operand.
End ArgumentClass.

Section WithFloatingPoint.
Context {FP : FloatingPoint}.

(** [class CommandLineArg]: the properties of one definition. *)
Record CommandLineArg : Type := mkCommandLineArg {
  name : string;
  valueName : string;
  letter : ascii;
  argClass : ArgumentClass.t;
  argType : ArgumentType.t;
  optional : bool;
  stringDefault : string;
  intDefault : Z;
  doubleDefault : double;
  description : string
}.

(** The constructors, in the order of the header. *)
Definition CommandLineArg_empty : CommandLineArg :=
  mkCommandLineArg "" "" NUL ArgumentClass.Argument ArgumentType.String false "" 0 (double_of_int 0) "".

Definition CommandLineArg_operand (name description : string) : CommandLineArg :=
  mkCommandLineArg name "" NUL ArgumentClass.Operand ArgumentType.String false "" 0 (double_of_int 0) description.

Definition CommandLineArg_option (name : string) (letter : ascii) (description : string)
  : CommandLineArg :=
  mkCommandLineArg name "" letter ArgumentClass.Option ArgumentType.Boolean false "" 0 (double_of_int 0) description.

Definition CommandLineArg_mandatory (name : string) (letter : ascii) (argType : ArgumentType.t)
  (valueName description : string) : CommandLineArg :=
  mkCommandLineArg name valueName letter ArgumentClass.Argument argType false "" 0
    (double_of_int 0) description.

Definition CommandLineArg_int (name : string) (letter : ascii) (intDefault : Z)
  (valueName description : string) : CommandLineArg :=
  mkCommandLineArg name valueName letter ArgumentClass.Argument ArgumentType.Int true ""
    intDefault (double_of_int 0) description.

Definition CommandLineArg_string (name : string) (letter : ascii) (stringDefault : string)
  (valueName description : string) : CommandLineArg :=
  mkCommandLineArg name valueName letter ArgumentClass.Argument ArgumentType.String true
    stringDefault 0 (double_of_int 0) description.

Definition CommandLineArg_double (name : string) (letter : ascii) (doubleDefault : double)
  (valueName description : string) : CommandLineArg :=
  mkCommandLineArg name valueName letter ArgumentClass.Argument ArgumentType.Double true
    "" 0 doubleDefault description.

(** [GetDoubleDefault] is declared to return [int]. *)
Definition GetDoubleDefault (arg : CommandLineArg) : Z := int_of_double (doubleDefault arg).

(** [class ArgumentAccumulator]: the definitions and the values. *)
Record ArgumentAccumulator : Type := mkArgumentAccumulator {
  restrictOperands : bool;
  executableName : string;
  argsByName : gmap string CommandLineArg;
  argsByLetter : gmap ascii CommandLineArg;
  operands : list CommandLineArg;
  stringValues : gmap string string;
  intValues : gmap string Z;
  doubleValues : gmap string double;
  optionNames : gset string;
  operandValues : list string
}.

Definition ArgumentAccumulator_empty : ArgumentAccumulator :=
  mkArgumentAccumulator false "" ∅ ∅ [] ∅ ∅ ∅ ∅ [].

Definition set_restrictOperands (b : bool) (a : ArgumentAccumulator) :=
  mkArgumentAccumulator b (executableName a) (argsByName a) (argsByLetter a) (operands a)
    (stringValues a) (intValues a) (doubleValues a) (optionNames a) (operandValues a).
Definition set_executableName (x : string) (a : ArgumentAccumulator) :=
  mkArgumentAccumulator (restrictOperands a) x (argsByName a) (argsByLetter a) (operands a)
    (stringValues a) (intValues a) (doubleValues a) (optionNames a) (operandValues a).
Definition set_argsByName (x : gmap string CommandLineArg) (a : ArgumentAccumulator) :=
  mkArgumentAccumulator (restrictOperands a) (executableName a) x (argsByLetter a) (operands a)
    (stringValues a) (intValues a) (doubleValues a) (optionNames a) (operandValues a).
Definition set_argsByLetter (x : gmap ascii CommandLineArg) (a : ArgumentAccumulator) :=
  mkArgumentAccumulator (restrictOperands a) (executableName a) (argsByName a) x (operands a)
    (stringValues a) (intValues a) (doubleValues a) (optionNames a) (operandValues a).
Definition set_operands (x : list CommandLineArg) (a : ArgumentAccumulator) :=
  mkArgumentAccumulator (restrictOperands a) (executableName a) (argsByName a)
    (argsByLetter a) x (stringValues a) (intValues a) (doubleValues a) (optionNames a)
    (operandValues a).
Definition set_stringValues (x : gmap string string) (a : ArgumentAccumulator) :=
  mkArgumentAccumulator (restrictOperands a) (executableName a) (argsByName a)
    (argsByLetter a) (operands a) x (intValues a) (doubleValues a) (optionNames a)
    (operandValues a).
Definition set_intValues (x : gmap string Z) (a : ArgumentAccumulator) :=
  mkArgumentAccumulator (restrictOperands a) (executableName a) (argsByName a)
    (argsByLetter a) (operands a) (stringValues a) x (doubleValues a) (optionNames a)
    (operandValues a).
Definition set_doubleValues (x : gmap string double) (a : ArgumentAccumulator) :=
  mkArgumentAccumulator (restrictOperands a) (executableName a) (argsByName a)
    (argsByLetter a) (operands a) (stringValues a) (intValues a) x (optionNames a)
    (operandValues a).
Definition set_optionNames (x : gset string) (a : ArgumentAccumulator) :=
  mkArgumentAccumulator (restrictOperands a) (executableName a) (argsByName a)
    (argsByLetter a) (operands a) (stringValues a) (intValues a) (doubleValues a) x
    (operandValues a).
Definition set_operandValues (x : list string) (a : ArgumentAccumulator) :=
  mkArgumentAccumulator (restrictOperands a) (executableName a) (argsByName a)
    (argsByLetter a) (operands a) (stringValues a) (intValues a) (doubleValues a)
    (optionNames a) x.

(** [AddArg]: specify a new argument. The definition is entered under
    its name before the letter is looked at, so the second [throw] leaves
    the name (and an Operand) behind. *)
Definition AddArg (arg : CommandLineArg) (a : ArgumentAccumulator)
  : result ArgumentAccumulator :=
  match argsByName a !! name arg with
  | Some _ =>
      Thrown (runtime_error
        ("Two different arguments have the same name: '" +:+ name arg +:+ "'.")) a
  | None =>
      let a1 := set_argsByName (map_insert (name arg) arg (argsByName a)) a in
      let a2 :=
        match argClass arg with
        | ArgumentClass.Operand => set_operands (operands a1 ++ [arg]) a1
        | _ => a1
        end in
      let after_letter :=
        if bool_decide (letter arg = NUL) then Returned a2
        else
          match argsByLetter a2 !! letter arg with
          | Some _ =>
              Thrown (runtime_error
                ("Two different arguments have the same one-letter name: '"
                   +:+ String (letter arg) "" +:+ "'.")) a2
          | None =>
              Returned (set_argsByLetter (map_insert (letter arg) arg (argsByLetter a2)) a2)
          end in
      match after_letter with
      | Thrown e s => Thrown e s
      | Returned a3 =>
          (* Store default *)
          if optional arg then
            match argType arg with
            | ArgumentType.Double =>
                Returned (set_doubleValues
                  (map_insert (name arg) (double_of_int (GetDoubleDefault arg))
                     (doubleValues a3)) a3)
            | ArgumentType.Int =>
                Returned (set_intValues
                  (map_insert (name arg) (intDefault arg) (intValues a3)) a3)
            | _ =>
                Returned (set_stringValues
                  (map_insert (name arg) (stringDefault arg) (stringValues a3)) a3)
            end
          else Returned a3
      end
  end.

(** [SetValue]: converts the value to the type of the argument and
    [insert]s it. The state is [errno] and the accumulator: [errno] is
    read after [strtol] and [strtod] without having been cleared before. *)
Definition SetValue (arg : CommandLineArg) (value : string)
  (s : Z * ArgumentAccumulator) : result (Z * ArgumentAccumulator) :=
  let '(errno, a) := s in
  match argType arg with
  | ArgumentType.Int =>
      let r := strtol value in
      let errno' := if conv_erange r then ERANGE else errno in
      let result := int_of_long (conv_value r) in
      if errno' =? ERANGE then
        Thrown (runtime_error "Integer value out of range.") (errno', a)
      else if negb (bool_decide (char_at value (conv_end r) = NUL)) || negb (errno' =? 0) then
        Thrown (runtime_error "Invalid integer value.") (errno', a)
      else
        Returned (errno', set_intValues (map_insert (name arg) result (intValues a)) a)
  | ArgumentType.Double =>
      let r := strtod value in
      let errno' := if conv_erange r then ERANGE else errno in
      let result := conv_value r in
      if errno' =? ERANGE then
        Thrown (runtime_error "Double value out of range.") (errno', a)
      else if negb (bool_decide (char_at value (conv_end r) = NUL)) || negb (errno' =? 0) then
        Thrown (runtime_error "Invalid Double value.") (errno', a)
      else
        Returned (errno', set_doubleValues (map_insert (name arg) result (doubleValues a)) a)
  | _ =>
      Returned (errno, set_stringValues (map_insert (name arg) value (stringValues a)) a)
  end.

End WithFloatingPoint.

End Helper.

(** ** class Arguments *)

Module Arguments.
Section WithFloatingPoint.
Context {FP : FloatingPoint}.

(** An [Arguments] object is a reference to the accumulator of the
    parser that returned it. *)
Definition IsHelpRequested (accu : Helper.ArgumentAccumulator) : bool :=
  if (Z.of_nat (length (Helper.operands accu)) <? 1)
     && (Z.of_nat (size (Helper.optionNames accu)) <? 1)
     && (Z.of_nat (size (Helper.argsByName accu)) <? 1)
  then true
  else if bool_decide ("help" ∈ Helper.optionNames accu) then true
  else false.

End WithFloatingPoint.
End Arguments.

(** ** Strings of [argv] *)

(** One entry of [argv]: the bytes of the buffer it points into, without
    the terminator that ends the buffer, and the offset of the pointer in
    it. [Trim] moves the pointer and writes terminators into the buffer. *)
Record CString : Type := mkCString {
  mem : string;
  ptr : nat
}.

(** The bytes before the first terminator. *)
Fixpoint until_NUL (s : string) : string :=
  match s with
  | String c s' => if bool_decide (c = NUL) then "" else String c (until_NUL s')
  | EmptyString => ""
  end.

(** The string a [char *] denotes. *)
Definition c_str (s : CString) : string := until_NUL (drop_string (ptr s) (mem s)).

(** A fresh entry of [argv] holding [s]. *)
Definition cstring (s : string) : CString := mkCString s 0.

(** [*p = c] for a pointer at offset [i]. *)
Fixpoint poke (i : nat) (c : ascii) (s : string) : string :=
  match s, i with
  | String _ s', O => String c s'
  | String d s', S i' => String d (poke i' c s')
  | EmptyString, _ => EmptyString
  end.

(** [std::string(n, c)] with an [int] count: a negative count converts to
    a size no string can have. *)
Definition fill (n : Z) (c : ascii) : option string :=
  if n <? 0 then None else Some (String.concat "" (replicate (Z.to_nat n) (String c ""))).

(** [s.substr(pos, n)] with [int] arguments. *)
Definition substr (s : string) (pos n : Z) : option string :=
  if (pos <? 0) || (Z.of_nat (String.length s) <? pos) then None
  else Some (String.substring (Z.to_nat pos)
               (if n <? 0 then String.length s else Z.to_nat n) s).

Definition ESC : ascii := "027"%char.
Definition LF : ascii := "010"%char.
(** The non-breaking space of the text layout, ['\035']. *)
Definition NBSP : ascii := "029"%char.

Definition esc (s : string) : string := String ESC s.
Definition endl : string := String LF "".

(** ** class Parser *)

Module Parser.
Section WithFloatingPoint.
Context {FP : FloatingPoint}.

Import Helper.

(** The members of a [Parser]; [argc] is the length of [argv]. The
    constructor sets [screenWidth] to 80. *)
Record Parser : Type := mkParser {
  argv : list CString;
  accu : ArgumentAccumulator;
  screenWidth : Z
}.

Definition Parser_new (argv : list CString) : Parser :=
  mkParser argv ArgumentAccumulator_empty 80.

(** *** Trim *)

(** [left_trim:] the number of bytes the pointer moves forward over, on
    the bytes [s] it points to. *)
Fixpoint left_trim (s : string) : nat :=
  match s with
  | String c s' =>
      if bool_decide (c = NUL) then 0%nat
      else if negb (isprint c) || bool_decide (c = " "%char) then S (left_trim s')
      else 0%nat
  | EmptyString => 0%nat
  end.

(** The [do ... while] loop that finds the ending: the distance [end]
    moves, on the bytes after the one it starts at. *)
Fixpoint find_end (s : string) : nat :=
  match s with
  | String c s' => if bool_decide (c = NUL) then 1%nat else S (find_end s')
  | EmptyString => 1%nat
  end.

(** [right_trim:] with [end] at offset [e] and [*str] at offset [p]. The
    test reads [**str], not [*end], for the space. *)
Fixpoint right_trim (e : nat) (p : nat) (m : string) : string * Z :=
  match e with
  | O => (m, 0)
  | S e' =>
      if negb (isprint (char_at m e')) || bool_decide (char_at m p = " "%char) then
        let m' := poke e' NUL m in
        if (p <? e')%nat then right_trim e' p m' else (m', 0)
      else (m, Z.of_nat e' - Z.of_nat p + 1)
  end.

(** [Trim(char **str)]: moves [*str] and writes into the string; returns
    the size of the trimmed string. *)
Definition Trim (str : CString) : CString * Z :=
  let p := (ptr str + left_trim (drop_string (ptr str) (mem str)))%nat in
  if bool_decide (char_at (mem str) p = NUL) then (mkCString (mem str) p, 0)
  else
    let e := (p + find_end (drop_string (S p) (mem str)))%nat in
    let '(m', n) := right_trim e p (mem str) in
    (mkCString m' p, n).

(** *** ThrowError *)

(** [(int)(ratio * (float)windowSize)] with [ratio = 0.666]: 53 for the
    width of 80 columns, the only one the constructor sets. *)
Definition maxHead_of (windowSize : Z) : Z := 666 * windowSize / 1000.

(** The window [ThrowError] shows of the line: [(start, head, length)]. *)
Definition error_window (windowSize size position : Z) : Z * Z * Z :=
  let maxHead := maxHead_of windowSize in
  let maxTail := windowSize - maxHead in
  if (position <? maxHead) || (size <? windowSize) then
    (* Cases 2 and 4 *)
    (0, position, Z.min windowSize size)
  else if size - position <? maxTail then
    (* Case 3 *)
    (size - windowSize, position - (size - windowSize), windowSize)
  else
    (* Case 1 *)
    (position - maxHead, maxHead, windowSize).

(** The text of the error: a rule, the message, the window of the line,
    the caret row, and a rule with a mark in the caret's column. *)
Definition ThrowError (p : Parser) (message line : string) (position : Z) : exn :=
  let windowSize := screenWidth p in
  let '(start, head, length) :=
    error_window windowSize (Z.of_nat (String.length line)) position in
  match fill windowSize "-" with
  | None => length_error
  | Some rule =>
  match substr line start length with
  | None => out_of_range
  | Some window =>
  match fill (head + 1) " ", fill (head + 1) "-", fill (windowSize - head - 2) "-" with
  | Some indent, Some lrule, Some rrule =>
      runtime_error
        (esc "[33m" +:+ rule +:+ esc "[0m" +:+ endl
         +:+ esc "[31m" +:+ message +:+ esc "[0m" +:+ endl +:+ endl
         +:+ window +:+ endl
         +:+ indent +:+ esc "[1m" +:+ esc "[37m" +:+ "^" +:+ endl
         +:+ esc "[33m" +:+ lrule +:+ esc "[1m" +:+ esc "[37m" +:+ "|"
         +:+ esc "[33m" +:+ rrule +:+ esc "[0m")
  | _, _, _ => length_error
  end end end.

(** *** AddOperand *)

Definition AddOperand (value : string) (a : ArgumentAccumulator)
  : result ArgumentAccumulator :=
  if (length (operands a) <? length (operandValues a))%nat && restrictOperands a then
    Thrown (runtime_error
      ("The maximal number of operands is restricted to "
         +:+ pretty (N.of_nat (length (operands a))) +:+ ".")) a
  else Returned (set_operandValues (operandValues a ++ [value]) a).

(** *** FormatLine *)

(** What one call leaves behind: the cursor, the text attribute register
    and the stream. *)
Record Line : Type := mkLine {
  cursor : nat;
  textAttribute : Z;
  out : string
}.

(** [fill_remainder_with_spaces:] *)
Definition fill_remainder (limit charCount : Z) (cursor : nat) (textAttribute : Z)
  (out : string) : Line :=
  if charCount <? limit then
    mkLine cursor textAttribute
      (out +:+ String.concat "" (replicate (Z.to_nat (limit - charCount)) " "))
  else mkLine cursor textAttribute out.

(** The left-trim loop, on the bytes from the cursor on. *)
Fixpoint skip_blank (rest : string) : nat :=
  match rest with
  | String c rest' =>
      if (negb (isprint c) || bool_decide (c = " "%char)) && negb (bool_decide (c = ESC))
      then S (skip_blank rest')
      else 0%nat
  | EmptyString => 0%nat
  end.

(** A word-breaker other than the soft hyphen: not printable, or a space,
    and not the non-breaking space. *)
Definition breaker (c : ascii) : bool :=
  (negb (isprint c) || bool_decide (c = " "%char)) && negb (bool_decide (c = NBSP)).

(** The digit of a text attribute sequence [ESC [ d m]. *)
Definition attribute_digit (d : ascii) : bool :=
  (48 <=? code d) && (code d <=? 56) && negb (code d =? 51) && negb (code d =? 54).

(** The [for] loop of [FormatLine], with the local variables of the
    function as arguments; [rest] holds the bytes of [text] from [cursor]
    on, so the loop ends when [rest] is empty. *)
Fixpoint scan (limit : Z) (softHypen : ascii) (rest : string) (cursor : nat)
  (charCount mb_remain : Z) (lastWord : string) (lastWordCharCount : Z)
  (foundSoftHyphen : bool) (lastWordPosition : nat)
  (textAttributeWasSetInLastWord : bool) (textAttribute : Z) (out : string) : Line :=
  match rest with
  | EmptyString =>
      fill_remainder limit (charCount + lastWordCharCount) cursor textAttribute
        (out +:+ lastWord)
  | String c rest' =>
      if (0 <? mb_remain) && (Z.land (code c) 192 =? 128) then
        (* inside a multi-byte character *)
        scan limit softHypen rest' (S cursor) charCount (mb_remain - 1)
          (lastWord +:+ String c "") lastWordCharCount foundSoftHyphen lastWordPosition
          textAttributeWasSetInLastWord textAttribute out
      else
        (* char_limit_check: reached with [mb_remain] at 0, or set to 0 *)
        if limit <? charCount + lastWordCharCount + 1 then
          if negb (bool_decide (c = softHypen)) && breaker c then
            (* Keep the word. *)
            mkLine cursor textAttribute (out +:+ lastWord)
          else if (lastWordPosition =? 0)%nat then
            mkLine cursor textAttribute (out +:+ lastWord)
          else
            (* Drop current word *)
            fill_remainder limit charCount lastWordPosition textAttribute
              (if foundSoftHyphen then out +:+ "-" else out)
        else if Z.land (code c) 224 =? 192 then
          scan limit softHypen rest' (S cursor) charCount 1
            (lastWord +:+ String c "") (lastWordCharCount + 1) foundSoftHyphen
            lastWordPosition textAttributeWasSetInLastWord textAttribute out
        else if Z.land (code c) 240 =? 224 then
          scan limit softHypen rest' (S cursor) charCount 2
            (lastWord +:+ String c "") (lastWordCharCount + 1) foundSoftHyphen
            lastWordPosition textAttributeWasSetInLastWord textAttribute out
        else if Z.land (code c) 248 =? 240 then
          scan limit softHypen rest' (S cursor) charCount 3
            (lastWord +:+ String c "") (lastWordCharCount + 1) foundSoftHyphen
            lastWordPosition textAttributeWasSetInLastWord textAttribute out
        else
          let plain (_ : unit) :=
            (* word-breakers, then ordinary characters *)
            if negb (bool_decide (softHypen = NUL)) && bool_decide (c = softHypen) then
              scan limit softHypen rest' (S cursor) (charCount + lastWordCharCount) 0
                "" 0 true cursor false textAttribute (out +:+ lastWord)
            else if breaker c then
              scan limit softHypen rest' (S cursor) (charCount + lastWordCharCount) 0
                " " 1 false cursor false textAttribute (out +:+ lastWord)
            else
              scan limit softHypen rest' (S cursor) charCount 0
                (lastWord +:+ (if bool_decide (c = NBSP) then " " else String c ""))
                (lastWordCharCount + 1) foundSoftHyphen lastWordPosition
                textAttributeWasSetInLastWord textAttribute out in
          match rest' with
          | String c1 (String c2 (String c3 rest'')) =>
              if bool_decide (c = ESC) && bool_decide (c1 = "["%char)
                 && bool_decide (c3 = "m"%char) && attribute_digit c2 then
                let value := code c2 - 48 in
                scan limit softHypen rest'' (cursor + 4) charCount 0
                  (lastWord +:+ esc "[" +:+ pretty value +:+ "m") lastWordCharCount
                  foundSoftHyphen lastWordPosition true
                  (if textAttributeWasSetInLastWord then textAttribute else value) out
              else plain tt
          | _ => plain tt
          end
  end.

(** [FormatLine(text, cursor, limit, softHypen, textAttribute, out)]. *)
Definition FormatLine (text : string) (cursor : nat) (limit : Z) (softHypen : ascii)
  (textAttribute : Z) (out : string) : Line :=
  let out1 := out +:+ esc "[" +:+ pretty textAttribute +:+ "m" in
  let cursor1 := (cursor + skip_blank (drop_string cursor text))%nat in
  scan limit softHypen (drop_string cursor1 text) cursor1 0 0 "" 0 false 0%nat false
    textAttribute out1.

(** *** Parse *)

(** The state [Parse] works on: [errno], the parser object, and the local
    variables that live across iterations of the loop over [argv]. *)
Record ParseState : Type := mkParseState {
  errno : Z;
  st_accu : ArgumentAccumulator;
  expectArgValue : bool;
  lastArg : CommandLineArg
}.

(** What the body of the [try] block does with one token: it completes
    (the loop goes on), or an exception reaches the [catch] with the
    message [what] while [position] has the value given. *)
Inductive TokenResult : Type :=
| Completed (s : ParseState)
| Caught (what : string) (position : Z) (s : ParseState).

(** [err.what()] in the [catch] block. [SetValue] and [AddOperand] throw
    nothing but [std::runtime_error]. *)
Definition what_of (e : exn) : string :=
  match e with
  | runtime_error w => w
  | _ => ""
  end.

(** The loop over the letters after a single dash: [n] letters are left,
    the next one is [arg[i]]. *)
Fixpoint cluster (arg : string) (position : Z) (n : nat) (i : nat)
  (foundArgument : bool) (s : ParseState) : TokenResult :=
  match n with
  | O => Completed s
  | S n' =>
      match argsByLetter (st_accu s) !! char_at arg i with
      | None =>
          Caught ("Invalid argument letter: '" +:+ String (char_at arg i) "" +:+ "'.")
            (position + Z.of_nat i) s
      | Some item =>
          match argClass item with
          | ArgumentClass.Option =>
              cluster arg position n' (S i) foundArgument
                (mkParseState (errno s)
                   (set_optionNames ({[ name item ]} ∪ optionNames (st_accu s)) (st_accu s))
                   (expectArgValue s) (lastArg s))
          | _ =>
              if foundArgument then
                Caught ("When multiple options are provided after a single dash, "
                  +:+ "only one of them can be an argument. (Because each argument would require "
                  +:+ "a separate parameter value.) Please separate the extra arguments.")
                  position s
              else
                cluster arg position n' (S i) true
                  (mkParseState (errno s) (st_accu s) true item)
          end
      end
  end.

(** [this->AddOperand(arg)] inside the [try] block. *)
Definition operand_token (arg : string) (position : Z) (s : ParseState) : TokenResult :=
  match AddOperand arg (st_accu s) with
  | Returned a => Completed (mkParseState (errno s) a (expectArgValue s) (lastArg s))
  | Thrown e a =>
      Caught (what_of e) position (mkParseState (errno s) a (expectArgValue s) (lastArg s))
  end.

(** The [try] block for the token [arg] of size [length], for [i > 0]. *)
Definition token (arg : string) (length position : Z) (s : ParseState) : TokenResult :=
  if length =? 0 then
    (* Ignore empty argument *)
    Completed s
  else if expectArgValue s then
    (* Argument value *)
    match SetValue (lastArg s) arg (errno s, st_accu s) with
    | Returned (e, a) => Completed (mkParseState e a false (lastArg s))
    | Thrown x (e, a) => Caught (what_of x) position (mkParseState e a true (lastArg s))
    end
  else if bool_decide (char_at arg 0 = "-"%char) then
    if 1 <? length then
      if bool_decide (char_at arg 1 = "-"%char) then
        if 2 <? length then
          (* Argument full name *)
          let argName := drop_string 2 arg in
          match argsByName (st_accu s) !! argName with
          | None => Caught ("Invalid argument: --" +:+ argName) position s
          | Some item =>
              match argClass item with
              | ArgumentClass.Option =>
                  Completed
                    (mkParseState (errno s)
                       (set_optionNames ({[ argName ]} ∪ optionNames (st_accu s)) (st_accu s))
                       (expectArgValue s) (lastArg s))
              | _ => Completed (mkParseState (errno s) (st_accu s) true item)
              end
          end
        else
          (* Two dashes only. *)
          Caught "Syntax error." position s
      else
        (* One or more single-letter name after a dash. *)
        cluster arg position (Z.to_nat (length - 1)) 1 false s
    else
      (* A single dash. *)
      operand_token arg position s
  else
    (* Operand *)
    operand_token arg position s.

(** [line << " " << arg], or [line << arg] on an empty stream. *)
Definition append_token (line arg : string) : string :=
  if 0 <? Z.of_nat (String.length line) then line +:+ " " +:+ arg else line +:+ arg.

(** The loop of the [catch] block over the entries after the failing
    one: each is trimmed and appended to the line. *)
Fixpoint trim_rest (todo : list CString) (line : string) : list CString * string :=
  match todo with
  | [] => ([], line)
  | str :: todo' =>
      let '(str', _) := Trim str in
      let '(rest, line') := trim_rest todo' (append_token line (c_str str')) in
      (str' :: rest, line')
  end.

(** How the loop over [argv] ends: it runs to its end, or the [catch]
    block calls [ThrowError(what, line, position)]. Either way [argv] has
    been trimmed in place, and the local variables have their last
    values. *)
Inductive LoopResult : Type :=
| Finished (s : ParseState) (argv : list CString)
| Failed (what line : string) (position : Z) (s : ParseState) (argv : list CString).

(** The loop over [argv]: [before] holds the entries before [argv[i]], as
    [Trim] left them, [todo] the entries from [argv[i]] on. *)
Fixpoint Parse_loop (i : nat) (before todo : list CString) (line : string)
  (s : ParseState) : LoopResult :=
  match todo with
  | [] => Finished s before
  | str :: todo' =>
      let position := Z.of_nat (String.length line) in
      let '(str', length) := Trim str in
      let arg := c_str str' in
      let line' := append_token line arg in
      match i with
      | O =>
          Parse_loop 1 (before ++ [str']) todo' line'
            (mkParseState (errno s) (set_executableName arg (st_accu s))
               (expectArgValue s) (lastArg s))
      | S _ =>
          match token arg length position s with
          | Completed s' => Parse_loop (S i) (before ++ [str']) todo' line' s'
          | Caught what position' s' =>
              let '(rest, line'') := trim_rest todo' line' in
              Failed what line'' position' s' (before ++ [str'] ++ rest)
          end
      end
  end.

(** The loop of [Parse] on the parser [p], from the initial values of the
    local variables. *)
Definition Parse_run (errno0 : Z) (p : Parser) : LoopResult :=
  Parse_loop 0 [] (argv p) "" (mkParseState errno0 (accu p) false CommandLineArg_empty).

(** What [Parse] leaves: [errno] and the parser object. *)
Definition Outcome : Type := result (Z * Parser).

(** [Parse()]: the [Arguments] object it returns refers to the
    accumulator of the parser in the returned state. *)
Definition Parse (errno0 : Z) (p : Parser) : Outcome :=
  match Parse_run errno0 p with
  | Finished s argv' => Returned (errno s, mkParser argv' (st_accu s) (screenWidth p))
  | Failed what line position s argv' =>
      Thrown (ThrowError p what line position)
        (errno s, mkParser argv' (st_accu s) (screenWidth p))
  end.

(** *** Specifying arguments *)

(** [Option], [Operand], [RestrictOperands] and the members of
    [ArgumentSpecifier], on the accumulator. *)
Definition Option (name : string) (letter : ascii) (description : string) :=
  AddArg (CommandLineArg_option name letter description).
Definition Operand (name description : string) :=
  AddArg (CommandLineArg_operand name description).
Definition RestrictOperands (a : ArgumentAccumulator) : ArgumentAccumulator :=
  set_restrictOperands true a.
Definition Argument_Int (name : string) (letter : ascii) (defaultValue : Z)
  (valueName description : string) :=
  AddArg (CommandLineArg_int name letter defaultValue valueName description).
Definition Argument_Int_mandatory (name : string) (letter : ascii)
  (valueName description : string) :=
  AddArg (CommandLineArg_mandatory name letter ArgumentType.Int valueName description).
Definition Argument_String (name : string) (letter : ascii) (defaultValue : string)
  (valueName description : string) :=
  AddArg (CommandLineArg_string name letter defaultValue valueName description).
Definition Argument_String_mandatory (name : string) (letter : ascii)
  (valueName description : string) :=
  AddArg (CommandLineArg_mandatory name letter ArgumentType.String valueName description).
Definition Argument_Double (name : string) (letter : ascii) (defaultValue : double)
  (valueName description : string) :=
  AddArg (CommandLineArg_double name letter defaultValue valueName description).
Definition Argument_Double_mandatory (name : string) (letter : ascii)
  (valueName description : string) :=
  AddArg (CommandLineArg_mandatory name letter ArgumentType.Double valueName description).

(** *** ColumnFormat *)

Definition spaces (n : Z) : string := String.concat "" (replicate (Z.to_nat n) " ").

(** The validation of the parameters: the first exception, if any.
    [column] counts the columns already checked. *)
Fixpoint check_columns (column : Z) (widthWeights : list double)
  (leftPaddings rightPaddings : list Z) : option exn :=
  match widthWeights, leftPaddings, rightPaddings with
  | w :: ws, l :: ls, r :: rs =>
      if fle w (double_of_int 0) then
        Some (runtime_error
          ("Parser::ColumnFormat(): All width weight values must be larger than zero. "
             +:+ "The weight value in column " +:+ pretty column +:+ " is invalid."))
      else if l <? 0 then
        Some (runtime_error
          ("Parser::ColumnFormat(): The 'left padding' value for column "
             +:+ pretty column +:+ " is negative."))
      else if r <? 0 then
        Some (runtime_error
          ("Parser::ColumnFormat(): The 'right padding' value for column "
             +:+ pretty column +:+ " is negative."))
      else check_columns (column + 1) ws ls rs
  | _, _, _ => None
  end.

Definition bad_size (what : string) (columns : Z) : exn :=
  runtime_error
    ("Parser::ColumnFormat(): '" +:+ what +:+ "' parameter: invalid number of elements. "
       +:+ pretty columns +:+ " expected.").

Definition too_small : exn :=
  runtime_error "Parser::ColumnFormat(): Can't render text. Window width too small.".

(** The width of each column: [None] when one rounds to less than 1. *)
Fixpoint column_widths (workWidth : Z) (weightSum : double) (widthWeights : list double)
  : option (list Z) :=
  match widthWeights with
  | [] => Some []
  | w :: ws =>
      let value := int_of_double (fround (fmul (double_of_int workWidth) (fdiv w weightSum))) in
      if value <? 1 then None
      else
        match column_widths workWidth weightSum ws with
        | Some l => Some (value :: l)
        | None => None
        end
  end.

(** One pass of the [for] loop that writes a row: the columns left to
    write, with their cursors and text attributes. *)
Fixpoint format_row (texts : list string) (width leftPaddings rightPaddings : list Z)
  (softHyphen : ascii) (cursors : list nat) (textAttributes : list Z) (buff : string)
  (terminated : Z) : list nat * list Z * string * Z :=
  match texts, width, leftPaddings, rightPaddings, cursors, textAttributes with
  | text :: texts', w :: width', l :: ls, r :: rs, cur :: cursors', attr :: attrs' =>
      let buff1 := if 0 <? l then buff +:+ spaces l else buff in
      let '(cur', attr', buff2, terminated') :=
        if (String.length text <=? cur)%nat then
          (cur, attr, buff1 +:+ spaces w, terminated + 1)
        else
          let ln := FormatLine text cur w softHyphen attr buff1 in
          (cursor ln, textAttribute ln, out ln, terminated) in
      let buff3 := if 0 <? r then buff2 +:+ spaces r else buff2 in
      let '(cs, ats, buff4, t) :=
        format_row texts' width' ls rs softHyphen cursors' attrs' buff3 terminated' in
      (cur' :: cs, attr' :: ats, buff4, t)
  | _, _, _, _, _, _ => ([], [], buff, terminated)
  end.

(** The [while (true)] loop. It has no bound in the header; [rows] bounds
    the number of rows written here, and [None] says that the loop has
    not ended within that many rows. *)
Fixpoint format_rows (rows : nat) (columns : Z) (texts : list string)
  (width leftPaddings rightPaddings : list Z) (softHyphen : ascii)
  (cursors : list nat) (textAttributes : list Z) (buff : string) : option string :=
  match rows with
  | O => None
  | S rows' =>
      let '(cursors', attrs', buff', terminated) :=
        format_row texts width leftPaddings rightPaddings softHyphen cursors textAttributes
          buff 0 in
      let buff'' := buff' +:+ endl in
      if columns <=? terminated then Some buff''
      else
        format_rows rows' columns texts width leftPaddings rightPaddings softHyphen
          cursors' attrs' buff''
  end.

(** [ColumnFormat]: the exception it throws, or the text it returns;
    [None] when the loop over the rows has not ended after [rows] rows. *)
Definition ColumnFormat (rows : nat) (p : Parser) (columns : Z) (widthWeights : list double)
  (texts : list string) (leftPaddings rightPaddings : list Z) (softHyphen : ascii)
  (breakAll : bool) : option (exn + string) :=
  if columns <? 1 then
    Some (inl (runtime_error
      "Parser::ColumnFormat(): Too small 'columns' parameter value. At least 1 required."))
  else if negb (Z.of_nat (length widthWeights) =? columns) then
    Some (inl (bad_size "widthWeights" columns))
  else if negb (Z.of_nat (length texts) =? columns) then
    Some (inl (bad_size "texts" columns))
  else if negb (Z.of_nat (length leftPaddings) =? columns) then
    Some (inl (bad_size "leftPaddings" columns))
  else if negb (Z.of_nat (length rightPaddings) =? columns) then
    Some (inl (bad_size "rightPaddings" columns))
  else
    match check_columns 0 widthWeights leftPaddings rightPaddings with
    | Some e => Some (inl e)
    | None =>
        let workWidth :=
          screenWidth p - fold_right Z.add 0 leftPaddings - fold_right Z.add 0 rightPaddings in
        let weightSum := fold_left fadd widthWeights (double_of_int 0) in
        if workWidth <? columns then Some (inl too_small)
        else
          match column_widths workWidth weightSum widthWeights with
          | None => Some (inl too_small)
          | Some width =>
              match
                format_rows rows columns texts width leftPaddings rightPaddings softHyphen
                  (replicate (length texts) 0%nat) (replicate (length texts) 0) ""
              with
              | Some text => Some (inr text)
              | None => None
              end
          end
    end.

End WithFloatingPoint.
End Parser.

(** ** IEEE 754 binary64 as the floating-point side *)

(** [double] as the binary64 format of the Standard Library's
    [SpecFloat]; [strtod] for the decimal, hexadecimal, infinity and NaN
    forms of C99, rounding to nearest even. *)
Module Binary64.

Import SpecFloat.

Definition prec : Z := 53.
Definition emax : Z := 1024.

(** The nearest [double] to [num / den] (both positive), with the sign
    [neg]; and whether the quotient is that [double] exactly. *)
Definition round_ratio (neg : bool) (num den : Z) : spec_float * bool :=
  if num =? 0 then (S754_zero neg, true)
  else
    let s := Z.max 0 (55 + Zdigits2 den - Zdigits2 num) in
    let scaled := num * 2 ^ s in
    let q := scaled / den in
    let r := scaled mod den in
    let loc := if r =? 0 then loc_Exact else loc_Inexact (2 * r ?= den) in
    let x := binary_round_aux prec emax neg q (- s) loc in
    let exact :=
      match x with
      | S754_finite _ m e =>
          if 0 <=? e then Z.pos m * 2 ^ e * den =? num
          else Z.pos m * den =? num * 2 ^ (- e)
      | _ => false
      end in
    (x, exact).

(** [ERANGE] is stored on overflow, and on a result that is zero or
    subnormal without being exact. *)
Definition range_error (x : spec_float) (exact : bool) : bool :=
  match x with
  | S754_infinity _ => true
  | S754_zero _ => negb exact
  | S754_finite _ m e => negb exact && (Z.pos (digits2_pos m) <? prec)
  | S754_nan => false
  end.

Definition lower (c : ascii) : ascii :=
  if (65 <=? code c) && (code c <=? 90) then ascii_of_N (Z.to_N (code c + 32)) else c.

(** Whether [s] starts with [word], letters compared without case. *)
Fixpoint starts_with (word s : string) : bool :=
  match word, s with
  | EmptyString, _ => true
  | String w word', String c s' => bool_decide (lower c = w) && starts_with word' s'
  | String _ _, EmptyString => false
  end.

Definition hex_value (c : ascii) : option Z :=
  if isdigit c then Some (code c - 48)
  else if (97 <=? code (lower c)) && (code (lower c) <=? 102) then Some (code (lower c) - 87)
  else None.

(** The hexadecimal digits at the start of [s], accumulated onto [acc]. *)
Fixpoint hex_digits (s : string) (acc : Z) : nat * Z :=
  match s with
  | String c s' =>
      match hex_value c with
      | Some d => let '(n, v) := hex_digits s' (16 * acc + d) in (S n, v)
      | None => (0%nat, acc)
      end
  | EmptyString => (0%nat, acc)
  end.

(** An exponent part [e], [E], [p] or [P] with an optional sign and at
    least one digit: its length and value, or nothing. *)
Definition exponent_part (mark : ascii) (s : string) : nat * Z :=
  match s with
  | String c s' =>
      if bool_decide (lower c = mark) then
        let '(neg, sg) :=
          match s' with
          | String "-" _ => (true, 1%nat)
          | String "+" _ => (false, 1%nat)
          | _ => (false, 0%nat)
          end in
        let '(n, v) := digits (drop_string sg s') 0 in
        match n with
        | O => (0%nat, 0)
        | S _ => ((1 + sg + n)%nat, if neg then - v else v)
        end
      else (0%nat, 0)
  | EmptyString => (0%nat, 0)
  end.

(** A significand in radix 10 or 16: digits with at most one ['.'], at
    least one digit in all. The length, the digits read as an integer and
    the number of digits after the point. *)
Definition significand (read : string -> Z -> nat * Z) (s : string) : option (nat * Z * nat) :=
  let '(n1, v1) := read s 0 in
  match drop_string n1 s with
  | String "." s' =>
      let '(n2, v2) := read s' v1 in
      match (n1 + n2)%nat with
      | O => None
      | S _ => Some ((n1 + 1 + n2)%nat, v2, n2)
      end
  | _ =>
      match n1 with
      | O => None
      | S _ => Some (n1, v1, 0%nat)
      end
  end.

(** The characters of the sequence in [nan(...)]: digits, letters and
    the underscore. *)
Fixpoint span_nchar (s : string) : nat :=
  match s with
  | String c s' =>
      if isdigit c || ((97 <=? code (lower c)) && (code (lower c) <=? 122)) || (code c =? 95)
      then S (span_nchar s')
      else 0%nat
  | EmptyString => 0%nat
  end.

(** The value of a scaled integer [m * radix ^ scale]. *)
Definition scaled (neg : bool) (m radix scale : Z) : spec_float * bool :=
  if 0 <=? scale then round_ratio neg (m * radix ^ scale) 1
  else round_ratio neg m (radix ^ (- scale)).

(** The subject sequence after white space and sign: its length, its
    value and whether [ERANGE] is stored; nothing when no conversion can
    be performed. *)
Definition subject (neg : bool) (s : string) : option (nat * spec_float * bool) :=
  if starts_with "infinity" s then Some (8%nat, S754_infinity neg, false)
  else if starts_with "inf" s then Some (3%nat, S754_infinity neg, false)
  else if starts_with "nan" s then
    match drop_string 3 s with
    | String "(" s' =>
        let n := span_nchar s' in
        match drop_string n s' with
        | String ")" _ => Some ((3 + 1 + n + 1)%nat, S754_nan, false)
        | _ => Some (3%nat, S754_nan, false)
        end
    | _ => Some (3%nat, S754_nan, false)
    end
  else
    let hex :=
      if starts_with "0x" s then
        match significand hex_digits (drop_string 2 s) with
        | Some (n, m, frac) =>
            let '(ne, e) := exponent_part "p" (drop_string (2 + n) s) in
            let '(x, exact) := scaled neg m 2 (e - 4 * Z.of_nat frac) in
            Some ((2 + n + ne)%nat, x, range_error x exact)
        | None => None
        end
      else None in
    match hex with
    | Some r => Some r
    | None =>
        match significand digits s with
        | Some (n, m, frac) =>
            let '(ne, e) := exponent_part "e" (drop_string n s) in
            let '(x, exact) := scaled neg m 10 (e - Z.of_nat frac) in
            Some ((n + ne)%nat, x, range_error x exact)
        | None => None
        end
    end.

(** [strtod(s, &endptr)]. *)
Definition strtod (s : string) : conversion spec_float :=
  let ws := span_space s in
  let s1 := drop_string ws s in
  let '(neg, sg) :=
    match s1 with
    | String "-" _ => (true, 1%nat)
    | String "+" _ => (false, 1%nat)
    | _ => (false, 0%nat)
    end in
  match subject neg (drop_string sg s1) with
  | Some (n, x, erange) => Conversion x (ws + sg + n)%nat erange
  | None => Conversion (S754_zero false) 0%nat false
  end.

(** The integer part of a finite [double], towards zero. *)
Definition truncate (x : spec_float) : Z :=
  match x with
  | S754_finite s m e =>
      let v := if 0 <=? e then Z.pos m * 2 ^ e else Z.pos m / 2 ^ (- e) in
      if s then - v else v
  | _ => 0
  end.

(** The conversion of a [double] to [int]. C leaves it undefined for a
    value outside [int]; this is the result of [cvttsd2si] on x86-64. *)
Definition int_of_double (x : spec_float) : Z :=
  match x with
  | S754_infinity _ | S754_nan => - 2 ^ 31
  | _ =>
      let v := truncate x in
      if (v <? - 2 ^ 31) || (2 ^ 31 - 1 <? v) then - 2 ^ 31 else v
  end.

Definition double_of_int (z : Z) : spec_float := binary_normalize prec emax z 0 false.

(** [round]: to the nearest integer, halfway cases away from zero. *)
Definition fround (x : spec_float) : spec_float :=
  match x with
  | S754_finite s m e =>
      if 0 <=? e then x
      else
        let d := 2 ^ (- e) in
        let q := Z.pos m / d in
        let r := Z.pos m mod d in
        let n := if d <=? 2 * r then q + 1 else q in
        binary_normalize prec emax (if s then - n else n) 0 s
  | _ => x
  end.

#[export] Instance floating_point : FloatingPoint := {|
  double := spec_float;
  Libc.strtod := strtod;
  Libc.int_of_double := int_of_double;
  Libc.double_of_int := double_of_int;
  fadd := SFadd prec emax;
  fmul := SFmul prec emax;
  fdiv := SFdiv prec emax;
  fle := SFleb;
  Libc.fround := fround
|}.

End Binary64.

(** ** Vocabulary of the properties *)

Import Helper Parser.

Section Vocabulary.
Context {FP : FloatingPoint}.

(** The setup phase of a program: calls on the accumulator, in order. An
    exception leaves the phase (in [main] it ends the program). *)
Fixpoint setup (calls : list (ArgumentAccumulator -> result ArgumentAccumulator))
  (a : ArgumentAccumulator) : result ArgumentAccumulator :=
  match calls with
  | [] => Returned a
  | call :: calls' =>
      match call a with
      | Returned a' => setup calls' a'
      | Thrown e a' => Thrown e a'
      end
  end.

(** [RestrictOperands] as a call of the setup phase. *)
Definition restrict_operands (a : ArgumentAccumulator) : result ArgumentAccumulator :=
  Returned (RestrictOperands a).

(** The accumulators a setup phase can produce: those reached from the
    empty one by calls of [AddArg] that returned and by
    [RestrictOperands]. *)
Inductive Registry : ArgumentAccumulator -> Prop :=
| Registry_empty : Registry ArgumentAccumulator_empty
| Registry_AddArg (a a' : ArgumentAccumulator) (arg : CommandLineArg) :
    Registry a -> AddArg arg a = Returned a' -> Registry a'
| Registry_RestrictOperands (a : ArgumentAccumulator) :
    Registry a -> Registry (RestrictOperands a).

(** A definition is registered under its long name and its letter. *)
Definition registered (a : ArgumentAccumulator) (arg : CommandLineArg) : Prop :=
  argsByName a !! name arg = Some arg /\ argsByLetter a !! letter arg = Some arg.

(** A string as a [const char *] holds it: no terminator inside. *)
Fixpoint no_NUL (s : string) : bool :=
  match s with
  | String c s' => negb (bool_decide (c = NUL)) && no_NUL s'
  | EmptyString => true
  end.

(** The last byte of a string ([NUL] for the empty one). *)
Fixpoint last_char (s : string) : ascii :=
  match s with
  | String c EmptyString => c
  | String _ s' => last_char s'
  | EmptyString => NUL
  end.

(** A long name that can be written after two dashes: not empty, and
    ending with a printable character, so that [Trim] keeps all of it. *)
Definition long_name_ok (n : string) : bool :=
  negb (bool_decide (n = "")) && no_NUL n && isprint (last_char n).

(** A letter that can be written after one dash: printable, and not the
    dash, which would make the token the two dashes. *)
Definition letter_ok (c : ascii) : bool :=
  isprint c && negb (bool_decide (c = "-"%char)).

(** The long form and the short form of a reference to a definition, as
    entries of [argv]. *)
Definition long_form (arg : CommandLineArg) : CString := cstring ("--" +:+ name arg).
Definition short_form (arg : CommandLineArg) : CString :=
  cstring (String "-" (String (letter arg) "")).

(** The parser [p] with another argument vector. *)
Definition with_argv (p : Parser) (argv : list CString) : Parser :=
  mkParser argv (accu p) (screenWidth p).

(** The state and the accumulator an outcome leaves. *)
Definition parser_of (o : Outcome) : Parser := snd (state_of o).
Definition accu_of (o : Outcome) : ArgumentAccumulator := accu (parser_of o).

(** An entry of [argv] as [Trim] leaves it. *)
Definition trimmed (str : CString) : CString := fst (Trim str).

End Vocabulary.

(** The visible columns of a line of output. A text attribute sequence
    ([ESC], ['['], parameters, ['m']) takes none, a continuation byte of
    UTF-8 takes none, every other byte (a character of one byte, or the
    first byte of a longer one) takes one. [in_sequence] says that the
    bytes read are those of a sequence. *)
Fixpoint columns (in_sequence : bool) (s : string) : nat :=
  match s with
  | String c s' =>
      if in_sequence then columns (negb (bool_decide (c = "m"%char))) s'
      else if bool_decide (c = ESC) && bool_decide (char_at s' 0 = "["%char) then columns true s'
      else if Z.land (code c) 192 =? 128 then columns false s'
      else S (columns false s')
  | EmptyString => 0%nat
  end.

Definition visible_columns (s : string) : nat := columns false s.

(** The rows of a text, and the column of the caret in a row: the
    visible columns before the first ['^']. *)
Fixpoint split_rows (s : string) : list string :=
  match s with
  | String c s' =>
      if bool_decide (c = LF) then "" :: split_rows s'
      else
        match split_rows s' with
        | row :: rows => String c row :: rows
        | [] => [String c ""]
        end
  | EmptyString => [""]
  end.

Fixpoint before_caret (row : string) : option string :=
  match row with
  | String c row' =>
      if bool_decide (c = "^"%char) then Some ""
      else
        match before_caret row' with
        | Some s => Some (String c s)
        | None => None
        end
  | EmptyString => None
  end.

Definition caret_column (row : string) : option nat :=
  match before_caret row with
  | Some s => Some (visible_columns s)
  | None => None
  end.

(** The message row of the text [ThrowError] throws. *)
Definition thrown_what {S : Type} (r : result S) : option string :=
  match r with
  | Thrown (runtime_error text) _ => split_rows text !! 1%nat
  | _ => None
  end.

(** The line [Parse] builds for its diagnostics from the entries of
    [argv]: the strings [Trim] leaves, in order, with a space before each
    one that is appended to a line that is not empty. *)
Definition command_line (entries : list CString) : string :=
  fold_left (fun line str => append_token line (c_str (trimmed str))) entries "".

(** The message for a letter without definition. *)
Definition invalid_letter (c : ascii) : string :=
  "Invalid argument letter: '" +:+ String c "" +:+ "'.".

(** An entry of [argv] that [Trim] has nothing to do on: the string is
    empty, or it starts with a printable character other than the space
    and ends with a printable character. *)
Definition needs_no_trim (str : CString) : bool :=
  let s := c_str str in
  bool_decide (s = "")
  || (isprint (char_at s 0) && negb (bool_decide (char_at s 0 = " "%char))
      && isprint (last_char s)).

(** *** What the loop of [Parse] leaves *)

Section Observations.
Context {FP : FloatingPoint}.

Definition loop_argv (r : LoopResult) : list CString :=
  match r with Finished _ a => a | Failed _ _ _ _ a => a end.

Definition loop_state (r : LoopResult) : ParseState :=
  match r with Finished s _ => s | Failed _ _ _ s _ => s end.

Definition finished (r : LoopResult) : bool :=
  match r with Finished _ _ => true | Failed _ _ _ _ _ => false end.

Definition token_state (r : TokenResult) : ParseState :=
  match r with Completed s => s | Caught _ _ s => s end.

Definition completed (r : TokenResult) : bool :=
  match r with Completed _ => true | Caught _ _ _ => false end.

(** [a'] has the definitions of [a]: what the setup phase wrote. *)
Definition same_definitions (a a' : ArgumentAccumulator) : Prop :=
  argsByName a' = argsByName a /\ argsByLetter a' = argsByLetter a
  /\ operands a' = operands a /\ restrictOperands a' = restrictOperands a.

(** [a'] has every value of [a]. *)
Definition keeps_values (a a' : ArgumentAccumulator) : Prop :=
  (forall n v, stringValues a !! n = Some v -> stringValues a' !! n = Some v)
  /\ (forall n v, intValues a !! n = Some v -> intValues a' !! n = Some v)
  /\ (forall n v, doubleValues a !! n = Some v -> doubleValues a' !! n = Some v).

(** The value of [arg] is the default [AddArg] stores for it. *)
Definition holds_default (a : ArgumentAccumulator) (arg : CommandLineArg) : Prop :=
  match argType arg with
  | ArgumentType.Double =>
      doubleValues a !! name arg = Some (double_of_int (GetDoubleDefault arg))
  | ArgumentType.Int => intValues a !! name arg = Some (intDefault arg)
  | _ => stringValues a !! name arg = Some (stringDefault arg)
  end.

(** No value is stored under the name [n]. *)
Definition no_entry (a : ArgumentAccumulator) (n : string) : Prop :=
  stringValues a !! n = None /\ intValues a !! n = None /\ doubleValues a !! n = None.

End Observations.

(** ** The programs of the examples *)

Section Examples.
Context {FP : FloatingPoint}.

(** The setup of the end-to-end example: [host], [port], the Operand
    [database], and [RestrictOperands]; the value names and descriptions
    are free. *)
Definition endpoint_calls (vh dh vp dp dd : string)
  : list (ArgumentAccumulator -> result ArgumentAccumulator) :=
  [Argument_String "host" "h" "127.0.0.1" vh dh;
   Argument_Int "port" "p" 50000 vp dp;
   Operand "database" dd;
   restrict_operands].

(** A parser after a setup phase on the arguments [args] that follow the
    program name. *)
Definition parser_after (calls : list (ArgumentAccumulator -> result ArgumentAccumulator))
  (program : CString) (args : list string) : Parser :=
  mkParser (program :: map cstring args) (state_of (setup calls ArgumentAccumulator_empty)) 80.

(** One declared Operand, and the number of operands restricted. *)
Definition one_operand_calls (dd : string)
  : list (ArgumentAccumulator -> result ArgumentAccumulator) :=
  [Operand "database" dd; restrict_operands].

(** One optional integer Argument. *)
Definition port_calls (vp dp : string)
  : list (ArgumentAccumulator -> result ArgumentAccumulator) :=
  [Argument_Int "port" "p" 50000 vp dp].

End Examples.

(** A description with a soft hyphen before a word of 48 letters, and
    the call [GenerateDoc] makes of [ColumnFormat] for it: weights 40 and
    60, one column of padding around the left text, the soft hyphen
    ['|']. The right column is 47 wide. *)
Definition long_word : string := String.concat "" (replicate 48 "w").
Definition long_description : string := "see|" +:+ long_word.

Definition doc_texts : list string := ["--x"; long_description].

Definition doc_row (rows : nat) : option (exn + string) :=
  ColumnFormat (FP := Binary64.floating_point) rows (Parser_new []) 2
    [Binary64.double_of_int 40; Binary64.double_of_int 60]
    doc_texts [1; 0] [1; 0] "|" false.

(** The parser of [main.cpp], reduced to the definitions of the
    end-to-end example: the definitions, and the parser after the setup
    phase on given arguments. *)
Section Endpoint.
Context {FP : FloatingPoint}.

Definition host_definition : CommandLineArg :=
  CommandLineArg_string "host" "h" "127.0.0.1" "host_name"
    "The host name or IP address of the MonetDB server.".

Definition port_definition : CommandLineArg :=
  CommandLineArg_int "port" "p" 50000 "port" "The port of the MonetDB server.".

Definition database_definition : CommandLineArg :=
  CommandLineArg_operand "database" "The name of the database to connect to.".

Definition endpoint_parser (args : list string) : Parser :=
  parser_after
    (endpoint_calls (valueName host_definition) (description host_definition)
       (valueName port_definition) (description port_definition)
       (description database_definition))
    (cstring "monet-explorer") args.

(** A parser with the Option [help], called with [--help]. *)
Definition help_parser : Parser :=
  parser_after [Parser.Option "help" "?" "Display the usage instructions."]
    (cstring "monet-explorer") ["--help"].

(** A parser without definitions whose second argument starts with a
    space and ends with a tabulation. *)
Definition padded_token : string := String " " (String "x" (String "009" "")).

Definition padded_parser : Parser :=
  Parser_new [cstring "monet-explorer"; cstring padded_token].

End Endpoint.

(** ** The program of main.cpp *)

Section MainProgram.
Context {FP : FloatingPoint}.

(** The calls [main] makes on its parser before [Parse], in order: the
    names, letters, defaults, value names and descriptions are those of
    main.cpp. [RestrictOperands] is called before the last definition.
    The literal [123.456] is the [double] nearest to it. *)
Definition main_calls : list (ArgumentAccumulator -> result ArgumentAccumulator) :=
  [Argument_String "host" "h" "127.0.0.1" "host_name"
     ("The host name or IP add|ress of the " +:+ esc "[1mMonetDB server" +:+ esc "[0m.");
   Argument_Int "port" "p" 50000 "port"
     ("The port of the " +:+ esc "[1mMonetDB server" +:+ esc "[0m.");
   Argument_String "user" "u" "monetdb" "user_name" "User name for the database login.";
   Argument_String "password" "P" "monetdb" "password" "User password for the database login.";
   Operand "database" "The name of the data|base to connect to.";
   Parser.Option "unix-domain-socket" "x"
     ("Use a unix domain socket for con|nect|ing to the " +:+ esc "[1mMonetDB server"
        +:+ esc "[0m, instead of con|nect|ing through TCP/IP. "
        +:+ "If pro|vi|ded, then the host and port ar|gu|ments are ig|no|red.");
   Parser.Option "file-transfer" "t" "Enable the file trans|fer pro|to|col for the con|nec|tion.";
   Argument_String "auth-algo" "a" "SHA1" "algo"
     ("The hash al|go|rithm to be used for the 'salted hashing'. The "
        +:+ esc "[1mMonetDB server" +:+ esc "[0m has to support it. This is "
        +:+ "typi|cally a weaker hash al|go|rithm, which is used to|gether with a "
        +:+ "stron|ger 'pass|word hash' that is currently SHA512.");
   Parser.Option "help" "?" "Display the usage instructions.";
   restrict_operands;
   Argument_Double "number" "n" (conv_value (strtod "123.456")) "float" "A double value."].

(** The parser of [main] when it calls [Parse], for the arguments that
    follow the program name. *)
Definition main_parser (args : list string) : Parser :=
  parser_after main_calls (cstring "./monet-explorer") args.

(** A parser with one mandatory string Argument. *)
Definition file_definition : CommandLineArg :=
  CommandLineArg_mandatory "file" "f" ArgumentType.String "path" "The file to send.".

Definition file_parser (args : list string) : Parser :=
  parser_after [AddArg file_definition] (cstring "send") args.

(** An Option that asks for the letter of [host]. *)
Definition clash_definition : CommandLineArg :=
  CommandLineArg_option "hex" "h" "Print in hexadecimal.".

End MainProgram.

(** ** Vocabulary of the further properties *)

(** A byte the left side of [Trim] passes over: not printable, or the
    space. *)
Definition blank (c : ascii) : bool := negb (isprint c) || bool_decide (c = " "%char).

(** A string without its leading blank bytes, and without its trailing
    bytes that are not printable. *)
Fixpoint strip_left (s : string) : string :=
  match s with
  | String c s' => if blank c then strip_left s' else s
  | EmptyString => ""
  end.

Fixpoint strip_right (s : string) : string :=
  match s with
  | String c s' =>
      match strip_right s' with
      | EmptyString => if isprint c then String c "" else ""
      | r => String c r
      end
  | EmptyString => ""
  end.

(** What follows the string a pointer denotes: nothing, or a
    terminator. *)
Definition ends (rest : string) : Prop := char_at rest 0 = NUL.

Section Entries.
Context {FP : FloatingPoint}.

(** An entry that is read as an operand where no value is awaited. *)
Definition operand_entry (str : CString) : Prop :=
  c_str (trimmed str) <> ""
  /\ (char_at (c_str (trimmed str)) 0 <> "-"%char \/ c_str (trimmed str) = "-").

(** The letters [ls] after one dash in one entry, and one entry with a
    dash for each letter. *)
Definition cluster_entry (ls : list ascii) : CString :=
  cstring (String "-" (string_of_list_ascii ls)).
Definition letter_entries (ls : list ascii) : list CString :=
  map (fun l => cstring (String "-" (String l ""))) ls.

(** A letter that can be written after a dash and is registered for an
    Option. *)
Definition option_letter (a : ArgumentAccumulator) (l : ascii) : Prop :=
  letter_ok l = true
  /\ exists item, argsByLetter a !! l = Some item /\ argClass item = ArgumentClass.Option.

(** The state after the Options of the letters [ls] have been
    activated, one after the other. *)
Fixpoint activate (ls : list ascii) (s : ParseState) : ParseState :=
  match ls with
  | [] => s
  | l :: ls' =>
      match argsByLetter (st_accu s) !! l with
      | Some item =>
          activate ls'
            (mkParseState (errno s)
               (set_optionNames ({[ name item ]} ∪ optionNames (st_accu s)) (st_accu s))
               (expectArgValue s) (lastArg s))
      | None => s
      end
  end.

End Entries.

(** Closed statements are made on the IEEE instance. *)
#[local] Existing Instance Binary64.floating_point.

(** ** Properties *)

(** *** Strings and Trim *)

Lemma char_at_drop (m : string) : forall p k : nat,
  char_at (drop_string p m) k = char_at m (p + k).
Proof.
  induction m as [|c m IH]; intros p k.
  - destruct p; cbn [drop_string]; unfold char_at;
      (destruct k; reflexivity) || (destruct (_ + k)%nat; reflexivity).
  - destruct p as [|p]; [reflexivity|].
    cbn [drop_string]. rewrite IH. reflexivity.
Qed.

Lemma drop_string_S (m : string) : forall p : nat,
  drop_string (S p) m = drop_string 1 (drop_string p m).
Proof.
  induction m as [|c m IH]; intros p.
  - destruct p; reflexivity.
  - destruct p as [|p]; [reflexivity|].
    change (drop_string (S (S p)) (String c m)) with (drop_string (S p) m).
    change (drop_string (S p) (String c m)) with (drop_string p m).
    apply IH.
Qed.

Lemma find_end_until_NUL (s : string) :
  find_end s = S (String.length (until_NUL s)).
Proof.
  induction s as [|c s IH]; [reflexivity|].
  cbn [find_end until_NUL]. case_bool_decide; [reflexivity|].
  cbn [String.length]. now rewrite IH.
Qed.

Lemma last_char_until_NUL (s : string) (c : ascii) :
  c <> NUL ->
  last_char (String c (until_NUL s)) = char_at (String c s) (String.length (until_NUL s)).
Proof.
  revert c. induction s as [|d s IH]; intros c Hc; [reflexivity|].
  cbn [until_NUL]. case_bool_decide as Hd; [reflexivity|].
  change (last_char (String d (until_NUL s))
          = char_at (String d s) (String.length (until_NUL s))).
  apply IH, Hd.
Qed.

Lemma until_NUL_no_NUL (s : string) : no_NUL s = true -> until_NUL s = s.
Proof.
  induction s as [|c s IH]; [reflexivity|]. cbn [no_NUL until_NUL].
  intros [Hc Hs]%andb_prop. apply negb_true_iff in Hc. rewrite Hc. now rewrite IH.
Qed.

Lemma last_char_cons (c : ascii) (s : string) : s <> "" -> last_char (String c s) = last_char s.
Proof. destruct s; [done|reflexivity]. Qed.

(** [Trim] leaves an entry that needs no trimming as it is, and returns
    the size of its string. *)
Lemma Trim_needs_no_trim (str : CString) :
  needs_no_trim str = true ->
  Trim str = (str, Z.of_nat (String.length (c_str str))).
Proof.
  destruct str as [m p]. unfold needs_no_trim, c_str, Trim. cbn [mem ptr].
  intros H.
  pose proof (char_at_drop m p 0) as H0. rewrite Nat.add_0_r in H0.
  destruct (drop_string p m) as [|c s] eqn:E.
  - cbn [left_trim until_NUL String.length]. rewrite Nat.add_0_r, <- H0.
    reflexivity.
  - change (char_at (String c s) 0) with c in H0.
    cbn [until_NUL left_trim] in *.
    destruct (decide (c = NUL)) as [Hc|Hc].
    + rewrite !(bool_decide_true (c = NUL)) by done.
      rewrite Nat.add_0_r, <- H0.
      rewrite bool_decide_true by done. reflexivity.
    + rewrite !(bool_decide_false (c = NUL)) in * by done.
      rewrite (bool_decide_false (String c (until_NUL s) = "")) in H by done.
      rewrite orb_false_l in H.
      apply andb_prop in H as [H Hl]. apply andb_prop in H as [Hp Hs].
      change (char_at (String c (until_NUL s)) 0) with c in Hp, Hs.
      apply negb_true_iff in Hs. rewrite Hp, Hs. cbn [negb orb].
      rewrite Nat.add_0_r, <- H0.
      rewrite bool_decide_false by done.
      rewrite drop_string_S, E. cbn [drop_string].
      rewrite find_end_until_NUL, Nat.add_succ_r. cbn [right_trim].
      rewrite last_char_until_NUL in Hl by done.
      rewrite <- E, char_at_drop in Hl. rewrite Hl, <- H0, Hs.
      cbn [negb orb]. f_equal. cbn [String.length]. lia.
Qed.

Lemma long_name_ok_inv (n : string) :
  long_name_ok n = true -> n <> "" /\ no_NUL n = true /\ isprint (last_char n) = true.
Proof.
  unfold long_name_ok. intros [[H1 H2]%andb_prop H3]%andb_prop.
  apply negb_true_iff, bool_decide_eq_false in H1. auto.
Qed.

Lemma letter_ok_inv (c : ascii) :
  letter_ok c = true -> isprint c = true /\ c <> "-"%char /\ c <> NUL.
Proof.
  unfold letter_ok. intros [H1 H2]%andb_prop.
  apply negb_true_iff, bool_decide_eq_false in H2. repeat split; [done..|].
  intros ->. discriminate H1.
Qed.

(** **** The size Trim returns *)

Lemma char_at_poke (m : string) : forall (i j : nat) (c : ascii),
  char_at (poke i c m) j
  = if bool_decide (i = j) && (i <? String.length m)%nat then c else char_at m j.
Proof.
  induction m as [|d m IH]; intros i j c.
  - destruct i; cbn; now rewrite ?andb_false_r.
  - destruct i as [|i], j as [|j]; cbn [poke]; try reflexivity.
    change (char_at (String d (poke i c m)) (S j)) with (char_at (poke i c m) j).
    change (char_at (String d m) (S j)) with (char_at m j).
    rewrite IH. cbn [String.length].
    change (S i <? S (String.length m))%nat with (i <? String.length m)%nat.
    destruct (decide (i = j)).
    + rewrite !bool_decide_true by congruence. reflexivity.
    + rewrite !bool_decide_false by congruence. reflexivity.
Qed.

Lemma char_at_beyond (m : string) : forall i : nat,
  (String.length m <= i)%nat -> char_at m i = NUL.
Proof.
  induction m as [|d m IH]; intros i H; [now destruct i|].
  destruct i as [|i]; cbn [String.length] in H; [lia|].
  change (char_at (String d m) (S i)) with (char_at m i). apply IH. lia.
Qed.

(** The length of the string at [p] when its terminator is at [e]. *)
Lemma length_until_NUL (m : string) : forall p e : nat,
  (p <= e)%nat ->
  (forall j, (p <= j < e)%nat -> char_at m j <> NUL) ->
  char_at m e = NUL ->
  String.length (until_NUL (drop_string p m)) = (e - p)%nat.
Proof.
  intros p e Hpe. remember (e - p)%nat as d eqn:Hd. revert p e Hpe Hd.
  induction d as [|d IH]; intros p e Hpe Hd Hnon Hnul.
  - assert (e = p) by lia. subst e.
    pose proof (char_at_drop m p 0) as H. rewrite Nat.add_0_r, Hnul in H.
    destruct (drop_string p m) as [|c s]; [reflexivity|].
    change (char_at (String c s) 0) with c in H. subst c. reflexivity.
  - pose proof (char_at_drop m p 0) as H. rewrite Nat.add_0_r in H.
    assert (char_at m p <> NUL) as Hp by (apply Hnon; lia).
    pose proof (drop_string_S m p) as HS.
    destruct (drop_string p m) as [|c s].
    + now rewrite <- H in Hp.
    + change (char_at (String c s) 0) with c in H. cbn [until_NUL].
      rewrite bool_decide_false by congruence. cbn [String.length]. f_equal.
      cbn [drop_string] in HS. rewrite <- HS.
      apply (IH (S p) e); [lia..| |done]. intros j Hj. apply Hnon. lia.
Qed.

Lemma until_NUL_before (s : string) : forall k : nat,
  (k < String.length (until_NUL s))%nat -> char_at s k <> NUL.
Proof.
  induction s as [|c s IH]; intros k Hk; [cbn in Hk; lia|].
  cbn [until_NUL] in Hk. case_bool_decide as Hc; [cbn in Hk; lia|].
  destruct k as [|k]; [exact Hc|]. cbn [String.length] in Hk.
  change (char_at (String c s) (S k)) with (char_at s k). apply IH. lia.
Qed.

Lemma until_NUL_end (s : string) : char_at s (String.length (until_NUL s)) = NUL.
Proof.
  induction s as [|c s IH]; [reflexivity|].
  cbn [until_NUL]. case_bool_decide as Hc; [exact Hc|]. exact IH.
Qed.

(** The loop that finds the ending stops at the first terminator after
    the start. *)
Lemma find_end_spec (m : string) (p : nat) :
  let e := (p + find_end (drop_string (S p) m))%nat in
  (p < e)%nat /\ (forall j, (p < j < e)%nat -> char_at m j <> NUL) /\ char_at m e = NUL.
Proof.
  cbv zeta. rewrite find_end_until_NUL.
  pose proof (until_NUL_before (drop_string (S p) m)) as H1.
  pose proof (until_NUL_end (drop_string (S p) m)) as H2.
  split; [lia|]. split.
  - intros j Hj. specialize (H1 (j - S p)%nat ltac:(lia)).
    rewrite char_at_drop in H1. now replace (S p + (j - S p))%nat with j in H1 by lia.
  - rewrite char_at_drop in H2.
    now replace (S p + String.length (until_NUL (drop_string (S p) m)))%nat
      with (p + S (String.length (until_NUL (drop_string (S p) m))))%nat in H2 by lia.
Qed.

(** The right-trim loop returns the size of the string it leaves. *)
Lemma right_trim_spec (e : nat) : forall (p : nat) (m : string),
  (p < e)%nat ->
  (forall j, (p <= j < e)%nat -> char_at m j <> NUL) ->
  char_at m e = NUL ->
  snd (right_trim e p m)
  = Z.of_nat (String.length (until_NUL (drop_string p (fst (right_trim e p m))))).
Proof.
  induction e as [|e IH]; intros p m Hpe Hnon Hnul; [lia|].
  cbn [right_trim].
  destruct (negb (isprint (char_at m e)) || bool_decide (char_at m p = " "%char)) eqn:Ht.
  - assert (e < String.length m)%nat as Hlen.
    { destruct (Nat.lt_ge_cases e (String.length m)) as [|Hge]; [done|].
      apply char_at_beyond in Hge. exfalso. apply (Hnon e); [lia|done]. }
    assert (char_at (poke e NUL m) e = NUL) as Hpoke.
    { rewrite char_at_poke, bool_decide_true by done.
      now destruct (Nat.ltb_spec e (String.length m)); [|lia]. }
    destruct (Nat.ltb_spec p e) as [Hlt|Hge].
    + apply IH; [done| |done]. intros j Hj. rewrite char_at_poke.
      rewrite bool_decide_false by lia. apply Hnon. lia.
    + cbn [fst snd]. assert (e = p) by lia. subst e.
      rewrite (length_until_NUL _ p p); [lia|lia| |done]. intros j Hj. lia.
  - cbn [fst snd]. rewrite (length_until_NUL m p (S e)); [lia|lia|done|done].
Qed.

(** [Trim] returns the size of the string it leaves, as its comment
    says. *)
Lemma Trim_length (str : CString) :
  snd (Trim str) = Z.of_nat (String.length (c_str (trimmed str))).
Proof.
  unfold trimmed, Trim, c_str. destruct str as [m p0]. cbn [mem ptr].
  set (p := (p0 + left_trim (drop_string p0 m))%nat).
  case_bool_decide as Hp.
  - cbn [fst snd mem ptr]. rewrite (length_until_NUL m p p); [lia|lia| |done].
    intros j Hj. lia.
  - destruct (find_end_spec m p) as (H1 & H2 & H3). cbv zeta in H1, H2, H3.
    pose proof (right_trim_spec _ p m H1) as H.
    destruct (right_trim _ p m) as [m' n]. cbn [fst snd mem ptr] in *.
    apply H; [|done]. intros j Hj. destruct (decide (j = p)) as [->|]; [done|].
    apply H2. lia.
Qed.

(** **** Appending *)

Lemma string_app_assoc (a b c : string) : (a +:+ b) +:+ c = a +:+ (b +:+ c).
Proof.
  induction a as [|x a IH]; [reflexivity|].
  change (String x ((a +:+ b) +:+ c) = String x (a +:+ (b +:+ c))). now rewrite IH.
Qed.

Lemma string_app_length (a b : string) :
  String.length (a +:+ b) = (String.length a + String.length b)%nat.
Proof.
  induction a as [|x a IH]; [reflexivity|].
  change (S (String.length (a +:+ b)) = S (String.length a + String.length b)).
  now rewrite IH.
Qed.

Lemma string_app_nil_r (a : string) : a +:+ "" = a.
Proof.
  induction a as [|x a IH]; [reflexivity|].
  change (String x (a +:+ "") = String x a). now rewrite IH.
Qed.

Lemma append_token_nonempty (line arg : string) :
  line <> "" -> append_token line arg = line +:+ " " +:+ arg.
Proof.
  intros H. unfold append_token.
  destruct line as [|c line]; [done|]. reflexivity.
Qed.

Lemma append_token_not_empty (line arg : string) :
  line <> "" \/ arg <> "" -> append_token line arg <> "".
Proof.
  unfold append_token. destruct line as [|c line]; [|done].
  intros [H|H]; [done|]. exact H.
Qed.

(** *** Maps *)

Lemma map_insert_lookup `{Countable K} {V : Type} (k k' : K) (v : V) (m : gmap K V) :
  map_insert k v m !! k' =
  match m !! k' with
  | Some w => Some w
  | None => if decide (k = k') then Some v else None
  end.
Proof.
  unfold map_insert. destruct (m !! k) as [w|] eqn:E.
  - destruct (m !! k') eqn:E'; [done|]. case_decide; [congruence|done].
  - rewrite lookup_insert. case_decide; subst.
    + now rewrite E.
    + now destruct (m !! k').
Qed.

(** [insert] keeps the value of a key that has one. *)
Lemma map_insert_keeps `{Countable K} {V : Type} (k k' : K) (v w : V) (m : gmap K V) :
  m !! k' = Some w -> map_insert k v m !! k' = Some w.
Proof. intros E. now rewrite map_insert_lookup, E. Qed.

Lemma length_lt_1 {A : Type} (l : list A) : (Z.of_nat (length l) <? 1) = true <-> l = [].
Proof. rewrite Z.ltb_lt. destruct l; cbn [length]; split; (done || lia). Qed.

Lemma set_size_lt_1 (X : gset string) : (Z.of_nat (size X) <? 1) = true <-> X = ∅.
Proof.
  rewrite Z.ltb_lt. split.
  - intros H. apply leibniz_equiv, size_empty_iff. lia.
  - intros ->. rewrite size_empty. lia.
Qed.

Lemma map_size_lt_1 {V : Type} (m : gmap string V) : (Z.of_nat (size m) <? 1) = true <-> m = ∅.
Proof.
  rewrite Z.ltb_lt. split.
  - intros H. apply map_size_empty_iff. lia.
  - intros ->. rewrite map_size_empty. lia.
Qed.

(** *** The loop of Parse *)

Section Loop.
Context {FP : FloatingPoint}.

Lemma trim_rest_fst (todo : list CString) : forall line : string,
  fst (trim_rest todo line) = map trimmed todo.
Proof.
  induction todo as [|str todo IH]; intros line; [reflexivity|].
  cbn [trim_rest map]. unfold trimmed at 1.
  destruct (Trim str) as [str' n]. cbn [fst].
  specialize (IH (append_token line (c_str str'))).
  destruct (trim_rest todo _) as [rest line']. cbn [fst] in *. now rewrite IH.
Qed.

(** However the loop ends, it has trimmed every entry. *)
Lemma Parse_loop_argv (todo : list CString) :
  forall (i : nat) (dn : list CString) (line : string) (s : ParseState),
  loop_argv (Parse_loop i dn todo line s) = (dn ++ map trimmed todo)%list.
Proof.
  induction todo as [|str todo IH]; intros i dn line s.
  - cbn. now rewrite app_nil_r.
  - cbn [Parse_loop map]. unfold trimmed at 1.
    destruct (Trim str) as [str' n]. cbn [fst].
    destruct i as [|i].
    + rewrite IH, <- app_assoc. reflexivity.
    + destruct (token _ _ _ _) as [s'|what position s'].
      * rewrite IH, <- app_assoc. reflexivity.
      * pose proof (trim_rest_fst todo (append_token line (c_str str'))) as H.
        destruct (trim_rest todo _) as [rest line']. cbn [fst] in H. subst rest.
        cbn [loop_argv]. reflexivity.
Qed.

Lemma Parse_argv (errno0 : Z) (p : Parser) :
  argv (parser_of (Parse errno0 p)) = map trimmed (argv p).
Proof.
  unfold Parse, Parse_run, parser_of.
  pose proof (Parse_loop_argv (argv p) 0 [] ""
    (mkParseState errno0 (accu p) false CommandLineArg_empty)) as H.
  destruct (Parse_loop _ _ _ _ _); cbn in *; exact H.
Qed.

(** What [Parse] leaves, read off the loop. *)
Lemma Parse_accu (errno0 : Z) (p : Parser) :
  accu_of (Parse errno0 p) = st_accu (loop_state (Parse_run errno0 p))
  /\ returned (Parse errno0 p) = finished (Parse_run errno0 p)
  /\ fst (state_of (Parse errno0 p)) = errno (loop_state (Parse_run errno0 p)).
Proof. unfold Parse, accu_of, parser_of. destruct (Parse_run errno0 p); repeat split. Qed.

(** One iteration of the loop: on the program name, and on a token
    whose [try] block completes. *)
Lemma Parse_loop_program (dn todo : list CString) (str : CString) (line : string)
  (s : ParseState) :
  Parse_loop 0 dn (str :: todo) line s
  = Parse_loop 1 (dn ++ [trimmed str]) todo (append_token line (c_str (trimmed str)))
      (mkParseState (errno s) (set_executableName (c_str (trimmed str)) (st_accu s))
         (expectArgValue s) (lastArg s)).
Proof. cbn [Parse_loop]. unfold trimmed. now destruct (Trim str). Qed.

Lemma Parse_loop_completed (i : nat) (dn todo : list CString) (str : CString)
  (line : string) (s s' : ParseState) :
  token (c_str (trimmed str)) (snd (Trim str)) (Z.of_nat (String.length line)) s
    = Completed s' ->
  Parse_loop (S i) dn (str :: todo) line s
  = Parse_loop (S (S i)) (dn ++ [trimmed str]) todo
      (append_token line (c_str (trimmed str))) s'.
Proof.
  cbn [Parse_loop]. unfold trimmed. destruct (Trim str) as [str' n]. cbn [fst snd].
  now intros ->.
Qed.

(** The loop on a vector with more entries at its end goes on from the
    state in which the loop on the vector without them finishes. *)
Lemma Parse_loop_app (todo more : list CString) :
  forall (i : nat) (dn : list CString) (line : string) (s s1 : ParseState)
    (argv1 : list CString),
  Parse_loop i dn todo line s = Finished s1 argv1 ->
  exists line1 : string,
    Parse_loop i dn (todo ++ more) line s
    = Parse_loop (i + length todo) argv1 more line1 s1.
Proof.
  induction todo as [|str todo IH]; intros i dn line s s1 argv1 H.
  - cbn in H. injection H as <- <-. exists line. cbn. now rewrite Nat.add_0_r.
  - cbn [Parse_loop app] in *. destruct (Trim str) as [str' n].
    destruct i as [|i].
    + apply IH in H as [line1 ->]. exists line1. reflexivity.
    + destruct (token _ _ _ _) as [s'|what position s'].
      * apply IH in H as [line1 ->]. exists line1. cbn [length].
        now rewrite Nat.add_succ_r.
      * destruct (trim_rest todo _). discriminate.
Qed.


(** **** The definitions are not touched *)

Lemma same_definitions_refl (a : ArgumentAccumulator) : same_definitions a a.
Proof. repeat split. Qed.

Lemma same_definitions_trans (a b c : ArgumentAccumulator) :
  same_definitions a b -> same_definitions b c -> same_definitions a c.
Proof.
  intros (H1 & H2 & H3 & H4) (H1' & H2' & H3' & H4').
  repeat split; congruence.
Qed.

Lemma SetValue_definitions (arg : CommandLineArg) (value : string) (e : Z)
  (a : ArgumentAccumulator) :
  same_definitions a (snd (state_of (SetValue arg value (e, a)))).
Proof.
  unfold SetValue. destruct (argType arg); repeat case_match; repeat split.
Qed.

Lemma AddOperand_definitions (value : string) (a : ArgumentAccumulator) :
  same_definitions a (state_of (AddOperand value a)).
Proof. unfold AddOperand. case_match; repeat split. Qed.

Lemma cluster_definitions (arg : string) (position : Z) (n : nat) :
  forall (i : nat) (found : bool) (s : ParseState),
  same_definitions (st_accu s) (st_accu (token_state (cluster arg position n i found s))).
Proof.
  induction n as [|n IH]; intros i found s; [apply same_definitions_refl|].
  cbn [cluster]. repeat case_match; try apply same_definitions_refl.
  all: eapply same_definitions_trans; [|apply IH]; repeat split.
Qed.

Lemma token_definitions (arg : string) (length position : Z) (s : ParseState) :
  same_definitions (st_accu s) (st_accu (token_state (token arg length position s))).
Proof.
  unfold token, operand_token.
  repeat case_match; try apply same_definitions_refl; try apply cluster_definitions.
  all: try (match goal with H : SetValue ?x ?v (?e, ?a) = _ |- _ =>
              pose proof (SetValue_definitions x v e a) as Hd; rewrite H in Hd; exact Hd end).
  all: try (match goal with H : AddOperand ?v ?a = _ |- _ =>
              pose proof (AddOperand_definitions v a) as Hd; rewrite H in Hd; exact Hd end).
  all: repeat split.
Qed.

Lemma Parse_loop_definitions (todo : list CString) :
  forall (i : nat) (dn : list CString) (line : string) (s : ParseState),
  same_definitions (st_accu s) (st_accu (loop_state (Parse_loop i dn todo line s))).
Proof.
  induction todo as [|str todo IH]; intros i dn line s; [apply same_definitions_refl|].
  cbn [Parse_loop]. destruct (Trim str) as [str' n].
  destruct i as [|i].
  - eapply same_definitions_trans; [|apply IH]. repeat split.
  - pose proof (token_definitions (c_str str') n (Z.of_nat (String.length line)) s) as H.
    destruct (token _ _ _ _) as [s'|what position s']; cbn [token_state] in H.
    + eapply same_definitions_trans; [exact H|apply IH].
    + destruct (trim_rest todo _). exact H.
Qed.

Lemma Parse_definitions (errno0 : Z) (p : Parser) :
  same_definitions (accu p) (accu_of (Parse errno0 p)).
Proof.
  destruct (Parse_accu errno0 p) as (-> & _). unfold Parse_run.
  apply (Parse_loop_definitions (argv p) 0 [] ""
           (mkParseState errno0 (accu p) false CommandLineArg_empty)).
Qed.

(** **** The values are kept *)

Lemma keeps_values_refl (a : ArgumentAccumulator) : keeps_values a a.
Proof. repeat split; auto. Qed.

Lemma keeps_values_trans (a b c : ArgumentAccumulator) :
  keeps_values a b -> keeps_values b c -> keeps_values a c.
Proof. intros (H1 & H2 & H3) (H1' & H2' & H3'). repeat split; auto. Qed.

Lemma SetValue_keeps_values (arg : CommandLineArg) (value : string) (e : Z)
  (a : ArgumentAccumulator) :
  keeps_values a (snd (state_of (SetValue arg value (e, a)))).
Proof.
  unfold SetValue. destruct (argType arg); repeat case_match; cbn;
    repeat split; auto; intros n v; apply map_insert_keeps.
Qed.

Lemma AddOperand_keeps_values (value : string) (a : ArgumentAccumulator) :
  keeps_values a (state_of (AddOperand value a)).
Proof. unfold AddOperand. case_match; repeat split; auto. Qed.

Lemma cluster_keeps_values (arg : string) (position : Z) (n : nat) :
  forall (i : nat) (found : bool) (s : ParseState),
  keeps_values (st_accu s) (st_accu (token_state (cluster arg position n i found s))).
Proof.
  induction n as [|n IH]; intros i found s; [apply keeps_values_refl|].
  cbn [cluster]. repeat case_match; try apply keeps_values_refl.
  all: eapply keeps_values_trans; [|apply IH]; repeat split; auto.
Qed.

Lemma token_keeps_values (arg : string) (length position : Z) (s : ParseState) :
  keeps_values (st_accu s) (st_accu (token_state (token arg length position s))).
Proof.
  unfold token, operand_token.
  repeat case_match; try apply keeps_values_refl; try apply cluster_keeps_values.
  all: try (match goal with H : SetValue ?x ?v (?e, ?a) = _ |- _ =>
              pose proof (SetValue_keeps_values x v e a) as Hd; rewrite H in Hd; exact Hd end).
  all: try (match goal with H : AddOperand ?v ?a = _ |- _ =>
              pose proof (AddOperand_keeps_values v a) as Hd; rewrite H in Hd; exact Hd end).
  all: repeat split; auto.
Qed.

Lemma Parse_loop_keeps_values (todo : list CString) :
  forall (i : nat) (dn : list CString) (line : string) (s : ParseState),
  keeps_values (st_accu s) (st_accu (loop_state (Parse_loop i dn todo line s))).
Proof.
  induction todo as [|str todo IH]; intros i dn line s; [apply keeps_values_refl|].
  cbn [Parse_loop]. destruct (Trim str) as [str' n].
  destruct i as [|i].
  - eapply keeps_values_trans; [|apply IH]. repeat split; auto.
  - pose proof (token_keeps_values (c_str str') n (Z.of_nat (String.length line)) s) as H.
    destruct (token _ _ _ _) as [s'|what position s']; cbn [token_state] in H.
    + eapply keeps_values_trans; [exact H|apply IH].
    + destruct (trim_rest todo _). exact H.
Qed.

(** **** The line and the position decide nothing but the diagnostic *)

Lemma cluster_position (arg : string) (position position' : Z) (n : nat) :
  forall (i : nat) (found : bool) (s : ParseState),
  token_state (cluster arg position n i found s)
  = token_state (cluster arg position' n i found s)
  /\ completed (cluster arg position n i found s)
     = completed (cluster arg position' n i found s).
Proof.
  induction n as [|n IH]; intros i found s; [done|].
  cbn [cluster]. repeat case_match; try done; apply IH.
Qed.

Lemma token_position (arg : string) (length position position' : Z) (s : ParseState) :
  token_state (token arg length position s) = token_state (token arg length position' s)
  /\ completed (token arg length position s) = completed (token arg length position' s).
Proof.
  unfold token, operand_token.
  repeat case_match; try done; apply cluster_position.
Qed.

Lemma Parse_loop_line (todo : list CString) :
  forall (i : nat) (dn dn' : list CString) (line line' : string) (s : ParseState),
  loop_state (Parse_loop i dn todo line s) = loop_state (Parse_loop i dn' todo line' s)
  /\ finished (Parse_loop i dn todo line s) = finished (Parse_loop i dn' todo line' s).
Proof.
  induction todo as [|str todo IH]; intros i dn dn' line line' s; [done|].
  cbn [Parse_loop]. destruct (Trim str) as [str' n].
  destruct i as [|i]; [apply IH|].
  pose proof (token_position (c_str str') n (Z.of_nat (String.length line))
                (Z.of_nat (String.length line')) s) as [Hs Hc].
  destruct (token _ _ (Z.of_nat (String.length line)) _) as [s1|w1 p1 s1];
    destruct (token _ _ (Z.of_nat (String.length line')) _) as [s2|w2 p2 s2];
    cbn in Hs, Hc; try done; subst s2.
  - apply IH.
  - destruct (trim_rest todo (append_token line (c_str str'))).
    destruct (trim_rest todo (append_token line' (c_str str'))). done.
Qed.

(** **** References to an Argument *)

Lemma Trim_long_form (arg : CommandLineArg) :
  long_name_ok (name arg) = true ->
  Trim (long_form arg) = (long_form arg, 2 + Z.of_nat (String.length (name arg)))
  /\ c_str (long_form arg) = String "-" (String "-" (name arg)).
Proof.
  intros (Hne & Hnul & Hlast)%long_name_ok_inv.
  assert (c_str (long_form arg) = String "-" (String "-" (name arg))) as Hc.
  { unfold c_str, long_form, cstring. cbn [mem ptr drop_string].
    change ("--" +:+ name arg) with (String "-" (String "-" (name arg))).
    cbn [until_NUL]. rewrite !bool_decide_false by done. now rewrite until_NUL_no_NUL. }
  split; [|exact Hc].
  rewrite Trim_needs_no_trim.
  - rewrite Hc. cbn [String.length]. f_equal. lia.
  - unfold needs_no_trim. rewrite Hc. rewrite bool_decide_false by done.
    change (char_at (String "-" (String "-" (name arg))) 0) with "-"%char.
    rewrite !last_char_cons by done. now rewrite Hlast.
Qed.

Lemma Trim_short_form (arg : CommandLineArg) :
  letter_ok (letter arg) = true ->
  Trim (short_form arg) = (short_form arg, 2)
  /\ c_str (short_form arg) = String "-" (String (letter arg) "").
Proof.
  intros (Hp & Hd & Hn)%letter_ok_inv.
  assert (c_str (short_form arg) = String "-" (String (letter arg) "")) as Hc.
  { unfold c_str, short_form, cstring. cbn [mem ptr drop_string until_NUL].
    now rewrite !bool_decide_false by done. }
  split; [|exact Hc].
  rewrite Trim_needs_no_trim.
  - rewrite Hc. reflexivity.
  - unfold needs_no_trim. rewrite Hc. rewrite bool_decide_false by done.
    change (char_at (String "-" (String (letter arg) "")) 0) with "-"%char.
    cbn [last_char]. now rewrite Hp.
Qed.

(** A reference in the long form, read while no value is awaited. *)
Lemma token_long_form (arg : CommandLineArg) (position : Z) (s : ParseState) :
  expectArgValue s = false ->
  name arg <> "" ->
  argsByName (st_accu s) !! name arg = Some arg ->
  argClass arg = ArgumentClass.Argument ->
  token (String "-" (String "-" (name arg))) (2 + Z.of_nat (String.length (name arg)))
    position s
  = Completed (mkParseState (errno s) (st_accu s) true arg).
Proof.
  intros He Hne Hl Hc. unfold token. rewrite He.
  assert (0 < Z.of_nat (String.length (name arg))) by (destruct (name arg); [done|cbn; lia]).
  destruct (Z.eqb_spec (2 + Z.of_nat (String.length (name arg))) 0); [lia|].
  change (char_at (String "-" (String "-" (name arg))) 0) with "-"%char.
  change (char_at (String "-" (String "-" (name arg))) 1) with "-"%char.
  rewrite !bool_decide_true by done.
  destruct (Z.ltb_spec 1 (2 + Z.of_nat (String.length (name arg)))); [|lia].
  destruct (Z.ltb_spec 2 (2 + Z.of_nat (String.length (name arg)))); [|lia].
  cbn [drop_string]. now rewrite Hl, Hc.
Qed.

(** A reference in the short form, read while no value is awaited. *)
Lemma token_short_form (arg : CommandLineArg) (position : Z) (s : ParseState) :
  expectArgValue s = false ->
  letter arg <> "-"%char ->
  argsByLetter (st_accu s) !! letter arg = Some arg ->
  argClass arg = ArgumentClass.Argument ->
  token (String "-" (String (letter arg) "")) 2 position s
  = Completed (mkParseState (errno s) (st_accu s) true arg).
Proof.
  intros He Hd Hl Hc. unfold token. rewrite He.
  change (2 =? 0) with false. change (1 <? 2) with true. cbn iota.
  change (char_at (String "-" (String (letter arg) "")) 0) with "-"%char.
  change (char_at (String "-" (String (letter arg) "")) 1) with (letter arg).
  rewrite bool_decide_true by done. rewrite bool_decide_false by done.
  change (Z.to_nat (2 - 1)) with 1%nat. cbn [cluster].
  change (char_at (String "-" (String (letter arg) "")) 1) with (letter arg).
  now rewrite Hl, Hc.
Qed.

(** **** Where the loop fails *)

Lemma trim_rest_line (todo : list CString) : forall line : string,
  exists after : string, snd (trim_rest todo line) = line +:+ after.
Proof.
  induction todo as [|str todo IH]; intros line.
  - exists "". cbn. now rewrite string_app_nil_r.
  - cbn [trim_rest]. destruct (Trim str) as [str' n].
    destruct (IH (append_token line (c_str str'))) as [after H].
    destruct (trim_rest todo _) as [rest line']. cbn [snd] in *. subst line'.
    unfold append_token. case_match.
    + exists (" " +:+ c_str str' +:+ after). now rewrite !string_app_assoc.
    + exists (c_str str' +:+ after). now rewrite !string_app_assoc.
Qed.

(** The loop over the letters throws at the position it was given, or
    at that position moved by the index of a letter without definition. *)
Lemma cluster_caught (arg : string) (position : Z) (n : nat) :
  forall (i : nat) (found : bool) (s : ParseState) (what : string) (position' : Z)
    (s' : ParseState),
  cluster arg position n i found s = Caught what position' s' ->
  position' = position
  \/ exists j : nat, (i <= j < i + n)%nat /\ position' = position + Z.of_nat j
       /\ what = "Invalid argument letter: '" +:+ String (char_at arg j) "" +:+ "'.".
Proof.
  induction n as [|n IH]; intros i found s what position' s' H; [discriminate|].
  cbn [cluster] in H. repeat case_match; simplify_eq;
    try (match goal with
         | H : cluster _ _ _ _ _ _ = Caught _ _ _ |- _ =>
             apply IH in H as [?|(j & ? & ? & ?)];
             [auto|right; exists j; split; [lia|auto]]
         end);
    auto.
  right. exists i. split; [lia|auto].
Qed.

Lemma token_caught (arg : string) (position : Z) (s : ParseState) (what : string)
  (position' : Z) (s' : ParseState) :
  token arg (Z.of_nat (String.length arg)) position s = Caught what position' s' ->
  exists k : nat,
    position' = position + Z.of_nat k /\ (k < String.length arg)%nat
    /\ (k = 0%nat
        \/ what = "Invalid argument letter: '" +:+ String (char_at arg k) "" +:+ "'.").
Proof.
  unfold token, operand_token. intros H.
  destruct (Z.eqb_spec (Z.of_nat (String.length arg)) 0) as [|Hlen]; [discriminate|].
  assert (position' = position
          \/ exists j : nat, (1 <= j < 1 + Z.to_nat (Z.of_nat (String.length arg) - 1))%nat
               /\ position' = position + Z.of_nat j
               /\ what = "Invalid argument letter: '" +:+ String (char_at arg j) "" +:+ "'.")
    as [->|(j & Hj & -> & ->)].
  { repeat case_match; simplify_eq; auto. eapply cluster_caught. eassumption. }
  - exists 0%nat. split; [lia|]. split; [lia|auto].
  - exists j. split; [done|]. split; [lia|auto].
Qed.

(** Where the loop fails, the line holds the failing token after a
    space, and the position is that of the space, moved by the index of
    the letter when a letter is refused. The line must not be empty when
    the token is appended: the program name is not empty. *)
Lemma Parse_loop_failed (todo : list CString) :
  forall (i : nat) (dn : list CString) (line : string) (s : ParseState)
    (what line' : string) (position : Z) (s' : ParseState) (argv' : list CString),
  match i with
  | O => match todo with str :: _ => c_str (trimmed str) <> "" | [] => True end
  | S _ => line <> ""
  end ->
  Parse_loop i dn todo line s = Failed what line' position s' argv' ->
  exists (before tok after : string) (k : nat),
    line' = before +:+ " " +:+ tok +:+ after
    /\ position = Z.of_nat (String.length before) + Z.of_nat k
    /\ (k < String.length tok)%nat
    /\ (k = 0%nat
        \/ what = "Invalid argument letter: '" +:+ String (char_at tok k) "" +:+ "'.").
Proof.
  induction todo as [|str todo IH]; intros i dn line s what line' position s' argv' Hi H;
    [discriminate|].
  cbn [Parse_loop] in H. pose proof (Trim_length str) as Hlen. unfold trimmed in *.
  destruct (Trim str) as [str' n]. cbn [fst snd] in *. subst n.
  destruct i as [|i].
  - eapply IH; [|exact H]. cbn. apply append_token_not_empty. now right.
  - assert (append_token line (c_str str') = line +:+ " " +:+ c_str str') as Hline
      by now apply append_token_nonempty.
    destruct (token _ _ _ _) as [s1|what1 position1 s1] eqn:Ht.
    + eapply IH; [|exact H]. cbn. apply append_token_not_empty. now left.
    + apply token_caught in Ht as (k & -> & Hk & Hwhat).
      destruct (trim_rest_line todo (append_token line (c_str str'))) as [after Hafter].
      destruct (trim_rest todo _) as [rest line'']. cbn [snd] in Hafter.
      injection H as <- <- <- <- <-. subst line''.
      exists line, (c_str str'), after, k. rewrite Hline, !string_app_assoc. auto.
Qed.

End Loop.

(** *** The setup phase *)

Section Setup.
Context {FP : FloatingPoint}.

(** What a setup phase leaves in the value maps: the default of every
    optional definition under its name, and nothing else. *)
Lemma Registry_values (a : ArgumentAccumulator) :
  Registry a ->
  (forall n arg, argsByName a !! n = Some arg ->
     name arg = n
     /\ (optional arg = true -> holds_default a arg)
     /\ (optional arg = false -> no_entry a n))
  /\ (forall n, argsByName a !! n = None -> no_entry a n).
Proof.
  induction 1 as [|a a' arg0 _ [IH1 IH2] Hadd|a _ IH].
  - split; [intros n arg H; cbn in H; now rewrite lookup_empty in H|]. intros n _.
    repeat split; apply lookup_empty.
  - unfold AddArg in Hadd.
    destruct (argsByName a !! name arg0) eqn:Hfresh; [discriminate|].
    destruct (IH2 _ Hfresh) as (Hs0 & Hi0 & Hd0).
    assert (map_insert (name arg0) arg0 (argsByName a) = <[name arg0:=arg0]> (argsByName a))
      as Hm by (unfold map_insert; now rewrite Hfresh).
    rewrite Hm in Hadd.
    assert (argsByName a' = <[name arg0 := arg0]> (argsByName a)
            /\ (forall n, n <> name arg0 ->
                 stringValues a' !! n = stringValues a !! n
                 /\ intValues a' !! n = intValues a !! n
                 /\ doubleValues a' !! n = doubleValues a !! n)
            /\ (optional arg0 = true -> holds_default a' arg0)
            /\ (optional arg0 = false -> no_entry a' (name arg0)))
      as (Hn' & Hother & Hdef & Hno).
    { unfold holds_default, no_entry.
      repeat case_match; simplify_eq; cbn; (split; [reflexivity|]);
        (split; [intros n Hne; rewrite ?map_insert_lookup;
                 repeat split; try done; destruct (_ !! n); try done;
                 destruct (decide (name arg0 = n)); congruence|]);
        split; intros Hopt; try discriminate; try done;
        rewrite map_insert_lookup, ?Hs0, ?Hi0, ?Hd0;
        destruct (decide (name arg0 = name arg0)); congruence. }
    clear Hadd. split.
    + intros n arg Hl. rewrite Hn', lookup_insert in Hl. case_decide as Hd; subst.
      * injection Hl as <-. auto.
      * destruct (IH1 _ _ Hl) as (Hname & Ho1 & Ho2).
        assert (n <> name arg0) as Hne by congruence.
        destruct (Hother n Hne) as (E1 & E2 & E3).
        split; [done|]. split; intros Hopt.
        -- specialize (Ho1 Hopt). unfold holds_default in *. rewrite Hname.
           destruct (argType arg); congruence.
        -- specialize (Ho2 Hopt). unfold no_entry in *. now rewrite E1, E2, E3.
    + intros n Hl. rewrite Hn', lookup_insert in Hl. case_decide; [discriminate|].
      destruct (Hother n ltac:(congruence)) as (E1 & E2 & E3).
      unfold no_entry. rewrite E1, E2, E3. now apply IH2.
  - exact IH.
Qed.

(** A setup phase of calls of [AddArg] that returns leaves a registry. *)
Lemma Registry_setup (args : list CommandLineArg) :
  forall a0 a : ArgumentAccumulator,
  Registry a0 -> setup (map AddArg args) a0 = Returned a -> Registry a.
Proof.
  induction args as [|arg args IH]; intros a0 a H0 H.
  - cbn in H. now injection H as <-.
  - cbn [map setup] in H. destruct (AddArg arg a0) as [a1|e a1] eqn:E; [|discriminate].
    eapply IH; [|exact H]. eapply Registry_AddArg; eassumption.
Qed.

End Setup.

(** *** The end-to-end example *)

(** C1. With [host] (string, [h], default 127.0.0.1), [port] (int, [p],
    default 50000), one Operand and [RestrictOperands], [Parse] on
    [program -h 10.0.0.1 -p 5432 mydb] returns with the operand list
    [mydb] and no help requested, but [host] and [port] hold their
    defaults: [SetValue] inserts, and [insert] keeps the entry that [AddArg]
    stored for the default. *)
Theorem end_to_end_keeps_defaults `{FP : FloatingPoint} (vh dh vp dp dd : string)
  (program : CString) :
  let calls := endpoint_calls vh dh vp dp dd in
  let o := Parse 0 (parser_after calls program ["-h"; "10.0.0.1"; "-p"; "5432"; "mydb"]) in
  returned (setup calls ArgumentAccumulator_empty) = true
  /\ returned o = true
  /\ stringValues (accu_of o) !! "host" = Some "127.0.0.1"
  /\ intValues (accu_of o) !! "port" = Some 50000
  /\ operandValues (accu_of o) = ["mydb"]
  /\ Arguments.IsHelpRequested (accu_of o) = false.
Proof.
  intros calls o. subst calls o.
  unfold Parse, Parse_run, parser_after. cbn [argv map Parse_loop].
  destruct (Trim program) as [str n].
  vm_compute. repeat split; reflexivity.
Qed.

(** *** The number of operands *)

(** C4. With [RestrictOperands] and one declared Operand, [Parse] returns
    on two positional tokens and collects both: [AddOperand] compares with
    [>] where the message it throws speaks of a maximum. *)
Theorem two_operands_accepted `{FP : FloatingPoint} (dd : string) (program : CString) :
  let o := Parse 0 (parser_after (one_operand_calls dd) program ["a"; "b"]) in
  returned o = true
  /\ length (operands (accu_of o)) = 1%nat
  /\ restrictOperands (accu_of o) = true
  /\ operandValues (accu_of o) = ["a"; "b"].
Proof.
  intros o. subst o.
  unfold Parse, Parse_run, parser_after. cbn [argv map Parse_loop].
  destruct (Trim program) as [str n].
  vm_compute. repeat split; reflexivity.
Qed.

(** One positional token is accepted, and the third one is the first to
    be refused. *)
Lemma one_operand_accepted `{FP : FloatingPoint} (dd : string) (program : CString) :
  let o := Parse 0 (parser_after (one_operand_calls dd) program ["a"]) in
  returned o = true /\ operandValues (accu_of o) = ["a"].
Proof.
  intros o. subst o.
  unfold Parse, Parse_run, parser_after. cbn [argv map Parse_loop].
  destruct (Trim program) as [str n].
  vm_compute. repeat split; reflexivity.
Qed.

Lemma three_operands_rejected `{FP : FloatingPoint} (dd : string) :
  thrown_what
    (Parse 0 (parser_after (one_operand_calls dd) (cstring "monet-explorer") ["a"; "b"; "c"]))
  = Some (esc "[31m" +:+ "The maximal number of operands is restricted to 1." +:+ esc "[0m").
Proof. vm_compute. reflexivity. Qed.

(** *** Integer values *)

(** C6. For the integer Argument [port] with the default 50000, [Parse]
    on [program --port 5432] returns, and [port] is still 50000: the
    value is accepted and not stored. *)
Theorem accepted_integer_not_stored `{FP : FloatingPoint} (vp dp : string)
  (program : CString) :
  let o := Parse 0 (parser_after (port_calls vp dp) program ["--port"; "5432"]) in
  returned o = true /\ intValues (accu_of o) !! "port" = Some 50000.
Proof.
  intros o. subst o.
  unfold Parse, Parse_run, parser_after. cbn [argv map Parse_loop].
  destruct (Trim program) as [str n].
  vm_compute. repeat split; reflexivity.
Qed.

(** The two errors: a token that is no number, and one beyond [long]. *)
Lemma invalid_integer_rejected `{FP : FloatingPoint} (vp dp : string) :
  thrown_what
    (Parse 0 (parser_after (port_calls vp dp) (cstring "monet-explorer") ["--port"; "abc"]))
  = Some (esc "[31m" +:+ "Invalid integer value." +:+ esc "[0m").
Proof. vm_compute. reflexivity. Qed.

Lemma integer_out_of_range_rejected `{FP : FloatingPoint} (vp dp : string) :
  thrown_what
    (Parse 0 (parser_after (port_calls vp dp) (cstring "monet-explorer")
                ["--port"; "99999999999999999999"]))
  = Some (esc "[31m" +:+ "Integer value out of range." +:+ esc "[0m").
Proof. vm_compute. reflexivity. Qed.

(** With [errno] at 0, [SetValue] on an integer Argument throws one of
    the two errors, or the whole token is a number within [long] and its
    value, narrowed to [int], is inserted. *)
Lemma SetValue_integer `{FP : FloatingPoint} (arg : CommandLineArg) (value : string)
  (a : ArgumentAccumulator) :
  argType arg = ArgumentType.Int ->
  SetValue arg value (0, a) = Thrown (runtime_error "Integer value out of range.") (ERANGE, a)
  \/ SetValue arg value (0, a) = Thrown (runtime_error "Invalid integer value.") (0, a)
  \/ (conv_erange (strtol value) = false
      /\ char_at value (conv_end (strtol value)) = NUL
      /\ SetValue arg value (0, a)
         = Returned (0, set_intValues
                          (map_insert (name arg) (int_of_long (conv_value (strtol value)))
                             (intValues a)) a)).
Proof.
  intros Ht. unfold SetValue. rewrite Ht.
  destruct (conv_erange (strtol value)) eqn:E.
  - left. reflexivity.
  - change (0 =? ERANGE) with false. cbn iota.
    destruct (decide (char_at value (conv_end (strtol value)) = NUL)) as [Hn|Hn].
    + rewrite bool_decide_true by done. right. right. auto.
    + rewrite bool_decide_false by done. right. left. reflexivity.
Qed.

(** *** The argument vector *)

(** C7 (as amended). [Parse] trims the argument vector in place: when it
    has returned or thrown, every entry of [argv] is the entry as [Trim]
    leaves it, its pointer moved past the leading bytes that are not
    printable or are spaces, its trailing bytes that are not printable
    overwritten with the terminator; an entry on which [Trim] has nothing
    to do is the entry as it was. *)
Theorem Parse_trims_argv_in_place `{FP : FloatingPoint} (errno0 : Z) (p : Parser) :
  let argv' := argv (parser_of (Parse errno0 p)) in
  argv' = map trimmed (argv p)
  /\ forall (i : nat) (str : CString),
       argv p !! i = Some str -> needs_no_trim str = true -> argv' !! i = Some str.
Proof.
  cbv zeta. rewrite Parse_argv. split; [reflexivity|].
  intros i str Hi Hn. rewrite list_lookup_fmap, Hi. cbn.
  unfold trimmed. now rewrite Trim_needs_no_trim.
Qed.

(** The program name of [padded_parser] needs no trimming, and is left
    as it was. *)
Lemma Parse_trims_argv_in_place_witness :
  argv (parser_of (Parse 0 padded_parser)) = map trimmed (argv padded_parser)
  /\ argv (parser_of (Parse 0 padded_parser)) !! 0%nat = Some (cstring "monet-explorer").
Proof.
  destruct (Parse_trims_argv_in_place 0 padded_parser) as [H1 H2].
  split; [exact H1|].
  apply (H2 0%nat (cstring "monet-explorer")); reflexivity.
Defined.

(** C7, as stated, fails: after [Parse] the pointer of the second entry
    of [padded_parser] has moved by one byte, and the tabulation that
    ended its string is a terminator. *)
Lemma Parse_moves_pointer_and_writes_terminator :
  argv padded_parser = [cstring "monet-explorer"; mkCString padded_token 0]
  /\ argv (parser_of (Parse 0 padded_parser))
     = [cstring "monet-explorer"; mkCString (String " " (String "x" (String NUL ""))) 1]
  /\ argv (parser_of (Parse 0 padded_parser)) <> argv padded_parser.
Proof. repeat split; try (vm_compute; reflexivity). vm_compute. discriminate. Qed.

(** *** Help *)

(** What [IsHelpRequested] tests after a [Parse] that returned: (a) no
    Operand is declared (the member [operands]), no Option is activated
    and no definition is registered (the member [argsByName]), or (b) the
    name [help] is among the activated Options. The definitions are those
    registered before [Parse], which does not touch them; the operands
    [Parse] collected (the member [operandValues]) are not looked at. *)
Theorem help_requested_after_Parse `{FP : FloatingPoint} (errno0 e : Z) (p p' : Parser) :
  Parse errno0 p = Returned (e, p') ->
  Arguments.IsHelpRequested (accu p') = true <->
    (operands (accu p) = [] /\ optionNames (accu p') = ∅ /\ argsByName (accu p) = ∅)
    \/ "help" ∈ optionNames (accu p').
Proof.
  intros H. pose proof (Parse_definitions errno0 p) as (Hn & _ & Ho & _).
  rewrite H in Hn, Ho. change (accu_of (Returned (e, p'))) with (accu p') in Hn, Ho.
  rewrite <- Hn, <- Ho. unfold Arguments.IsHelpRequested.
  rewrite <- length_lt_1, <- set_size_lt_1, <- map_size_lt_1.
  destruct (Z.of_nat (length (operands (accu p'))) <? 1);
    destruct (Z.of_nat (size (optionNames (accu p'))) <? 1);
    destruct (Z.of_nat (size (argsByName (accu p'))) <? 1);
    cbn [andb]; try case_bool_decide; intuition congruence.
Qed.

(** [help_parser] returns, with help requested through (b). *)
Lemma help_parser_returns `{FP : FloatingPoint} :
  Parse 0 help_parser = Returned (state_of (Parse 0 help_parser)).
Proof. vm_compute. reflexivity. Qed.

Lemma help_requested_after_Parse_witness :
  Parse 0 help_parser = Returned (state_of (Parse 0 help_parser))
  /\ (Arguments.IsHelpRequested (accu_of (Parse 0 help_parser)) = true <->
        (operands (accu help_parser) = []
         /\ optionNames (accu_of (Parse 0 help_parser)) = ∅
         /\ argsByName (accu help_parser) = ∅)
        \/ "help" ∈ optionNames (accu_of (Parse 0 help_parser))).
Proof.
  split; [exact help_parser_returns|].
  refine (help_requested_after_Parse 0 (fst (state_of (Parse 0 help_parser))) help_parser
            (snd (state_of (Parse 0 help_parser))) _).
  refine (eq_trans help_parser_returns _).
  apply f_equal. symmetry. apply surjective_pairing.
Defined.

(** C8. On a parser without definitions, [Parse] on [program x] returns
    with the operand [x] collected, no Option activated and no definition
    registered, and [IsHelpRequested] is true: an operand has been
    supplied and [help] has not been activated. The test of
    [IsHelpRequested] reads the declared Operand definitions, where its
    comment speaks of the arguments that were provided. *)
Theorem help_requested_with_an_operand `{FP : FloatingPoint} (program : CString) :
  let o := Parse 0 (Parser_new [program; cstring "x"]) in
  returned o = true
  /\ operandValues (accu_of o) = ["x"]
  /\ optionNames (accu_of o) = ∅
  /\ argsByName (accu_of o) = ∅
  /\ Arguments.IsHelpRequested (accu_of o) = true.
Proof.
  intros o. subst o.
  unfold Parse, Parse_run, Parser_new. cbn [argv accu Parse_loop].
  destruct (Trim program) as [str n].
  vm_compute. repeat split; reflexivity.
Qed.

(** *** The two forms of a reference *)

(** C9. For an Argument registered under its long name and under its
    letter, the vectors [program --name value] and [program -letter
    value] leave the same accumulator (the maps of string, int and double
    values, the activated Options, the operands), and [Parse] returns on
    the one exactly when it returns on the other. The long name is one
    that can follow the two dashes (not empty, ending with a printable
    character) and the letter one that can follow a dash (printable, not
    the dash). *)
Theorem long_and_short_form_store_the_same `{FP : FloatingPoint} (errno0 : Z) (p : Parser)
  (arg : CommandLineArg) (program value : CString) :
  registered (accu p) arg ->
  argClass arg = ArgumentClass.Argument ->
  long_name_ok (name arg) = true ->
  letter_ok (letter arg) = true ->
  let by_name := Parse errno0 (with_argv p [program; long_form arg; value]) in
  let by_letter := Parse errno0 (with_argv p [program; short_form arg; value]) in
  accu_of by_name = accu_of by_letter
  /\ returned by_name = returned by_letter
  /\ fst (state_of by_name) = fst (state_of by_letter).
Proof.
  intros [Hn Hl] Hc Hlong Hshort. cbv zeta.
  destruct (Parse_accu errno0 (with_argv p [program; long_form arg; value])) as (-> & -> & ->).
  destruct (Parse_accu errno0 (with_argv p [program; short_form arg; value])) as (-> & -> & ->).
  unfold Parse_run, with_argv. cbn [argv accu].
  rewrite !Parse_loop_program.
  destruct (Trim_long_form arg Hlong) as [Htl Hcl].
  destruct (Trim_short_form arg Hshort) as [Hts Hcs].
  apply long_name_ok_inv in Hlong as (Hne & _ & _).
  apply letter_ok_inv in Hshort as (_ & Hd & _).
  set (s := mkParseState _ _ _ _).
  rewrite (Parse_loop_completed 0 _ _ (long_form arg) _ s
             (mkParseState errno0 (st_accu s) true arg)).
  2:{ unfold trimmed. rewrite Htl. cbn [fst snd]. rewrite Hcl. now apply token_long_form. }
  rewrite (Parse_loop_completed 0 _ _ (short_form arg) _ s
             (mkParseState errno0 (st_accu s) true arg)).
  2:{ unfold trimmed. rewrite Hts. cbn [fst snd]. rewrite Hcs. now apply token_short_form. }
  match goal with
  | |- context [Parse_loop 2 ?d1 [value] ?l1 ?s] =>
      match goal with
      | |- context [Parse_loop 2 ?d2 [value] ?l2 s] =>
          tryif constr_eq d1 d2 then fail else
          destruct (Parse_loop_line [value] 2 d1 d2 l1 l2 s) as [-> ->]
      end
  end.
  done.
Qed.

(** [--host 10.0.0.1] and [-h 10.0.0.1] on the parser of the end-to-end
    example. *)
Lemma host_registered `{FP : FloatingPoint} :
  registered (accu (endpoint_parser [])) host_definition.
Proof. split; vm_compute; reflexivity. Qed.

Lemma long_and_short_form_store_the_same_witness :
  registered (accu (endpoint_parser [])) host_definition
  /\ accu_of (Parse 0 (with_argv (endpoint_parser [])
                [cstring "monet-explorer"; long_form host_definition; cstring "10.0.0.1"]))
     = accu_of (Parse 0 (with_argv (endpoint_parser [])
                [cstring "monet-explorer"; short_form host_definition; cstring "10.0.0.1"])).
Proof.
  split; [exact host_registered|].
  refine (proj1 (long_and_short_form_store_the_same 0 (endpoint_parser []) host_definition
                   (cstring "monet-explorer") (cstring "10.0.0.1") host_registered
                   eq_refl eq_refl eq_refl)).
Defined.

(** *** A reference at the end of the vector *)


(** The setup of the end-to-end example leaves a registry. *)
Lemma endpoint_setup_returns `{FP : FloatingPoint} (args : list string) :
  setup (map AddArg [host_definition; port_definition; database_definition])
    ArgumentAccumulator_empty
  = Returned
      (set_restrictOperands false (accu (endpoint_parser args))).
Proof. vm_compute. reflexivity. Qed.

Lemma endpoint_parser_Registry `{FP : FloatingPoint} (args : list string) :
  Registry (accu (endpoint_parser args)).
Proof.
  pose proof (Registry_RestrictOperands _
    (Registry_setup [host_definition; port_definition; database_definition]
       ArgumentAccumulator_empty _ Registry_empty (endpoint_setup_returns args))) as H.
  assert (RestrictOperands (set_restrictOperands false (accu (endpoint_parser args)))
          = accu (endpoint_parser args)) as E by (vm_compute; reflexivity).
  now rewrite E in H.
Qed.





(** *** The caret of a diagnostic *)

(** C5. When the program name is empty, the line of the diagnostic
    starts with the offending token: for the vector of the empty string
    and [--], the window row is [--], with the token in column 0, and the
    caret stands in column 1. *)
Theorem caret_after_empty_program_name `{FP : FloatingPoint} (a : ArgumentAccumulator) :
  match Parse 0 (mkParser [cstring ""; cstring "--"] a 80) with
  | Thrown (runtime_error text) _ =>
      split_rows text !! 3%nat = Some "--"
      /\ (caret_column <$> split_rows text !! 4%nat) = Some (Some 1%nat)
  | _ => False
  end.
Proof. vm_compute. split; reflexivity. Qed.

(** The window of [ThrowError] for a width of 80 columns, when the
    position is that of a byte that has another byte after it in the
    line. *)
Lemma error_window_caret (size position : Z) :
  0 <= position -> position + 1 < size ->
  let '(start, head, length) := error_window 80 size position in
  start + head = position /\ 0 <= start /\ 0 <= head /\ head + 1 < length
  /\ start + length <= size /\ length <= 80.
Proof.
  intros H0 H1. unfold error_window.
  change (maxHead_of 80) with 53. change (80 - 53) with 27.
  destruct (Z.ltb_spec position 53); destruct (Z.ltb_spec size 80); cbn [orb]; try lia.
  destruct (Z.ltb_spec (size - position) 27); lia.
Qed.

Section Caret.
Context {FP : FloatingPoint}.

Lemma trim_rest_snd (todo : list CString) : forall line : string,
  snd (trim_rest todo line)
  = fold_left (fun line str => append_token line (c_str (trimmed str))) todo line.
Proof.
  induction todo as [|str todo IH]; intros line; [reflexivity|].
  cbn [trim_rest fold_left]. unfold trimmed at 2. destruct (Trim str) as [str' n]. cbn [fst].
  specialize (IH (append_token line (c_str str'))).
  destruct (trim_rest todo _) as [rest line']. exact IH.
Qed.

(** The messages of [SetValue] and [AddOperand] are not the one for a
    letter. *)
Lemma SetValue_what (arg : CommandLineArg) (value : string) (s s' : Z * ArgumentAccumulator)
  (x : exn) (c : ascii) :
  SetValue arg value s = Thrown x s' -> what_of x <> invalid_letter c.
Proof.
  destruct s as [e a]. unfold SetValue. intros H E.
  repeat case_match; try discriminate; injection H as <- _; cbn [what_of] in E;
    apply (f_equal (fun s => (String.get 0 s, String.get 2 s, String.get 8 s))) in E;
    vm_compute in E; discriminate E.
Qed.

Lemma AddOperand_what (value : string) (a a' : ArgumentAccumulator) (x : exn) (c : ascii) :
  AddOperand value a = Thrown x a' -> what_of x <> invalid_letter c.
Proof.
  unfold AddOperand. intros H E. case_match; [|discriminate]. injection H as <- _.
  cbn [what_of] in E. apply (f_equal (String.get 0)) in E. vm_compute in E. discriminate E.
Qed.

(** Where the loop over the letters throws: at the position it was
    given, with another message than the one for a letter; or at that
    position moved by the index of the first letter without definition,
    with the message for that letter. *)
Lemma cluster_caught_at (arg : string) (position : Z) (n : nat) :
  forall (i : nat) (found : bool) (s : ParseState) (what : string) (position' : Z)
    (s' : ParseState),
  cluster arg position n i found s = Caught what position' s' ->
  (position' = position /\ forall c, what <> invalid_letter c)
  \/ exists j : nat,
       (i <= j < i + n)%nat /\ position' = position + Z.of_nat j
       /\ what = invalid_letter (char_at arg j)
       /\ argsByLetter (st_accu s) !! char_at arg j = None
       /\ forall j', (i <= j' < j)%nat -> argsByLetter (st_accu s) !! char_at arg j' <> None.
Proof.
  induction n as [|n IH]; intros i found s what position' s' H; [discriminate|].
  cbn [cluster] in H.
  destruct (argsByLetter (st_accu s) !! char_at arg i) as [item|] eqn:Hl.
  - assert (forall s0, argsByLetter (st_accu s0) = argsByLetter (st_accu s) ->
              cluster arg position n (S i) (match argClass item with
                                            | ArgumentClass.Option => found | _ => true end) s0
              = Caught what position' s' ->
              (position' = position /\ forall c, what <> invalid_letter c)
              \/ exists j : nat,
                   (i <= j < i + S n)%nat /\ position' = position + Z.of_nat j
                   /\ what = invalid_letter (char_at arg j)
                   /\ argsByLetter (st_accu s) !! char_at arg j = None
                   /\ forall j', (i <= j' < j)%nat ->
                        argsByLetter (st_accu s) !! char_at arg j' <> None) as Hrec.
    { intros s0 E0 H0. apply IH in H0 as [H0|(j & Hj & Hp & Hw & Hn & Hb)]; [now left|].
      right. exists j. rewrite E0 in Hn.
      split; [lia|]. split; [done|]. split; [done|]. split; [done|].
      intros j' Hj'. destruct (decide (j' = i)) as [->|]; [now rewrite Hl|].
      rewrite <- E0. apply Hb. lia. }
    destruct (argClass item) eqn:Hc.
    + destruct found.
      * injection H as <- <- <-. left. split; [done|]. intros c E.
        apply (f_equal (String.get 0)) in E. vm_compute in E. discriminate E.
      * eapply Hrec; [|exact H]. reflexivity.
    + eapply Hrec; [|exact H]. reflexivity.
    + destruct found.
      * injection H as <- <- <-. left. split; [done|]. intros c E.
        apply (f_equal (String.get 0)) in E. vm_compute in E. discriminate E.
      * eapply Hrec; [|exact H]. reflexivity.
  - injection H as <- <- <-. right. exists i.
    split; [lia|]. split; [done|]. split; [done|]. split; [done|]. intros j' Hj'. lia.
Qed.

(** Where the [try] block throws on a token: at the first byte of the
    token, or at the first letter without definition. *)
Lemma token_caught_at (arg : string) (position : Z) (s : ParseState) (what : string)
  (position' : Z) (s' : ParseState) :
  token arg (Z.of_nat (String.length arg)) position s = Caught what position' s' ->
  exists k : nat,
    position' = position + Z.of_nat k /\ (k < String.length arg)%nat
    /\ ((k = 0%nat /\ forall c, what <> invalid_letter c)
        \/ ((1 <= k)%nat /\ what = invalid_letter (char_at arg k)
            /\ argsByLetter (st_accu s) !! char_at arg k = None
            /\ forall j, (1 <= j < k)%nat -> argsByLetter (st_accu s) !! char_at arg j <> None)).
Proof.
  unfold token, operand_token. intros H.
  destruct (Z.eqb_spec (Z.of_nat (String.length arg)) 0) as [|Hlen]; [discriminate|].
  assert ((position' = position /\ forall c, what <> invalid_letter c)
          \/ exists j : nat,
               (1 <= j < 1 + Z.to_nat (Z.of_nat (String.length arg) - 1))%nat
               /\ position' = position + Z.of_nat j
               /\ what = invalid_letter (char_at arg j)
               /\ argsByLetter (st_accu s) !! char_at arg j = None
               /\ forall j', (1 <= j' < j)%nat ->
                    argsByLetter (st_accu s) !! char_at arg j' <> None)
    as [[-> Hw]|(j & Hj & -> & -> & Hn & Hb)].
  { repeat case_match; simplify_eq; try (eapply cluster_caught_at; eassumption); left;
      (split; [done|]); intros c E.
    - eapply SetValue_what; eassumption.
    - apply (f_equal (String.get 16)) in E. vm_compute in E. discriminate E.
    - apply (f_equal (String.get 0)) in E. vm_compute in E. discriminate E.
    - eapply AddOperand_what; eassumption.
    - eapply AddOperand_what; eassumption. }
  - exists 0%nat. split; [lia|]. split; [lia|]. left. done.
  - exists j. split; [done|]. split; [lia|]. right.
    split; [lia|]. split; [done|]. split; [done|]. exact Hb.
Qed.

(** Where the loop over [argv] fails: on an entry before which it has
    finished, with the line of all the entries. *)
Lemma Parse_loop_failed_at (todo : list CString) :
  forall (i : nat) (dn : list CString) (line : string) (s : ParseState)
    (what line' : string) (position : Z) (s' : ParseState) (argv' : list CString),
  Parse_loop i dn todo line s = Failed what line' position s' argv' ->
  exists (pre post : list CString) (str : CString) (s1 : ParseState) (dn1 : list CString),
    todo = (pre ++ str :: post)%list
    /\ (i = 0%nat -> pre <> [])
    /\ Parse_loop i dn pre line s = Finished s1 dn1
    /\ token (c_str (trimmed str)) (snd (Trim str))
         (Z.of_nat (String.length
            (fold_left (fun line str => append_token line (c_str (trimmed str))) pre line))) s1
       = Caught what position s'
    /\ line' = fold_left (fun line str => append_token line (c_str (trimmed str))) todo line.
Proof.
  induction todo as [|str todo IH]; intros i dn line s what line' position s' argv' H;
    [discriminate|].
  destruct i as [|i].
  - rewrite Parse_loop_program in H.
    apply IH in H as (pre & post & str1 & s1 & dn1 & -> & _ & Hfin & Htok & ->).
    exists (str :: pre), post, str1, s1, dn1. split_and!; try done.
    now rewrite Parse_loop_program.
  - destruct (token (c_str (trimmed str)) (snd (Trim str)) (Z.of_nat (String.length line)) s)
      as [s2|what2 position2 s2] eqn:Ht.
    + rewrite (Parse_loop_completed i dn todo str line s s2 Ht) in H.
      apply IH in H as (pre & post & str1 & s1 & dn1 & -> & _ & Hfin & Htok & ->).
      exists (str :: pre), post, str1, s1, dn1. split_and!; try done.
      cbn [app]. now rewrite (Parse_loop_completed i dn pre str line s s2 Ht).
    + cbn [Parse_loop] in H. unfold trimmed in Ht. 
      pose proof (trim_rest_snd todo (append_token line (c_str (trimmed str)))) as Hline.
      unfold trimmed at 1 in Hline.
      destruct (Trim str) as [str' n] eqn:E. cbn [fst snd] in *. rewrite Ht in H.
      destruct (trim_rest todo _) as [rest line'']. cbn [snd] in Hline.
      injection H as <- <- <- <- <-.
      exists [], todo, str, s, dn.
      split_and!; try done; cbn [fold_left]; unfold trimmed; now rewrite ?E.
Qed.

Lemma command_line_app (pre : list CString) (str : CString) (post : list CString) :
  command_line pre <> "" ->
  exists after : string,
    command_line (pre ++ str :: post)
    = command_line pre +:+ " " +:+ c_str (trimmed str) +:+ after.
Proof.
  intros Hne. unfold command_line. rewrite fold_left_app. cbn [fold_left].
  fold (command_line pre). rewrite <- trim_rest_snd.
  destruct (trim_rest_line post (append_token (command_line pre) (c_str (trimmed str))))
    as [after ->].
  exists after. rewrite append_token_nonempty by done. now rewrite !string_app_assoc.
Qed.

Lemma command_line_not_empty (program : CString) (pre : list CString) :
  c_str (trimmed program) <> "" -> command_line (program :: pre) <> "".
Proof.
  intros H. unfold command_line. cbn [fold_left].
  assert (append_token "" (c_str (trimmed program)) <> "") as H0
    by (apply append_token_not_empty; now right).
  revert H0. generalize (append_token "" (c_str (trimmed program))).
  induction pre as [|str pre IH]; intros line Hl; [exact Hl|].
  cbn [fold_left]. apply IH. apply append_token_not_empty. now left.
Qed.

(** X19. When the program name is not empty and the loop of [Parse]
    fails, it fails on an entry [str] of [argv] before which it has
    finished: the [try] block throws on [str], in the state the entries
    before it left. The line is the command line of all the entries; in
    it the string of [str] stands after the command line of the entries
    before it and a space. The position is the offset of that space, and
    the message is not the one for a letter; or it is that offset moved
    by the index [k] of the first letter of the string without
    definition, and the message names that letter. The caret (in column
    [head + 1] of the window that starts at [start]) is over byte [k] of
    the string, the first one or that letter; it is inside the window,
    and the window inside the line. *)
Theorem caret_under_offending_byte (errno0 : Z) (p : Parser)
  (what line : string) (position : Z) (s : ParseState) (argv' : list CString) :
  match argv p with str :: _ => c_str (trimmed str) <> "" | [] => True end ->
  screenWidth p = 80 ->
  Parse_run errno0 p = Failed what line position s argv' ->
  exists (pre post : list CString) (str : CString) (s1 : ParseState)
    (argv1 : list CString) (after : string) (k : nat),
    let before := command_line pre in
    let tok := c_str (trimmed str) in
    argv p = (pre ++ str :: post)%list
    /\ Parse_run errno0 (with_argv p pre) = Finished s1 argv1
    /\ token tok (snd (Trim str)) (Z.of_nat (String.length before)) s1
       = Caught what position s
    /\ line = command_line (argv p)
    /\ line = before +:+ " " +:+ tok +:+ after
    /\ position = Z.of_nat (String.length before) + Z.of_nat k
    /\ (k < String.length tok)%nat
    /\ ((k = 0%nat /\ forall c, what <> invalid_letter c)
        \/ ((1 <= k)%nat /\ what = invalid_letter (char_at tok k)
            /\ argsByLetter (accu p) !! char_at tok k = None
            /\ forall j, (1 <= j < k)%nat -> argsByLetter (accu p) !! char_at tok j <> None))
    /\ let '(start, head, length) :=
         error_window (screenWidth p) (Z.of_nat (String.length line)) position in
       start + (head + 1) = Z.of_nat (String.length before) + 1 + Z.of_nat k
       /\ 0 <= start /\ head + 1 < length
       /\ start + length <= Z.of_nat (String.length line).
Proof.
  intros Hprog Hw H. unfold Parse_run in H.
  apply Parse_loop_failed_at in H as (pre & post & str & s1 & argv1 & E & Hpre & Hfin & Htok & ->).
  fold (command_line pre) in Htok. fold (command_line (argv p)).
  rewrite E in Hprog. destruct pre as [|program pre]; [now destruct Hpre|].
  cbn [app] in Hprog.
  pose proof (command_line_not_empty program pre Hprog) as Hne.
  destruct (command_line_app (program :: pre) str post Hne) as [after Hline].
  pose proof Htok as Htok'. rewrite Trim_length in Htok'.
  apply token_caught_at in Htok' as (k & Hpos & Hk & Hwhat).
  pose proof (Parse_loop_definitions (program :: pre) 0 [] ""
                (mkParseState errno0 (accu p) false CommandLineArg_empty)) as (_ & Hl & _).
  rewrite Hfin in Hl. cbn [loop_state st_accu] in Hl.
  exists (program :: pre), post, str, s1, argv1, after, k. cbv zeta.
  rewrite <- E in Hline. rewrite Hl in Hwhat.
  split_and!; try done.
  rewrite Hw, Hline, Hpos.
  pose proof (error_window_caret
    (Z.of_nat (String.length (command_line (program :: pre) +:+ " "
                                +:+ c_str (trimmed str) +:+ after)))
    (Z.of_nat (String.length (command_line (program :: pre))) + Z.of_nat k)) as Hwin.
  rewrite !string_app_length in *. cbn [String.length] in *.
  destruct (error_window _ _ _) as [[start head] length].
  destruct Hwin as (? & ? & ? & ? & ? & ?); lia.
Qed.

End Caret.

(** *** The width of a line *)

(** C2. [FormatLine] on the text [a|bcd] with the limit 2 and the soft
    hyphen ['|'] writes the attribute sequence, then [a-] and a space:
    three visible columns. The hyphen of the break is written without
    being counted. *)
Theorem soft_hyphen_break_is_one_column_wider :
  FormatLine "a|bcd" 0 2 "|" 0 "" = mkLine 1 0 (esc "[0m" +:+ "a- ")
  /\ visible_columns (esc "[0m" +:+ "a- ") = 3%nat.
Proof. split; vm_compute; reflexivity. Qed.

(** *** Progress of the layout *)

(** What [ColumnFormat] does on the texts of [doc_row] once the
    parameters are validated and the widths computed: 31 and 47. *)
Lemma doc_row_unfold (rows : nat) :
  doc_row rows =
  match format_rows rows 2 doc_texts [31; 47] [1; 0] [1; 0] "|" [0%nat; 0%nat] [0; 0] "" with
  | Some text => Some (inr text)
  | None => None
  end.
Proof.
  unfold doc_row, ColumnFormat.
  cbv -[format_rows long_description doc_texts].
  reflexivity.
Qed.

(** The first row leaves both cursors at 3: the left text is consumed,
    the right one is back at its soft hyphen. *)
Lemma doc_first_row (buff : string) :
  let r := format_row doc_texts [31; 47] [1; 0] [1; 0] "|" [0%nat; 0%nat] [0; 0] buff 0 in
  r.1.1.1 = [3%nat; 3%nat] /\ r.1.1.2 = [0; 0] /\ r.2 = 0.
Proof. vm_compute. auto. Qed.

(** Every later row leaves the cursors where they were, and one column
    only is terminated. *)
Lemma doc_stuck_row (buff : string) :
  let r := format_row doc_texts [31; 47] [1; 0] [1; 0] "|" [3%nat; 3%nat] [0; 0] buff 0 in
  r.1.1.1 = [3%nat; 3%nat] /\ r.1.1.2 = [0; 0] /\ r.2 = 1.
Proof. vm_compute. auto. Qed.

Lemma doc_stuck_rows (rows : nat) : forall buff : string,
  format_rows rows 2 doc_texts [31; 47] [1; 0] [1; 0] "|" [3%nat; 3%nat] [0; 0] buff = None.
Proof.
  induction rows as [|rows IH]; intros buff; [reflexivity|].
  cbn [format_rows].
  pose proof (doc_stuck_row buff) as H. cbv zeta in H.
  destruct (format_row _ _ _ _ _ _ _ _ _) as [[[cs ats] b] t].
  cbn in H. destruct H as (-> & -> & ->).
  cbn. apply IH.
Qed.

(** C3. On the description [see|wwww...] (48 letters), whose word after
    the soft hyphen is wider than the column, [FormatLine] called with
    the cursor at the soft hyphen (offset 3, before the end of the text)
    leaves the cursor at 3; and the loop of [ColumnFormat] over the rows,
    called as [GenerateDoc] calls it, has not ended after any number of
    rows. The forced break is taken only while [lastWordPosition] is 0,
    and the soft hyphen the line starts with has set it to 3. *)
Theorem overlong_word_after_soft_hyphen_never_ends :
  (3 < String.length long_description)%nat
  /\ cursor (FormatLine long_description 3 47 "|" 0 "") = 3%nat
  /\ forall rows : nat, doc_row rows = None.
Proof.
  split; [vm_compute; lia|]. split; [vm_compute; reflexivity|].
  intros rows. rewrite doc_row_unfold.
  destruct rows as [|rows]; [reflexivity|].
  cbn [format_rows].
  pose proof (doc_first_row "") as H. cbv zeta in H.
  destruct (format_row _ _ _ _ _ _ _ _ _) as [[[cs ats] b] t].
  cbn in H. destruct H as (-> & -> & ->).
  cbn. now rewrite doc_stuck_rows.
Qed.

(** ** Further properties *)

(** *** Facts about the example programs *)

Section Facts.
Context {FP : FloatingPoint}.

(** A setup phase of calls of [AddArg] and [RestrictOperands] that
    returns leaves a registry. *)
Lemma Registry_calls (calls : list (ArgumentAccumulator -> result ArgumentAccumulator)) :
  Forall (fun call => (exists arg, call = AddArg arg) \/ call = restrict_operands) calls ->
  forall a0 a : ArgumentAccumulator,
  Registry a0 -> setup calls a0 = Returned a -> Registry a.
Proof.
  induction 1 as [|call calls Hc _ IH]; intros a0 a H0 H.
  - cbn in H. now injection H as <-.
  - cbn [setup] in H. destruct (call a0) as [a1|e a1] eqn:E; [|discriminate].
    eapply IH; [|exact H]. destruct Hc as [[arg ->]| ->].
    + eapply Registry_AddArg; eassumption.
    + injection E as <-. now apply Registry_RestrictOperands.
Qed.

Lemma main_setup_returns (args : list string) :
  setup main_calls ArgumentAccumulator_empty = Returned (accu (main_parser args)).
Proof. vm_compute. reflexivity. Qed.

Lemma main_parser_Registry (args : list string) : Registry (accu (main_parser args)).
Proof.
  apply (Registry_calls main_calls) with (a0 := ArgumentAccumulator_empty);
    [|apply Registry_empty|apply main_setup_returns].
  unfold main_calls.
  repeat (apply Forall_cons; split;
    [first [left; eexists; reflexivity | right; reflexivity]|]).
  done.
Qed.


Lemma host_accepted :
  AddArg host_definition ArgumentAccumulator_empty
  = Returned (state_of (AddArg host_definition ArgumentAccumulator_empty)).
Proof. reflexivity. Qed.

Lemma clash_name_fresh (args : list string) :
  argsByName (accu (endpoint_parser args)) !! name clash_definition = None.
Proof. vm_compute. reflexivity. Qed.

Lemma host_letter_taken (args : list string) :
  argsByLetter (accu (endpoint_parser args)) !! letter clash_definition = Some host_definition.
Proof. vm_compute. reflexivity. Qed.

Lemma port_by_name (args : list string) :
  argsByName (accu (endpoint_parser args)) !! "port" = Some port_definition.
Proof. vm_compute. reflexivity. Qed.

Lemma endpoint_program_returns :
  returned (Parse 0 (with_argv (endpoint_parser []) [cstring "monet-explorer"])) = true.
Proof. vm_compute. reflexivity. Qed.

Lemma endpoint_restricted (args : list string) :
  restrictOperands (accu (endpoint_parser args)) = true.
Proof. vm_compute. reflexivity. Qed.

Lemma endpoint_no_operand_values (args : list string) :
  (length (operandValues (accu (endpoint_parser args)))
   <= length (operands (accu (endpoint_parser args))) + 1)%nat.
Proof. vm_compute. lia. Qed.

Lemma blank_entry : c_str (trimmed (cstring " ")) = "".
Proof. reflexivity. Qed.

Lemma operand_entries : Forall operand_entry [cstring "a"; cstring "-"].
Proof.
  repeat (apply Forall_cons; split; [|]); try done.
  - split; [vm_compute; discriminate|]. left. vm_compute. discriminate.
  - split; [vm_compute; discriminate|]. right. reflexivity.
Qed.

Lemma unknown_entry : c_str (trimmed (cstring "--nope")) = "--" +:+ "nope".
Proof. reflexivity. Qed.

Lemma nope_unknown (args : list string) :
  argsByName (accu (endpoint_parser args)) !! "nope" = None.
Proof. vm_compute. reflexivity. Qed.

Lemma main_option_letters (args : list string) :
  Forall (option_letter (accu (main_parser args))) ["x"; "t"]%char.
Proof.
  repeat (apply Forall_cons; split; [|]); try done.
  - split; [reflexivity|]. eexists. split; vm_compute; reflexivity.
  - split; [reflexivity|]. eexists. split; vm_compute; reflexivity.
Qed.

Lemma file_setup_returns (args : list string) :
  setup [AddArg file_definition] ArgumentAccumulator_empty = Returned (accu (file_parser args)).
Proof. vm_compute. reflexivity. Qed.

Lemma file_parser_Registry (args : list string) : Registry (accu (file_parser args)).
Proof.
  apply (Registry_setup [file_definition] ArgumentAccumulator_empty); [apply Registry_empty|].
  apply file_setup_returns.
Qed.

Lemma file_by_name (args : list string) :
  argsByName (accu (file_parser args)) !! name file_definition = Some file_definition.
Proof. vm_compute. reflexivity. Qed.

Lemma file_entry : c_str (trimmed (cstring "--file")) = "--" +:+ name file_definition.
Proof. reflexivity. Qed.

Lemma dash_value : c_str (trimmed (cstring "--help")) <> "".
Proof. vm_compute. discriminate. Qed.

Lemma wide_integer_stored :
  SetValue port_definition "4294967297" (0, ArgumentAccumulator_empty)
  = Returned (0, snd (state_of (SetValue port_definition "4294967297"
                                  (0, ArgumentAccumulator_empty)))).
Proof. vm_compute. reflexivity. Qed.

Lemma endpoint_program_name (args : list string) :
  match argv (endpoint_parser args) with
  | str :: _ => c_str (trimmed str) <> ""
  | [] => True
  end.
Proof. vm_compute. discriminate. Qed.

Lemma endpoint_unknown_thrown :
  Parse 0 (endpoint_parser ["--nope"])
  = Thrown (ThrowError (endpoint_parser ["--nope"]) "Invalid argument: --nope"
              "monet-explorer --nope" 14)
      (state_of (Parse 0 (endpoint_parser ["--nope"]))).
Proof. vm_compute. reflexivity. Qed.

Lemma endpoint_second_entry_fails :
  Parse_run 0 (endpoint_parser ["mydb"; "--nope"])
  = Failed "Invalid argument: --nope" "monet-explorer mydb --nope" 19
      (loop_state (Parse_run 0 (endpoint_parser ["mydb"; "--nope"])))
      (loop_argv (Parse_run 0 (endpoint_parser ["mydb"; "--nope"]))).
Proof. vm_compute. reflexivity. Qed.

Lemma main_nope_unknown (args : list string) :
  argsByName (accu (main_parser args)) !! "nope" = None.
Proof. vm_compute. reflexivity. Qed.

Lemma clash_has_letter : letter clash_definition <> NUL.
Proof. discriminate. Qed.

Lemma stale_errno : ERANGE <> 0.
Proof. discriminate. Qed.

Lemma program_entry_not_empty : [cstring "monet-explorer"; cstring "--host"] <> [].
Proof. discriminate. Qed.

Lemma two_letters : ["x"; "t"]%char <> [].
Proof. discriminate. Qed.

Lemma file_name_not_empty : name file_definition <> "".
Proof. discriminate. Qed.

End Facts.

(** *** The registry *)

Section Registry.
Context {FP : FloatingPoint}.

(** The accumulator after the part of [AddArg] that enters the
    definition under its name and among the operands. *)
Lemma AddArg_inv (arg : CommandLineArg) (a : ArgumentAccumulator) :
  match AddArg arg a with
  | Returned a' =>
      argsByName a !! name arg = None
      /\ (letter arg = NUL \/ argsByLetter a !! letter arg = None)
      /\ argsByName a' = <[name arg := arg]> (argsByName a)
      /\ argsByLetter a'
         = (if bool_decide (letter arg = NUL) then argsByLetter a
            else <[letter arg := arg]> (argsByLetter a))
      /\ operands a'
         = (operands a ++ match argClass arg with ArgumentClass.Operand => [arg] | _ => [] end)%list
      /\ restrictOperands a' = restrictOperands a
      /\ executableName a' = executableName a
      /\ optionNames a' = optionNames a
      /\ operandValues a' = operandValues a
  | Thrown e a' =>
      (argsByName a !! name arg <> None /\ a' = a
       /\ e = runtime_error ("Two different arguments have the same name: '" +:+ name arg +:+ "'."))
      \/ (argsByName a !! name arg = None /\ letter arg <> NUL
          /\ argsByLetter a !! letter arg <> None
          /\ argsByName a' = <[name arg := arg]> (argsByName a)
          /\ argsByLetter a' = argsByLetter a
          /\ e = runtime_error ("Two different arguments have the same one-letter name: '"
                                  +:+ String (letter arg) "" +:+ "'."))
  end.
Proof.
  assert (argsByName a !! name arg = None ->
          map_insert (name arg) arg (argsByName a) = <[name arg := arg]> (argsByName a)) as Hm
    by (intros E; unfold map_insert; now rewrite E).
  unfold AddArg. destruct (argsByName a !! name arg) eqn:Hn.
  - left. repeat split. done.
  - specialize (Hm eq_refl). cbv zeta. rewrite Hm.
    destruct (bool_decide (letter arg = NUL)) eqn:Hl.
    + apply bool_decide_eq_true in Hl.
      destruct (argClass arg), (optional arg), (argType arg); cbn;
        repeat split; auto; now rewrite ?app_nil_r.
    + apply bool_decide_eq_false in Hl.
      destruct (argClass arg); cbn;
        (destruct (argsByLetter a !! letter arg) eqn:Hlt;
         [right; cbn; repeat split; auto; try congruence; try (now rewrite Hlt)
         |unfold map_insert; cbn; rewrite Hlt;
          destruct (optional arg), (argType arg); cbn;
          repeat split; auto; now rewrite ?app_nil_r]).
Qed.


(** X1. [AddArg] returns exactly when the name is not yet registered and
    the letter is 0 or not yet registered. *)
Theorem AddArg_returns_iff_fresh (arg : CommandLineArg) (a : ArgumentAccumulator) :
  returned (AddArg arg a) = true
  <-> argsByName a !! name arg = None
      /\ (letter arg = NUL \/ argsByLetter a !! letter arg = None).
Proof.
  pose proof (AddArg_inv arg a) as H. destruct (AddArg arg a) as [a'|e a']; cbn [returned].
  - destruct H as (H1 & H2 & _). tauto.
  - split; [discriminate|]. intros [Hn Hl].
    destruct H as [(H & _)|(_ & H1 & H2 & _)]; [done|]. destruct Hl; done.
Qed.

(** X2. A definition [AddArg] has accepted is found under its name and,
    when it has a letter, under its letter; the other names and letters
    are as before, and an Operand is the last of the operands. *)
Theorem AddArg_registers (arg : CommandLineArg) (a a' : ArgumentAccumulator) :
  AddArg arg a = Returned a' ->
  argsByName a' !! name arg = Some arg
  /\ (letter arg <> NUL -> argsByLetter a' !! letter arg = Some arg)
  /\ (forall n, n <> name arg -> argsByName a' !! n = argsByName a !! n)
  /\ (forall l, l <> letter arg \/ l = NUL -> argsByLetter a' !! l = argsByLetter a !! l)
  /\ operands a'
     = (operands a ++ match argClass arg with ArgumentClass.Operand => [arg] | _ => [] end)%list.
Proof.
  intros E. pose proof (AddArg_inv arg a) as H. rewrite E in H.
  destruct H as (Hn & Hl & -> & -> & -> & _).
  split; [apply lookup_insert_eq|]. split.
  - intros Hne. rewrite bool_decide_false by done. apply lookup_insert_eq.
  - split; [intros n Hne; now apply lookup_insert_ne|]. split; [|done].
    intros l Hne. case_bool_decide as Hz; [done|].
    apply lookup_insert_ne. destruct Hne; congruence.
Qed.

(** X3. When the letter is taken, [AddArg] throws after it has entered
    the definition under its name: the definition stays registered by
    name, not by letter, and no default is stored for it. *)
Theorem AddArg_letter_clash (arg other : CommandLineArg) (a : ArgumentAccumulator) :
  argsByName a !! name arg = None ->
  letter arg <> NUL ->
  argsByLetter a !! letter arg = Some other ->
  exists a' : ArgumentAccumulator,
    AddArg arg a
    = Thrown (runtime_error ("Two different arguments have the same one-letter name: '"
                               +:+ String (letter arg) "" +:+ "'.")) a'
    /\ argsByName a' !! name arg = Some arg
    /\ argsByLetter a' = argsByLetter a
    /\ stringValues a' = stringValues a /\ intValues a' = intValues a
    /\ doubleValues a' = doubleValues a
    /\ returned (AddArg arg a') = false.
Proof.
  intros Hn Hz Hl.
  assert (map_insert (name arg) arg (argsByName a) = <[name arg := arg]> (argsByName a)) as Hm
    by (unfold map_insert; now rewrite Hn).
  unfold AddArg at 1. rewrite Hn. cbv zeta. rewrite Hm, bool_decide_false by done.
  destruct (argClass arg); cbn; rewrite Hl; eexists; (split; [reflexivity|]); cbn;
    rewrite lookup_insert_eq; repeat split; unfold AddArg; cbn; now rewrite lookup_insert_eq.
Qed.

(** The two maps of a registry agree. *)
Lemma Registry_maps (a : ArgumentAccumulator) :
  Registry a ->
  (forall n arg, argsByName a !! n = Some arg -> name arg = n)
  /\ (forall l arg, argsByLetter a !! l = Some arg ->
        letter arg = l /\ l <> NUL /\ argsByName a !! name arg = Some arg)
  /\ (forall arg, arg ∈ operands a ->
        argsByName a !! name arg = Some arg /\ argClass arg = ArgumentClass.Operand)
  /\ (forall n arg, argsByName a !! n = Some arg -> argClass arg = ArgumentClass.Operand ->
        arg ∈ operands a)
  /\ optionNames a = ∅ /\ operandValues a = [] /\ executableName a = "".
Proof.
  induction 1 as [|a a' arg0 _ IH Hadd|a _ IH].
  - split_and!; try done; intros *; cbn; try rewrite lookup_empty; try done.
    intros []%elem_of_nil.
  - destruct IH as (IH1 & IH2 & IH3 & IH4 & IH5 & IH6 & IH7).
    pose proof (AddArg_inv arg0 a) as H. rewrite Hadd in H.
    destruct H as (Hn & Hl & En & El & Eo & _ & Ee & Eon & Eov).
    assert (forall n arg', argsByName a !! n = Some arg' ->
              <[name arg0 := arg0]> (argsByName a) !! n = Some arg') as Hkeep.
    { intros n arg' Hk. rewrite lookup_insert.
      destruct (decide (name arg0 = n)); [congruence|done]. }
    rewrite En, El, Eo, Ee, Eon, Eov. split_and!; try done.
    + intros n arg Hlk. rewrite lookup_insert in Hlk.
      destruct (decide (name arg0 = n)); [congruence|eauto].
    + intros l arg Hlk.
      destruct (bool_decide (letter arg0 = NUL)) eqn:Hz.
      * apply IH2 in Hlk as (? & ? & ?). auto.
      * apply bool_decide_eq_false in Hz. rewrite lookup_insert in Hlk.
        destruct (decide (letter arg0 = l)).
        -- injection Hlk as <-. split_and!; [done|congruence|apply lookup_insert_eq].
        -- apply IH2 in Hlk as (? & ? & ?). auto.
    + intros arg H. apply elem_of_app in H as [H|H].
      * apply IH3 in H as [H Hc]. auto.
      * destruct (argClass arg0) eqn:Hc; try (now apply elem_of_nil in H).
        apply list_elem_of_singleton in H as ->. split; [apply lookup_insert_eq|done].
    + intros n arg Hlk Hc. rewrite lookup_insert in Hlk. apply elem_of_app.
      destruct (decide (name arg0 = n)).
      * injection Hlk as <-. right. rewrite Hc. now apply list_elem_of_singleton.
      * left. eauto.
  - exact IH.
Qed.

(** X4. After a setup phase the two maps of definitions agree: a
    definition found under a letter has that letter, which is not 0, and
    is the definition found under its name; a definition found under a
    name has that name; the declared operands are the definitions of
    class Operand. Nothing is activated or collected yet. *)
Theorem Registry_consistent (a : ArgumentAccumulator) :
  Registry a ->
  (forall n arg, argsByName a !! n = Some arg -> name arg = n)
  /\ (forall l arg, argsByLetter a !! l = Some arg ->
        letter arg = l /\ l <> NUL /\ argsByName a !! name arg = Some arg)
  /\ (forall arg, arg ∈ operands a <->
        argsByName a !! name arg = Some arg /\ argClass arg = ArgumentClass.Operand)
  /\ optionNames a = ∅ /\ operandValues a = [] /\ executableName a = "".
Proof.
  intros H. destruct (Registry_maps a H) as (H1 & H2 & H3 & H4 & H5 & H6 & H7).
  split_and!; try done. intros arg. split; [apply H3|]. intros [Hn Hc]. eauto.
Qed.

(** X5. What a setup phase leaves in the maps of values: under the name
    of every optional definition its default, in the map of its type;
    nothing under the name of a mandatory definition, of an Option or of
    an Operand, and nothing under a name that is not registered. *)
Theorem Registry_defaults (a : ArgumentAccumulator) :
  Registry a ->
  (forall n arg, argsByName a !! n = Some arg ->
     (optional arg = true -> holds_default a arg)
     /\ (optional arg = false -> no_entry a n))
  /\ (forall n, argsByName a !! n = None -> no_entry a n).
Proof.
  intros H. destruct (Registry_values a H) as [H1 H2]. split; [|exact H2].
  intros n arg Hn. now destruct (H1 n arg Hn) as (_ & ? & ?).
Qed.

End Registry.

Lemma AddArg_registers_witness :
  argsByName (state_of (AddArg host_definition ArgumentAccumulator_empty)) !! name host_definition
  = Some host_definition.
Proof.
  exact (proj1 (AddArg_registers host_definition ArgumentAccumulator_empty _ host_accepted)).
Defined.

Lemma AddArg_letter_clash_witness :
  exists a' : ArgumentAccumulator,
    returned (AddArg clash_definition (accu (endpoint_parser []))) = false
    /\ argsByName a' !! name clash_definition = Some clash_definition
    /\ argsByLetter a' = argsByLetter (accu (endpoint_parser [])).
Proof.
  destruct (AddArg_letter_clash clash_definition host_definition (accu (endpoint_parser []))
              (clash_name_fresh []) clash_has_letter (host_letter_taken []))
    as (a' & H1 & H2 & H3 & _).
  exists a'. split; [|split; assumption].
  exact (eq_trans (f_equal returned H1) eq_refl).
Defined.

Lemma Registry_consistent_witness :
  optionNames (accu (main_parser [])) = ∅ /\ operandValues (accu (main_parser [])) = []
  /\ executableName (accu (main_parser [])) = "".
Proof.
  exact (proj2 (proj2 (proj2 (Registry_consistent (accu (main_parser []))
                                (main_parser_Registry []))))).
Defined.

Lemma Registry_defaults_witness :
  no_entry (accu (main_parser [])) "nope".
Proof.
  refine (proj2 (Registry_defaults (accu (main_parser [])) (main_parser_Registry [])) "nope" _).
  exact (main_nope_unknown []).
Defined.

(** *** What Parse keeps *)

Section Invariants.
Context {FP : FloatingPoint}.

(** A property of the accumulator that the four writers of [Parse] keep
    holds when the loop ends. *)
Section Kept.
Variable P : ArgumentAccumulator -> Prop.
Hypothesis P_SetValue : forall arg value e a,
  P a -> P (snd (state_of (SetValue arg value (e, a)))).
Hypothesis P_AddOperand : forall value a, P a -> P (state_of (AddOperand value a)).
Hypothesis P_optionNames : forall X a, P a -> P (set_optionNames X a).

Lemma cluster_kept (arg : string) (position : Z) (n : nat) :
  forall (i : nat) (found : bool) (s : ParseState),
  P (st_accu s) -> P (st_accu (token_state (cluster arg position n i found s))).
Proof.
  induction n as [|n IH]; intros i found s H; [exact H|].
  cbn [cluster]. repeat case_match; try exact H; apply IH; cbn; auto.
Qed.

Lemma token_kept (arg : string) (length position : Z) (s : ParseState) :
  P (st_accu s) -> P (st_accu (token_state (token arg length position s))).
Proof.
  intros H. unfold token, operand_token.
  repeat case_match; try exact H; try (now apply cluster_kept); cbn; auto.
  all: try (match goal with E : SetValue ?x ?v (?e, ?a) = _ |- _ =>
              pose proof (P_SetValue x v e a H) as Hd; rewrite E in Hd; exact Hd end).
  all: try (match goal with E : AddOperand ?v ?a = _ |- _ =>
              pose proof (P_AddOperand v a H) as Hd; rewrite E in Hd; exact Hd end).
Qed.

(** The loop from a token after the program name on. *)
Lemma Parse_loop_kept (todo : list CString) :
  forall (i : nat) (dn : list CString) (line : string) (s : ParseState),
  P (st_accu s) -> P (st_accu (loop_state (Parse_loop (S i) dn todo line s))).
Proof.
  induction todo as [|str todo IH]; intros i dn line s H; [exact H|].
  cbn [Parse_loop]. destruct (Trim str) as [str' n].
  pose proof (token_kept (c_str str') n (Z.of_nat (String.length line)) s H) as Ht.
  destruct (token _ _ _ _) as [s'|what position s']; cbn [token_state] in Ht.
  - now apply IH.
  - destruct (trim_rest todo _). exact Ht.
Qed.

(** The whole loop, when the property does not depend on the name of
    the executable. *)
Lemma Parse_kept (errno0 : Z) (p : Parser) :
  (forall x a, P a -> P (set_executableName x a)) ->
  P (accu p) -> P (accu_of (Parse errno0 p)).
Proof.
  intros Hx H. destruct (Parse_accu errno0 p) as (-> & _). unfold Parse_run.
  destruct (argv p) as [|program rest]; [exact H|].
  cbn [Parse_loop]. destruct (Trim program) as [str' n].
  apply Parse_loop_kept. cbn [st_accu]. auto.
Qed.

End Kept.

(** What [SetValue] and [AddOperand] leave alone. *)
Lemma SetValue_others (arg : CommandLineArg) (value : string) (e : Z)
  (a : ArgumentAccumulator) :
  let a' := snd (state_of (SetValue arg value (e, a))) in
  executableName a' = executableName a /\ optionNames a' = optionNames a
  /\ operandValues a' = operandValues a.
Proof. unfold SetValue. destruct (argType arg); repeat case_match; repeat split. Qed.

Lemma AddOperand_others (value : string) (a : ArgumentAccumulator) :
  let a' := state_of (AddOperand value a) in
  executableName a' = executableName a /\ optionNames a' = optionNames a
  /\ stringValues a' = stringValues a /\ intValues a' = intValues a
  /\ doubleValues a' = doubleValues a.
Proof. unfold AddOperand. case_match; repeat split. Qed.

(** X6. [Parse] leaves the definitions as the setup phase wrote them,
    whether it returns or throws: the two maps of definitions, the
    declared operands and the restriction of their number. *)
Theorem Parse_leaves_definitions (errno0 : Z) (p : Parser) :
  argsByName (accu_of (Parse errno0 p)) = argsByName (accu p)
  /\ argsByLetter (accu_of (Parse errno0 p)) = argsByLetter (accu p)
  /\ operands (accu_of (Parse errno0 p)) = operands (accu p)
  /\ restrictOperands (accu_of (Parse errno0 p)) = restrictOperands (accu p).
Proof. exact (Parse_definitions errno0 p). Qed.


(** X7. After a setup phase, whatever the argument vector holds, every
    optional definition has its default as its value when [Parse] has
    returned or thrown: a value given on the command line never takes
    the place of the default. *)
Theorem Parse_keeps_defaults (errno0 : Z) (p : Parser) (n : string)
  (arg : CommandLineArg) :
  Registry (accu p) ->
  argsByName (accu p) !! n = Some arg ->
  optional arg = true ->
  holds_default (accu_of (Parse errno0 p)) arg.
Proof.
  intros HR Hn Ho. destruct (Registry_values _ HR) as [H _].
  destruct (H n arg Hn) as (_ & Hd & _). specialize (Hd Ho).
  destruct (Parse_accu errno0 p) as (-> & _).
  destruct (Parse_loop_keeps_values (argv p) 0 [] ""
              (mkParseState errno0 (accu p) false CommandLineArg_empty)) as (Hs & Hi & Hdb).
  unfold holds_default in *. cbn [st_accu] in *. unfold Parse_run.
  destruct (argType arg); auto.
Qed.

(** X8. A value stored while a prefix of the argument vector is read is
    the value when all of it has been read: of two values given for one
    name, the first stays. *)
Theorem Parse_first_value_stays (errno0 : Z) (p : Parser) (pre rest : list CString) :
  returned (Parse errno0 (with_argv p pre)) = true ->
  keeps_values (accu_of (Parse errno0 (with_argv p pre)))
    (accu_of (Parse errno0 (with_argv p (pre ++ rest)))).
Proof.
  intros Hr. destruct (Parse_accu errno0 (with_argv p pre)) as (-> & Hf & _).
  destruct (Parse_accu errno0 (with_argv p (pre ++ rest))) as (-> & _).
  rewrite Hf in Hr. unfold Parse_run in *. cbn [argv with_argv accu] in *.
  destruct (Parse_loop 0 [] pre "" _) as [s1 argv1|] eqn:E; [|discriminate].
  destruct (Parse_loop_app pre rest _ _ _ _ _ _ E) as [line1 ->].
  cbn [loop_state]. apply Parse_loop_keeps_values.
Qed.

(** X9. [Parse] sets the name of the executable to the first entry of
    the argument vector as [Trim] leaves it, whatever follows; on an
    empty vector it returns and leaves the accumulator as it was. *)
Theorem Parse_executableName (errno0 : Z) (p : Parser) :
  match argv p with
  | program :: _ => executableName (accu_of (Parse errno0 p)) = c_str (trimmed program)
  | [] => Parse errno0 p = Returned (errno0, mkParser [] (accu p) (screenWidth p))
  end.
Proof.
  destruct (argv p) as [|program rest] eqn:E.
  - unfold Parse, Parse_run. now rewrite E.
  - destruct (Parse_accu errno0 p) as (-> & _). unfold Parse_run. rewrite E.
    rewrite Parse_loop_program.
    apply (Parse_loop_kept (fun a => executableName a = c_str (trimmed program))).
    + intros arg value e a H. now destruct (SetValue_others arg value e a) as (-> & _).
    + intros value a H. now destruct (AddOperand_others value a) as (-> & _).
    + auto.
    + reflexivity.
Qed.

(** X10. With the number of operands restricted, [Parse] never collects
    more than one operand beyond the declared ones. *)
Theorem Parse_operand_bound (errno0 : Z) (p : Parser) :
  restrictOperands (accu p) = true ->
  (length (operandValues (accu p)) <= length (operands (accu p)) + 1)%nat ->
  (length (operandValues (accu_of (Parse errno0 p))) <= length (operands (accu p)) + 1)%nat.
Proof.
  intros Hr Hb.
  apply (Parse_kept
    (fun a => restrictOperands a = true /\ operands a = operands (accu p)
              /\ (length (operandValues a) <= length (operands (accu p)) + 1)%nat)).
  - intros arg value e a (H1 & H2 & H3).
    destruct (SetValue_others arg value e a) as (_ & _ & Ev).
    destruct (SetValue_definitions arg value e a) as (_ & _ & Eo & Er).
    cbv zeta in Ev. now rewrite Ev, Eo, Er.
  - intros value a (H1 & H2 & H3). unfold AddOperand. rewrite H1, H2, andb_true_r.
    destruct (Nat.ltb_spec (length (operands (accu p))) (length (operandValues a)));
      cbn; [done|]. rewrite length_app. cbn. split_and!; [done..|lia].
  - intros X a H. exact H.
  - intros x a H. exact H.
  - done.
Qed.

End Invariants.

Lemma Parse_keeps_defaults_witness :
  holds_default (accu_of (Parse 0 (endpoint_parser ["-p"; "5432"]))) port_definition.
Proof.
  exact (Parse_keeps_defaults 0 (endpoint_parser ["-p"; "5432"]) "port" port_definition
           (endpoint_parser_Registry ["-p"; "5432"]) (port_by_name ["-p"; "5432"]) eq_refl).
Defined.

Lemma Parse_first_value_stays_witness :
  keeps_values (accu_of (Parse 0 (with_argv (endpoint_parser []) [cstring "monet-explorer"])))
    (accu_of (Parse 0 (with_argv (endpoint_parser [])
                         ([cstring "monet-explorer"] ++ [cstring "-p"; cstring "5432"])))).
Proof.
  exact (Parse_first_value_stays 0 (endpoint_parser []) [cstring "monet-explorer"]
           [cstring "-p"; cstring "5432"] endpoint_program_returns).
Defined.

Lemma Parse_operand_bound_witness :
  (length (operandValues (accu_of (Parse 0 (endpoint_parser ["a"; "b"; "c"]))))
   <= length (operands (accu (endpoint_parser ["a"; "b"; "c"]))) + 1)%nat.
Proof.
  exact (Parse_operand_bound 0 (endpoint_parser ["a"; "b"; "c"]) (endpoint_restricted ["a"; "b"; "c"])
           (endpoint_no_operand_values ["a"; "b"; "c"])).
Defined.

(** *** Entries of the argument vector *)

Section Tokens.
Context {FP : FloatingPoint}.

(** After the program name, the state in which the loop ends depends on
    the entries and on the state, not on the index, the entries already
    read or the line. *)
Lemma Parse_loop_index (todo : list CString) :
  forall (i j : nat) (dn dn' : list CString) (line line' : string) (s : ParseState),
  loop_state (Parse_loop (S i) dn todo line s) = loop_state (Parse_loop (S j) dn' todo line' s)
  /\ finished (Parse_loop (S i) dn todo line s) = finished (Parse_loop (S j) dn' todo line' s).
Proof.
  induction todo as [|str todo IH]; intros i j dn dn' line line' s; [done|].
  cbn [Parse_loop]. destruct (Trim str) as [str' n].
  pose proof (token_position (c_str str') n (Z.of_nat (String.length line))
                (Z.of_nat (String.length line')) s) as [Hs Hc].
  destruct (token _ _ (Z.of_nat (String.length line)) _) as [s1|w1 p1 s1];
    destruct (token _ _ (Z.of_nat (String.length line')) _) as [s2|w2 p2 s2];
    cbn in Hs, Hc; try done; subst s2.
  - apply IH.
  - destruct (trim_rest todo (append_token line (c_str str'))).
    destruct (trim_rest todo (append_token line' (c_str str'))). done.
Qed.

(** An entry that [Trim] leaves empty is passed over. *)
Lemma Parse_loop_skip (pre : list CString) (blank : CString) (post : list CString) :
  snd (Trim blank) = 0 ->
  forall (i : nat) (dn dn' : list CString) (line line' : string) (s : ParseState),
  i <> 0%nat \/ pre <> [] ->
  loop_state (Parse_loop i dn (pre ++ blank :: post) line s)
  = loop_state (Parse_loop i dn' (pre ++ post) line' s)
  /\ finished (Parse_loop i dn (pre ++ blank :: post) line s)
     = finished (Parse_loop i dn' (pre ++ post) line' s).
Proof.
  intros Hb. induction pre as [|str pre IH]; intros i dn dn' line line' s Hi.
  - destruct i as [|i]; [destruct Hi; done|]. cbn [app].
    rewrite (Parse_loop_completed i dn post blank line s s)
      by (rewrite Hb; reflexivity).
    apply (Parse_loop_index post).
  - cbn [app Parse_loop]. destruct (Trim str) as [str' n].
    destruct i as [|i]; [apply IH; now left|].
    pose proof (token_position (c_str str') n (Z.of_nat (String.length line))
                  (Z.of_nat (String.length line')) s) as [Hs Hc].
    destruct (token _ _ (Z.of_nat (String.length line)) _) as [s1|w1 p1 s1];
      destruct (token _ _ (Z.of_nat (String.length line')) _) as [s2|w2 p2 s2];
      cbn in Hs, Hc; try done; subst s2.
    + apply IH. now left.
    + destruct (trim_rest (pre ++ blank :: post) _).
      destruct (trim_rest (pre ++ post) _). done.
Qed.

(** X11. An entry of the argument vector that [Trim] leaves empty (an
    empty string, or bytes that are spaces or not printable) can be put
    anywhere after the program name without changing what [Parse] stores
    or whether it returns; also where a value is awaited, so that no
    Argument can be given the empty string. *)
Theorem Parse_ignores_empty_entries (errno0 : Z) (p : Parser) (pre post : list CString)
  (blank : CString) :
  pre <> [] ->
  c_str (trimmed blank) = "" ->
  let o := Parse errno0 (with_argv p (pre ++ blank :: post)) in
  let o' := Parse errno0 (with_argv p (pre ++ post)) in
  accu_of o = accu_of o' /\ returned o = returned o' /\ fst (state_of o) = fst (state_of o').
Proof.
  intros Hpre Hb o o'. subst o o'.
  destruct (Parse_accu errno0 (with_argv p (pre ++ blank :: post))) as (-> & -> & ->).
  destruct (Parse_accu errno0 (with_argv p (pre ++ post))) as (-> & -> & ->).
  unfold Parse_run. cbn [argv with_argv accu].
  assert (snd (Trim blank) = 0) as Hz by now rewrite Trim_length, Hb.
  destruct (Parse_loop_skip pre blank post Hz 0 [] [] "" ""
              (mkParseState errno0 (accu p) false CommandLineArg_empty)) as [-> ->];
    [now right|done].
Qed.


(** The [try] block on a positional token. *)
Lemma token_operand (arg : string) (position : Z) (s : ParseState) :
  arg <> "" ->
  char_at arg 0 <> "-"%char \/ arg = "-" ->
  expectArgValue s = false ->
  restrictOperands (st_accu s) = false ->
  token arg (Z.of_nat (String.length arg)) position s
  = Completed (mkParseState (errno s)
                 (set_operandValues (operandValues (st_accu s) ++ [arg]) (st_accu s))
                 false (lastArg s)).
Proof.
  intros Hne Hd He Hr. unfold token, operand_token, AddOperand. rewrite He, Hr, andb_false_r.
  destruct (Z.eqb_spec (Z.of_nat (String.length arg)) 0) as [E|_];
    [destruct arg; [done|cbn in E; lia]|].
  destruct Hd as [Hd| ->].
  - now rewrite bool_decide_false by done.
  - reflexivity.
Qed.

Lemma Parse_loop_operands (args : list CString) :
  forall (i : nat) (dn : list CString) (line : string) (s : ParseState),
  expectArgValue s = false ->
  restrictOperands (st_accu s) = false ->
  Forall operand_entry args ->
  exists s' : ParseState,
    Parse_loop (S i) dn args line s = Finished s' (dn ++ map trimmed args)
    /\ operandValues (st_accu s')
       = (operandValues (st_accu s) ++ map (fun str => c_str (trimmed str)) args)%list
    /\ expectArgValue s' = false /\ errno s' = errno s
    /\ restrictOperands (st_accu s') = false
    /\ executableName (st_accu s') = executableName (st_accu s)
    /\ optionNames (st_accu s') = optionNames (st_accu s)
    /\ stringValues (st_accu s') = stringValues (st_accu s)
    /\ intValues (st_accu s') = intValues (st_accu s)
    /\ doubleValues (st_accu s') = doubleValues (st_accu s).
Proof.
  induction args as [|str args IH]; intros i dn line s He Hr Hall.
  - exists s. cbn. rewrite !app_nil_r. done.
  - apply Forall_cons in Hall as [[Hne Hd] Hall].
    pose proof (token_operand (c_str (trimmed str)) (Z.of_nat (String.length line)) s
                  Hne Hd He Hr) as Ht.
    rewrite <- Trim_length in Ht.
    rewrite (Parse_loop_completed i dn args str line s _ Ht).
    edestruct (IH (S i) (dn ++ [trimmed str])%list (append_token line (c_str (trimmed str))))
      as (s' & -> & Hv & Hrest); [..|exact Hall|]; [done..|].
    exists s'. cbn [map]. rewrite <- app_assoc. split; [done|].
    cbn [st_accu set_operandValues operandValues errno] in *.
    rewrite Hv, <- app_assoc. done.
Qed.

(** X12. Without [RestrictOperands], entries that are not empty after
    [Trim] and do not start with a dash, or are the single dash, are
    collected as operands in their order, as [Trim] leaves them; nothing
    else is stored. *)
Theorem Parse_collects_operands (errno0 : Z) (p : Parser) (program : CString)
  (args : list CString) :
  restrictOperands (accu p) = false ->
  Forall operand_entry args ->
  let o := Parse errno0 (with_argv p (program :: args)) in
  returned o = true
  /\ operandValues (accu_of o)
     = (operandValues (accu p) ++ map (fun str => c_str (trimmed str)) args)%list
  /\ optionNames (accu_of o) = optionNames (accu p)
  /\ stringValues (accu_of o) = stringValues (accu p)
  /\ intValues (accu_of o) = intValues (accu p)
  /\ doubleValues (accu_of o) = doubleValues (accu p).
Proof.
  intros Hr Hall o. subst o.
  destruct (Parse_accu errno0 (with_argv p (program :: args))) as (-> & -> & _).
  unfold Parse_run. cbn [argv with_argv accu]. rewrite Parse_loop_program.
  edestruct (Parse_loop_operands args 0) as (s' & -> & Hv & _ & _ & _ & _ & Ho & Hs & Hi & Hd);
    [..|exact Hall|]; [done..|].
  cbn [loop_state finished]. rewrite Hv, Ho, Hs, Hi, Hd. done.
Qed.

(** One iteration of the loop on a token whose [try] block throws. *)
Lemma Parse_loop_caught (i : nat) (dn todo : list CString) (str : CString)
  (line what : string) (position : Z) (s s' : ParseState) :
  token (c_str (trimmed str)) (snd (Trim str)) (Z.of_nat (String.length line)) s
    = Caught what position s' ->
  Parse_loop (S i) dn (str :: todo) line s
  = Failed what (snd (trim_rest todo (append_token line (c_str (trimmed str))))) position s'
      (dn ++ [trimmed str] ++ map trimmed todo).
Proof.
  cbn [Parse_loop]. unfold trimmed at 1 2 3. destruct (Trim str) as [str' n]. cbn [fst snd].
  intros ->. pose proof (trim_rest_fst todo (append_token line (c_str str'))) as H.
  destruct (trim_rest todo _) as [rest line']. cbn [fst snd] in *. now subst rest.
Qed.

(** The [try] block on a long name without definition. *)
Lemma token_unknown_name (n : string) (position : Z) (s : ParseState) :
  n <> "" ->
  expectArgValue s = false ->
  argsByName (st_accu s) !! n = None ->
  token ("--" +:+ n) (Z.of_nat (String.length ("--" +:+ n))) position s
  = Caught ("Invalid argument: --" +:+ n) position s.
Proof.
  intros Hne He Hn. change ("--" +:+ n) with (String "-" (String "-" n)).
  unfold token. rewrite He. cbn [String.length].
  assert (0 < Z.of_nat (String.length n)) by (destruct n; [done|cbn; lia]).
  destruct (Z.eqb_spec (Z.of_nat (S (S (String.length n)))) 0); [lia|].
  change (char_at (String "-" (String "-" n)) 0) with "-"%char.
  change (char_at (String "-" (String "-" n)) 1) with "-"%char.
  rewrite !bool_decide_true by done.
  destruct (Z.ltb_spec 1 (Z.of_nat (S (S (String.length n))))); [|lia].
  destruct (Z.ltb_spec 2 (Z.of_nat (S (S (String.length n))))); [|lia].
  cbn [drop_string]. now rewrite Hn.
Qed.

(** X13. A long name that is not registered: [Parse] throws on the entry,
    with the position at the end of the program name; nothing has been
    stored, and the entries after it have been trimmed, not read. *)
Theorem Parse_unknown_name (errno0 : Z) (p : Parser) (program tok : CString)
  (rest : list CString) (n : string) :
  c_str (trimmed tok) = "--" +:+ n ->
  n <> "" ->
  argsByName (accu p) !! n = None ->
  exists line : string,
    Parse errno0 (with_argv p (program :: tok :: rest))
    = Thrown
        (ThrowError p ("Invalid argument: --" +:+ n) line
           (Z.of_nat (String.length (c_str (trimmed program)))))
        (errno0,
         mkParser (map trimmed (program :: tok :: rest))
           (set_executableName (c_str (trimmed program)) (accu p)) (screenWidth p)).
Proof.
  intros Ht Hne Hn.
  assert (token (c_str (trimmed tok)) (snd (Trim tok))
            (Z.of_nat (String.length (append_token "" (c_str (trimmed program)))))
            (mkParseState errno0 (set_executableName (c_str (trimmed program)) (accu p))
               false CommandLineArg_empty)
          = Caught ("Invalid argument: --" +:+ n)
              (Z.of_nat (String.length (c_str (trimmed program))))
              (mkParseState errno0 (set_executableName (c_str (trimmed program)) (accu p))
                 false CommandLineArg_empty)) as Htok.
  { rewrite Trim_length, Ht.
    replace (append_token "" (c_str (trimmed program))) with (c_str (trimmed program))
      by (unfold append_token; now destruct (c_str (trimmed program))).
    now apply token_unknown_name. }
  exists (snd (trim_rest rest
            (append_token (append_token "" (c_str (trimmed program))) (c_str (trimmed tok))))).
  unfold Parse, Parse_run. cbn [argv with_argv accu screenWidth].
  rewrite Parse_loop_program. cbn [errno st_accu expectArgValue lastArg].
  rewrite (Parse_loop_caught _ _ _ _ _ _ _ _ _ Htok). reflexivity.
Qed.

End Tokens.

Lemma Parse_ignores_empty_entries_witness :
  accu_of (Parse 0 (with_argv (endpoint_parser [])
                      ([cstring "monet-explorer"; cstring "--host"]
                         ++ cstring " " :: [cstring "10.0.0.1"])))
  = accu_of (Parse 0 (with_argv (endpoint_parser [])
                        ([cstring "monet-explorer"; cstring "--host"] ++ [cstring "10.0.0.1"]))).
Proof.
  exact (proj1 (Parse_ignores_empty_entries 0 (endpoint_parser [])
                  [cstring "monet-explorer"; cstring "--host"] [cstring "10.0.0.1"]
                  (cstring " ") program_entry_not_empty blank_entry)).
Defined.

Lemma Parse_collects_operands_witness :
  operandValues (accu_of (Parse 0 (with_argv (Parser_new [])
                                     (cstring "list" :: [cstring "a"; cstring "-"]))))
  = (operandValues (accu (Parser_new []))
       ++ map (fun str => c_str (trimmed str)) [cstring "a"; cstring "-"])%list.
Proof.
  exact (proj1 (proj2 (Parse_collects_operands 0 (Parser_new []) (cstring "list")
                         [cstring "a"; cstring "-"] eq_refl operand_entries))).
Defined.

Lemma Parse_unknown_name_witness :
  exists line : string,
    Parse 0 (with_argv (endpoint_parser [])
               (cstring "monet-explorer" :: cstring "--nope" :: [cstring "mydb"]))
    = Thrown
        (ThrowError (endpoint_parser []) ("Invalid argument: --" +:+ "nope") line
           (Z.of_nat (String.length (c_str (trimmed (cstring "monet-explorer"))))))
        (0,
         mkParser (map trimmed (cstring "monet-explorer" :: cstring "--nope" :: [cstring "mydb"]))
           (set_executableName (c_str (trimmed (cstring "monet-explorer")))
              (accu (endpoint_parser []))) (screenWidth (endpoint_parser []))).
Proof.
  exact (Parse_unknown_name 0 (endpoint_parser []) (cstring "monet-explorer")
           (cstring "--nope") [cstring "mydb"] "nope" unknown_entry
           ltac:(discriminate) (nope_unknown [])).
Defined.

Section Cluster.
Context {FP : FloatingPoint}.

(** [Trim] on a fresh entry whose string has no terminator inside,
    starts with a printable character other than the space and ends
    with a printable character. *)
Lemma Trim_plain (s : string) :
  no_NUL s = true -> s <> "" ->
  isprint (char_at s 0) = true -> char_at s 0 <> " "%char -> isprint (last_char s) = true ->
  Trim (cstring s) = (cstring s, Z.of_nat (String.length s)) /\ c_str (cstring s) = s.
Proof.
  intros Hn Hne Hp Hs Hl.
  assert (c_str (cstring s) = s) as Hc
    by (unfold c_str, cstring; cbn [mem ptr drop_string]; now apply until_NUL_no_NUL).
  split; [|exact Hc]. rewrite Trim_needs_no_trim; [now rewrite Hc|].
  unfold needs_no_trim. rewrite Hc, Hp, Hl, (bool_decide_false (char_at s 0 = " "%char)) by done.
  now rewrite orb_true_r.
Qed.

Lemma letters_no_NUL (ls : list ascii) :
  Forall (fun l => letter_ok l = true) ls -> no_NUL (string_of_list_ascii ls) = true.
Proof.
  induction 1 as [|l ls Hl _ IH]; [reflexivity|]. cbn [string_of_list_ascii no_NUL].
  apply letter_ok_inv in Hl as (_ & _ & Hz). now rewrite bool_decide_false, IH by done.
Qed.

Lemma letters_last (ls : list ascii) (c : ascii) :
  Forall (fun l => letter_ok l = true) ls -> isprint c = true ->
  isprint (last_char (String c (string_of_list_ascii ls))) = true.
Proof.
  intros H. revert c. induction H as [|l ls Hl _ IH]; intros c Hc; [exact Hc|].
  cbn [string_of_list_ascii]. rewrite last_char_cons by done.
  apply IH. now apply letter_ok_inv in Hl as (? & _).
Qed.

Lemma letters_length (ls : list ascii) :
  String.length (string_of_list_ascii ls) = length ls.
Proof. induction ls as [|l ls IH]; [reflexivity|]. cbn. now rewrite IH. Qed.

Lemma Trim_cluster_entry (ls : list ascii) :
  Forall (fun l => letter_ok l = true) ls ->
  Trim (cluster_entry ls) = (cluster_entry ls, 1 + Z.of_nat (length ls))
  /\ c_str (cluster_entry ls) = String "-" (string_of_list_ascii ls).
Proof.
  intros H. unfold cluster_entry.
  destruct (Trim_plain (String "-" (string_of_list_ascii ls))) as [-> ->]; try done.
  - cbn [no_NUL]. now rewrite letters_no_NUL.
  - now apply letters_last.
  - split; [|done]. f_equal. cbn [String.length].
    rewrite letters_length. lia.
Qed.

Lemma activate_keeps (ls : list ascii) : forall s : ParseState,
  argsByLetter (st_accu (activate ls s)) = argsByLetter (st_accu s)
  /\ expectArgValue (activate ls s) = expectArgValue s.
Proof.
  induction ls as [|l ls IH]; intros s; [done|]. cbn [activate].
  destruct (argsByLetter (st_accu s) !! l); [|done].
  destruct (IH (mkParseState (errno s)
                  (set_optionNames ({[ name c ]} ∪ optionNames (st_accu s)) (st_accu s))
                  (expectArgValue s) (lastArg s))) as [-> ->]. done.
Qed.

(** The loop over the letters of a cluster of Options. *)
Lemma cluster_activates (arg : string) (position : Z) (ls : list ascii) :
  forall (i : nat) (found : bool) (s : ParseState),
  Forall (option_letter (st_accu s)) ls ->
  (forall k l, ls !! k = Some l -> char_at arg (i + k) = l) ->
  cluster arg position (length ls) i found s = Completed (activate ls s).
Proof.
  induction ls as [|l ls IH]; intros i found s Hall Hc; [reflexivity|].
  apply Forall_cons in Hall as [(_ & item & Hl & Hcl) Hall].
  assert (char_at arg i = l) as Hi by (rewrite <- (Nat.add_0_r i); now apply Hc).
  cbn [length cluster activate]. rewrite Hi, Hl, Hcl. apply IH.
  - exact Hall.
  - intros k l' Hk. rewrite <- (Hc (S k) l' Hk). f_equal. lia.
Qed.


(** The [try] block on the cluster, and on the entry of one letter. *)
Lemma token_cluster (ls : list ascii) (position : Z) (s : ParseState) :
  ls <> [] ->
  Forall (option_letter (st_accu s)) ls ->
  expectArgValue s = false ->
  token (String "-" (string_of_list_ascii ls)) (1 + Z.of_nat (length ls)) position s
  = Completed (activate ls s).
Proof.
  intros Hne Hall He. unfold token. rewrite He.
  destruct ls as [|l ls]; [done|].
  destruct (Z.eqb_spec (1 + Z.of_nat (length (l :: ls))) 0); [lia|].
  change (char_at (String "-" (string_of_list_ascii (l :: ls))) 0) with "-"%char.
  change (char_at (String "-" (string_of_list_ascii (l :: ls))) 1) with l.
  rewrite bool_decide_true by done.
  destruct (Z.ltb_spec 1 (1 + Z.of_nat (length (l :: ls)))); [|cbn [length] in *; lia].
  pose proof Hall as [(Hok & _) _]%Forall_cons.
  apply letter_ok_inv in Hok as (_ & Hd & _). rewrite bool_decide_false by done.
  replace (Z.to_nat (1 + Z.of_nat (length (l :: ls)) - 1)) with (length (l :: ls)) by lia.
  apply cluster_activates; [exact Hall|].
  intros k l' Hk. change (char_at (String "-" (string_of_list_ascii (l :: ls))) (1 + k))
    with (char_at (string_of_list_ascii (l :: ls)) k).
  clear -Hk. revert k Hk. generalize (l :: ls). intros xs.
  induction xs as [|x xs IH]; intros k Hk; [done|].
  destruct k as [|k]; [now injection Hk as ->|]. apply (IH k Hk).
Qed.

Lemma Parse_loop_letters (post : list CString) (ls : list ascii) :
  forall (i : nat) (dn : list CString) (line : string) (s : ParseState),
  Forall (option_letter (st_accu s)) ls ->
  expectArgValue s = false ->
  exists (j : nat) (dn' : list CString) (line' : string),
    Parse_loop (S i) dn (letter_entries ls ++ post) line s
    = Parse_loop (S j) dn' post line' (activate ls s).
Proof.
  induction ls as [|l ls IH]; intros i dn line s Hall He; [now exists i, dn, line|].
  pose proof Hall as [Hl Hall']%Forall_cons. cbn [letter_entries map app].
  pose proof Hl as (Hok & item & Hitem & Hclass).
  destruct (Trim_plain (String "-" (String l ""))) as [HT Hc]; try done.
  { cbn [no_NUL]. apply letter_ok_inv in Hok as (_ & _ & Hz).
    now rewrite (bool_decide_false (l = NUL)) by done. }
  { cbn [last_char]. now apply letter_ok_inv in Hok as (? & _). }
  assert (token (c_str (trimmed (cstring (String "-" (String l "")))))
            (snd (Trim (cstring (String "-" (String l ""))))) (Z.of_nat (String.length line)) s
          = Completed (activate [l] s)) as Ht.
  { unfold trimmed. rewrite HT. cbn [fst snd]. rewrite Hc.
    exact (token_cluster [l] (Z.of_nat (String.length line)) s ltac:(done)
             ltac:(now apply Forall_singleton) He). }
  rewrite (Parse_loop_completed i dn _ _ line s _ Ht).
  cbn [activate] in *. rewrite Hitem in *.
  apply IH; [exact Hall'|done].
Qed.

(** X14. Letters of Options written after one dash in one entry are read
    as the same letters written each after a dash of its own: [Parse]
    stores the same and ends the same way. *)
Theorem Parse_cluster_of_options (errno0 : Z) (p : Parser) (program : CString)
  (ls : list ascii) (post : list CString) :
  ls <> [] ->
  Forall (option_letter (accu p)) ls ->
  let o := Parse errno0 (with_argv p (program :: cluster_entry ls :: post)) in
  let o' := Parse errno0 (with_argv p (program :: letter_entries ls ++ post)) in
  accu_of o = accu_of o' /\ returned o = returned o' /\ fst (state_of o) = fst (state_of o').
Proof.
  intros Hne Hall o o'. subst o o'.
  destruct (Parse_accu errno0 (with_argv p (program :: cluster_entry ls :: post)))
    as (-> & -> & ->).
  destruct (Parse_accu errno0 (with_argv p (program :: letter_entries ls ++ post)))
    as (-> & -> & ->).
  unfold Parse_run. cbn [argv with_argv accu]. rewrite !Parse_loop_program.
  set (s := mkParseState _ _ _ _). set (line := append_token _ _).
  assert (Forall (fun l => letter_ok l = true) ls) as Hok
    by (eapply Forall_impl; [exact Hall|]; now intros l [? _]).
  destruct (Trim_cluster_entry ls Hok) as [HT Hc].
  assert (token (c_str (trimmed (cluster_entry ls))) (snd (Trim (cluster_entry ls)))
            (Z.of_nat (String.length line)) s
          = Completed (activate ls s)) as Ht.
  { unfold trimmed. rewrite HT. cbn [fst snd]. rewrite Hc.
    exact (token_cluster ls (Z.of_nat (String.length line)) s Hne Hall eq_refl). }
  rewrite (Parse_loop_completed 0 _ _ _ line s _ Ht).
  destruct (Parse_loop_letters post ls 0 ([] ++ [trimmed program]) line s Hall eq_refl)
    as (j & dn' & line' & ->).
  destruct (Parse_loop_index post 1 j
              (([] ++ [trimmed program]) ++ [trimmed (cluster_entry ls)]) dn'
              (append_token line (c_str (trimmed (cluster_entry ls)))) line' (activate ls s))
    as [-> ->].
  done.
Qed.

End Cluster.

Lemma Parse_cluster_of_options_witness :
  accu_of (Parse 0 (with_argv (main_parser [])
                      (cstring "./monet-explorer" :: cluster_entry ["x"; "t"]%char
                         :: [cstring "mydb"])))
  = accu_of (Parse 0 (with_argv (main_parser [])
                        (cstring "./monet-explorer" :: letter_entries ["x"; "t"]%char
                           ++ [cstring "mydb"]))).
Proof.
  exact (proj1 (Parse_cluster_of_options 0 (main_parser []) (cstring "./monet-explorer")
                  ["x"; "t"]%char [cstring "mydb"] two_letters (main_option_letters []))).
Defined.

(** *** Values *)

Section Values.
Context {FP : FloatingPoint}.

(** X15. A mandatory string Argument given once, by its long name: the
    entry after the reference is its value as [Trim] leaves it, whatever
    it looks like (a dash at its start does not make it a reference),
    and [Parse] returns. *)
Theorem Parse_stores_value (errno0 : Z) (p : Parser) (program tok value : CString)
  (arg : CommandLineArg) :
  Registry (accu p) ->
  argsByName (accu p) !! name arg = Some arg ->
  argClass arg = ArgumentClass.Argument ->
  argType arg = ArgumentType.String ->
  optional arg = false ->
  name arg <> "" ->
  c_str (trimmed tok) = "--" +:+ name arg ->
  c_str (trimmed value) <> "" ->
  let o := Parse errno0 (with_argv p [program; tok; value]) in
  returned o = true
  /\ stringValues (accu_of o) !! name arg = Some (c_str (trimmed value))
  /\ fst (state_of o) = errno0.
Proof.
  intros HR Hn Hc Ht Ho Hne Htok Hv o. subst o.
  destruct (Parse_accu errno0 (with_argv p [program; tok; value])) as (-> & -> & ->).
  unfold Parse_run. cbn [argv with_argv accu]. rewrite Parse_loop_program.
  set (s := mkParseState _ _ _ _). set (line := append_token _ _).
  assert (token (c_str (trimmed tok)) (snd (Trim tok)) (Z.of_nat (String.length line)) s
          = Completed (mkParseState (errno s) (st_accu s) true arg)) as H1.
  { rewrite Trim_length, Htok. change ("--" +:+ name arg) with (String "-" (String "-" (name arg))).
    cbn [String.length]. replace (Z.of_nat (S (S (String.length (name arg)))))
      with (2 + Z.of_nat (String.length (name arg))) by lia.
    now apply token_long_form. }
  rewrite (Parse_loop_completed 0 _ _ _ line s _ H1).
  set (line1 := append_token line _).
  assert (token (c_str (trimmed value)) (snd (Trim value)) (Z.of_nat (String.length line1))
            (mkParseState (errno s) (st_accu s) true arg)
          = Completed (mkParseState errno0
                         (set_stringValues
                            (map_insert (name arg) (c_str (trimmed value))
                               (stringValues (st_accu s))) (st_accu s)) false arg)) as H2.
  { rewrite Trim_length. unfold token.
    destruct (Z.eqb_spec (Z.of_nat (String.length (c_str (trimmed value)))) 0) as [E|_];
      [destruct (c_str (trimmed value)); [done|cbn in E; lia]|].
    cbn [expectArgValue lastArg errno st_accu]. unfold SetValue. now rewrite Ht. }
  rewrite (Parse_loop_completed 1 _ _ _ line1 _ _ H2). cbn.
  split; [done|]. split; [|done].
  destruct (Registry_values _ HR) as [Hreg _].
  destruct (Hreg _ _ Hn) as (_ & _ & Hno). destruct (Hno Ho) as (Hs & _).
  rewrite map_insert_lookup, Hs. now destruct (decide (name arg = name arg)).
Qed.

(** X16. [SetValue] with [errno] not 0 when it is called refuses every
    value of an integer or double Argument: [errno] is read after the
    conversion without having been cleared. *)
Theorem SetValue_stale_errno (arg : CommandLineArg) (value : string) (e : Z)
  (a : ArgumentAccumulator) :
  e <> 0 ->
  argType arg = ArgumentType.Int \/ argType arg = ArgumentType.Double ->
  returned (SetValue arg value (e, a)) = false
  /\ snd (state_of (SetValue arg value (e, a))) = a.
Proof.
  intros He Ht. unfold SetValue.
  destruct Ht as [-> | ->].
  - destruct (conv_erange (strtol value)); [done|].
    destruct (Z.eqb_spec e ERANGE); [done|].
    destruct (Z.eqb_spec e 0); [done|]. now rewrite orb_true_r.
  - destruct (conv_erange (strtod value)); [done|].
    destruct (Z.eqb_spec e ERANGE); [done|].
    destruct (Z.eqb_spec e 0); [done|]. now rewrite orb_true_r.
Qed.

(** X17. What [SetValue] stores for an integer Argument without a value:
    the [long] that [strtol] converted, narrowed to [int]. A number
    within [long] and outside [int] is stored modulo 2^32, without an
    error. *)
Theorem SetValue_stores_narrowed (arg : CommandLineArg) (value : string) (e e' : Z)
  (a a' : ArgumentAccumulator) :
  argType arg = ArgumentType.Int ->
  intValues a !! name arg = None ->
  SetValue arg value (e, a) = Returned (e', a') ->
  let z := conv_value (strtol value) in
  intValues a' !! name arg = Some (int_of_long z)
  /\ LONG_MIN <= z <= LONG_MAX
  /\ - 2 ^ 31 <= int_of_long z < 2 ^ 31
  /\ (int_of_long z - z) mod 2 ^ 32 = 0
  /\ char_at value (conv_end (strtol value)) = NUL
  /\ e = 0 /\ e' = 0.
Proof.
  intros Ht Hn H z. subst z. unfold SetValue in H. rewrite Ht in H.
  destruct (conv_erange (strtol value)) eqn:Er; [discriminate|].
  destruct (Z.eqb_spec e ERANGE); [discriminate|].
  destruct (negb _ || negb _) eqn:Ec; [discriminate|].
  apply orb_false_elim in Ec as [Hend Ez]. apply negb_false_iff, Z.eqb_eq in Ez.
  apply negb_false_iff, bool_decide_eq_true in Hend.
  injection H as <- <-. split_and!; try done.
  - cbn. rewrite map_insert_lookup, Hn. now destruct (decide (name arg = name arg)).
  - unfold strtol in *. repeat case_match; cbn in *; try discriminate;
      unfold LONG_MIN, LONG_MAX in *; lia.
  - unfold strtol in *. repeat case_match; cbn in *; try discriminate;
      unfold LONG_MIN, LONG_MAX in *; lia.
  - unfold int_of_long.
    pose proof (Z.mod_pos_bound (conv_value (strtol value) + 2 ^ 31) (2 ^ 32) ltac:(lia)). lia.
  - unfold int_of_long.
    pose proof (Z.mod_pos_bound (conv_value (strtol value) + 2 ^ 31) (2 ^ 32) ltac:(lia)). lia.
  - unfold int_of_long.
    replace ((conv_value (strtol value) + 2 ^ 31) mod 2 ^ 32 - 2 ^ 31 - conv_value (strtol value))
      with (- ((conv_value (strtol value) + 2 ^ 31)
               - (conv_value (strtol value) + 2 ^ 31) mod 2 ^ 32)) by lia.
    rewrite Z.mod_opp_l_z; [done|lia|].
    rewrite Zminus_mod, Z.mod_mod, Z.sub_diag by lia. reflexivity.
Qed.

End Values.

Lemma Parse_stores_value_witness :
  stringValues (accu_of (Parse 0 (with_argv (file_parser [])
                                    [cstring "send"; cstring "--file"; cstring "--help"])))
    !! name file_definition
  = Some (c_str (trimmed (cstring "--help"))).
Proof.
  exact (proj1 (proj2 (Parse_stores_value 0 (file_parser []) (cstring "send")
                         (cstring "--file") (cstring "--help") file_definition
                         (file_parser_Registry []) (file_by_name []) eq_refl eq_refl eq_refl
                         file_name_not_empty file_entry dash_value))).
Defined.

Lemma SetValue_stale_errno_witness :
  returned (SetValue port_definition "5432" (ERANGE, ArgumentAccumulator_empty)) = false.
Proof.
  exact (proj1 (SetValue_stale_errno port_definition "5432" ERANGE ArgumentAccumulator_empty
                  stale_errno (or_introl eq_refl))).
Defined.

Lemma SetValue_stores_narrowed_witness :
  intValues (snd (state_of (SetValue port_definition "4294967297"
                              (0, ArgumentAccumulator_empty)))) !! name port_definition
  = Some (int_of_long (conv_value (strtol "4294967297"))).
Proof.
  exact (proj1 (SetValue_stores_narrowed port_definition "4294967297" 0 0
                  ArgumentAccumulator_empty _ eq_refl eq_refl wide_integer_stored)).
Defined.

(** *** The exceptions of Parse *)

Section Errors.
Context {FP : FloatingPoint}.

(** X18. When the program name is not empty, every exception of [Parse]
    is a [std::runtime_error]: the counts and the offsets [ThrowError]
    computes for the rule, the window and the caret row are in range. *)
Theorem Parse_throws_runtime_error (errno0 : Z) (p : Parser) (e : exn) (s : Z * Parser) :
  match argv p with str :: _ => c_str (trimmed str) <> "" | [] => True end ->
  screenWidth p = 80 ->
  Parse errno0 p = Thrown e s ->
  exists text : string, e = runtime_error text.
Proof.
  intros Hprog Hw H. unfold Parse in H.
  destruct (Parse_run errno0 p) as [|what line position s' argv'] eqn:E; [discriminate|].
  injection H as <- _. unfold Parse_run in E.
  apply Parse_loop_failed in E as (before & tok & after & k & -> & -> & Hk & _);
    [|exact Hprog].
  unfold ThrowError. rewrite Hw.
  pose proof (error_window_caret
    (Z.of_nat (String.length (before +:+ " " +:+ tok +:+ after)))
    (Z.of_nat (String.length before) + Z.of_nat k)) as Hwin.
  rewrite !string_app_length in *. cbn [String.length] in *.
  destruct (error_window _ _ _) as [[start head] length].
  destruct Hwin as (_ & H1 & H2 & H3 & H4 & H5); [lia..|].
  unfold fill, substr. rewrite !string_app_length. cbn [String.length].
  change (80 <? 0) with false. cbn iota.
  repeat match goal with
         | |- context [Z.ltb ?a ?b] => destruct (Z.ltb_spec a b); try lia; cbn [orb]
         end.
  eexists. reflexivity.
Qed.

End Errors.

Lemma Parse_throws_runtime_error_witness :
  exists text : string,
    ThrowError (endpoint_parser ["--nope"]) "Invalid argument: --nope" "monet-explorer --nope" 14
    = runtime_error text.
Proof.
  exact (Parse_throws_runtime_error 0 (endpoint_parser ["--nope"]) _ _
           (endpoint_program_name ["--nope"]) eq_refl endpoint_unknown_thrown).
Defined.

(** [monet-explorer mydb --nope] on the parser of the end-to-end
    example: the loop fails on the third entry. *)
Lemma caret_under_offending_byte_witness :
  exists (pre post : list CString) (str : CString) (s1 : ParseState)
    (argv1 : list CString) (after : string) (k : nat),
    let before := command_line pre in
    let tok := c_str (trimmed str) in
    argv (endpoint_parser ["mydb"; "--nope"]) = (pre ++ str :: post)%list
    /\ Parse_run 0 (with_argv (endpoint_parser ["mydb"; "--nope"]) pre) = Finished s1 argv1
    /\ token tok (snd (Trim str)) (Z.of_nat (String.length before)) s1
       = Caught "Invalid argument: --nope" 19
           (loop_state (Parse_run 0 (endpoint_parser ["mydb"; "--nope"])))
    /\ "monet-explorer mydb --nope" = command_line (argv (endpoint_parser ["mydb"; "--nope"]))
    /\ "monet-explorer mydb --nope" = before +:+ " " +:+ tok +:+ after
    /\ 19 = Z.of_nat (String.length before) + Z.of_nat k
    /\ (k < String.length tok)%nat
    /\ ((k = 0%nat /\ forall c, "Invalid argument: --nope" <> invalid_letter c)
        \/ ((1 <= k)%nat /\ "Invalid argument: --nope" = invalid_letter (char_at tok k)
            /\ argsByLetter (accu (endpoint_parser ["mydb"; "--nope"])) !! char_at tok k = None
            /\ forall j, (1 <= j < k)%nat ->
                 argsByLetter (accu (endpoint_parser ["mydb"; "--nope"])) !! char_at tok j
                 <> None))
    /\ let '(start, head, length) :=
         error_window (screenWidth (endpoint_parser ["mydb"; "--nope"]))
           (Z.of_nat (String.length "monet-explorer mydb --nope")) 19 in
       start + (head + 1) = Z.of_nat (String.length before) + 1 + Z.of_nat k
       /\ 0 <= start /\ head + 1 < length
       /\ start + length <= Z.of_nat (String.length "monet-explorer mydb --nope").
Proof.
  exact (caret_under_offending_byte 0 (endpoint_parser ["mydb"; "--nope"]) _ _ _ _ _
           (endpoint_program_name ["mydb"; "--nope"]) eq_refl endpoint_second_entry_fails).
Defined.

(** *** What Trim leaves *)

Lemma drop_string_add (m : string) : forall p k : nat,
  drop_string (p + k) m = drop_string k (drop_string p m).
Proof.
  induction m as [|c m IH]; intros p k.
  - destruct p, k; reflexivity.
  - destruct p as [|p]; [reflexivity|]. cbn [Nat.add drop_string]. apply IH.
Qed.

Lemma left_trim_strip (u : string) :
  until_NUL (drop_string (left_trim u) u) = strip_left (until_NUL u).
Proof.
  induction u as [|c u IH]; [reflexivity|].
  cbn [left_trim until_NUL]. destruct (decide (c = NUL)) as [Hc|Hc].
  - rewrite !bool_decide_true by done. cbn [drop_string until_NUL].
    now rewrite bool_decide_true.
  - rewrite !(bool_decide_false (c = NUL)) by done. cbn [strip_left]. unfold blank.
    destruct (negb (isprint c) || bool_decide (c = " "%char)).
    + cbn [drop_string]. exact IH.
    + cbn [drop_string until_NUL]. now rewrite bool_decide_false.
Qed.

Lemma strip_left_head (s : string) :
  match strip_left s with
  | String c _ => blank c = false
  | EmptyString => True
  end.
Proof.
  induction s as [|c s IH]; [done|]. cbn [strip_left].
  destruct (blank c) eqn:E; [exact IH|exact E].
Qed.

Lemma drop_poke (m : string) : forall (p e : nat) (c : ascii),
  (p <= e)%nat -> drop_string p (poke e c m) = poke (e - p) c (drop_string p m).
Proof.
  induction m as [|d m IH]; intros p e c H.
  - destruct p as [|p]; [now rewrite Nat.sub_0_r|]. cbn [drop_string].
    destruct e; [lia|]. now destruct (S e - S p)%nat.
  - destruct p as [|p]; [now rewrite Nat.sub_0_r|].
    destruct e as [|e]; [lia|]. cbn [poke drop_string Nat.sub]. apply IH. lia.
Qed.

(** The right side of [Trim], seen from the pointer. *)
Lemma right_trim_shift (e : nat) : forall (p : nat) (m : string),
  (p < e)%nat ->
  drop_string p (fst (right_trim e p m)) = fst (right_trim (e - p) 0 (drop_string p m)).
Proof.
  induction e as [|e IH]; intros p m H; [lia|].
  replace (S e - p)%nat with (S (e - p)) by lia. cbn [right_trim].
  rewrite !char_at_drop, Nat.add_0_r. replace (p + (e - p))%nat with e by lia.
  destruct (negb (isprint (char_at m e)) || bool_decide (char_at m p = " "%char)).
  - destruct (Nat.ltb_spec p e) as [Hlt|Hge].
    + destruct (Nat.ltb_spec 0 (e - p)); [|lia].
      rewrite IH by done. now rewrite drop_poke by lia.
    + destruct (Nat.ltb_spec 0 (e - p)); [lia|]. cbn [fst]. apply drop_poke. lia.
  - reflexivity.
Qed.

Lemma string_snoc (t : string) :
  t <> "" -> exists (t' : string) (c : ascii), t = t' +:+ String c "".
Proof.
  induction t as [|d t IH]; [done|]. intros _.
  destruct t as [|d' t]; [now exists "", d|].
  destruct IH as (t' & c & E); [done|]. exists (String d t'), c.
  change (String d (String d' t) = String d (t' +:+ String c "")). now rewrite E.
Qed.

Lemma char_at_app_r (a b : string) : forall k : nat,
  char_at (a +:+ b) (String.length a + k) = char_at b k.
Proof. induction a as [|c a IH]; intros k; [reflexivity|]. apply IH. Qed.

Lemma char_at_app_l (a b : string) : forall k : nat,
  (k < String.length a)%nat -> char_at (a +:+ b) k = char_at a k.
Proof.
  induction a as [|c a IH]; intros k H; [cbn in H; lia|].
  destruct k as [|k]; [reflexivity|]. apply IH. cbn in H. lia.
Qed.

Lemma poke_app (a b : string) (c d : ascii) :
  poke (String.length a) c (a +:+ String d b) = a +:+ String c b.
Proof.
  induction a as [|x a IH]; [reflexivity|].
  change (String x (poke (String.length a) c (a +:+ String d b)) = String x (a +:+ String c b)).
  now rewrite IH.
Qed.

Lemma until_NUL_app (t rest : string) :
  no_NUL t = true -> ends rest -> until_NUL (t +:+ rest) = t.
Proof.
  intros Ht Hr. induction t as [|c t IH].
  - destruct rest as [|d rest]; [reflexivity|]. unfold ends in Hr.
    change (char_at (String d rest) 0) with d in Hr. subst d. reflexivity.
  - cbn [no_NUL] in Ht. apply andb_prop in Ht as [Hc Ht].
    apply negb_true_iff in Hc.
    change (until_NUL (String c (t +:+ rest)) = String c t). cbn [until_NUL].
    now rewrite Hc, IH.
Qed.

Lemma until_NUL_split (v : string) :
  exists rest : string,
    v = until_NUL v +:+ rest /\ ends rest /\ no_NUL (until_NUL v) = true.
Proof.
  induction v as [|c v (rest & E & Hr & Hn)]; [now exists ""|].
  cbn [until_NUL]. destruct (decide (c = NUL)) as [Hc|Hc].
  - rewrite bool_decide_true by done. exists (String c v). subst c. done.
  - rewrite bool_decide_false by done. exists rest. split; [|split; [done|]].
    + change (String c v = String c (until_NUL v +:+ rest)). now rewrite <- E.
    + cbn [no_NUL]. now rewrite bool_decide_false, Hn by done.
Qed.

Lemma no_NUL_app (a b : string) :
  no_NUL (a +:+ b) = true -> no_NUL a = true /\ no_NUL b = true.
Proof.
  induction a as [|c a IH]; [done|].
  change (no_NUL (String c (a +:+ b)) = true -> no_NUL (String c a) = true /\ no_NUL b = true).
  cbn [no_NUL]. intros [Hc H]%andb_prop. apply IH in H as [-> ->]. now rewrite Hc.
Qed.

Lemma strip_right_snoc (t : string) (c : ascii) :
  strip_right (t +:+ String c "")
  = if isprint c then t +:+ String c "" else strip_right t.
Proof.
  induction t as [|d t IH].
  - change ("" +:+ String c "") with (String c ""). cbn [strip_right].
    now destruct (isprint c).
  - change (strip_right (String d (t +:+ String c ""))
            = if isprint c then String d (t +:+ String c "") else strip_right (String d t)).
    cbn [strip_right]. rewrite IH. destruct (isprint c); [|reflexivity].
    destruct t; reflexivity.
Qed.

Lemma right_trim_strips (n : nat) : forall t rest : string,
  String.length t = n -> no_NUL t = true -> ends rest ->
  blank (char_at t 0) = false ->
  until_NUL (fst (right_trim n 0 (t +:+ rest))) = strip_right t.
Proof.
  induction n as [|n IH]; intros t rest Hlen Hn Hr Hb.
  - destruct t; [|discriminate]. cbn. destruct rest as [|d rest]; [reflexivity|].
    unfold ends in Hr. change (char_at (String d rest) 0) with d in Hr. now subst d.
  - destruct (string_snoc t) as (t' & c & ->); [now destruct t|].
    rewrite string_app_length in Hlen. cbn [String.length] in Hlen.
    assert (String.length t' = n) as Hlen' by lia.
    apply no_NUL_app in Hn as Hn'. destruct Hn' as [Hn1 Hn2].
    rewrite strip_right_snoc. cbn [right_trim].
    rewrite string_app_assoc. change (String c "" +:+ rest) with (String c rest).
    pose proof (char_at_app_r t' (String c rest) 0) as Hc.
    rewrite Nat.add_0_r, Hlen' in Hc. rewrite Hc.
    change (char_at (String c rest) 0) with c.
    assert (char_at (t' +:+ String c rest) 0 = char_at (t' +:+ String c "") 0) as H0.
    { destruct t'; reflexivity. }
    rewrite H0. unfold blank in Hb. apply orb_false_elim in Hb as [Hb1 Hb2].
    rewrite Hb2, orb_false_r.
    destruct (isprint c) eqn:Hp; cbn [negb].
    + cbn [fst]. change (String c rest) with (String c "" +:+ rest).
      rewrite <- string_app_assoc. now apply until_NUL_app.
    + replace (poke n NUL (t' +:+ String c rest)) with (t' +:+ String NUL rest)
        by (rewrite <- Hlen'; symmetry; apply poke_app).
      destruct (Nat.ltb_spec 0 n) as [Hpos|Hz].
      * apply IH; [done..| |].
        -- reflexivity.
        -- unfold blank. rewrite <- (char_at_app_l t' (String c "")) by lia.
           now rewrite Hb1, Hb2.
      * destruct t'; [|cbn in Hlen'; lia].
        change (char_at ("" +:+ String c "") 0) with c in Hb1.
        rewrite Hp in Hb1. discriminate.
Qed.

(** X20. What [Trim] leaves of a string: the string without its leading
    bytes that are not printable or are spaces, and without its trailing
    bytes that are not printable; spaces at the end stay. The value
    returned is the size of that string. *)
Theorem Trim_strips (str : CString) :
  c_str (trimmed str) = strip_right (strip_left (c_str str))
  /\ snd (Trim str) = Z.of_nat (String.length (strip_right (strip_left (c_str str)))).
Proof.
  assert (c_str (trimmed str) = strip_right (strip_left (c_str str))) as H;
    [|split; [exact H|now rewrite Trim_length, H]].
  unfold trimmed, Trim, c_str. destruct str as [m p0]. cbn [mem ptr].
  rewrite <- left_trim_strip. rewrite <- drop_string_add.
  set (p := (p0 + left_trim (drop_string p0 m))%nat).
  pose proof (strip_left_head (until_NUL (drop_string p0 m))) as Hhead.
  rewrite <- left_trim_strip, <- drop_string_add in Hhead. fold p in Hhead.
  pose proof (char_at_drop m p 0) as H0. rewrite Nat.add_0_r in H0.
  destruct (until_NUL_split (drop_string p m)) as (rest & E & Hr & Hn).
  destruct (decide (char_at m p = NUL)) as [Hz|Hz].
  - rewrite bool_decide_true by done. cbn [fst mem ptr].
    rewrite <- H0 in Hz. destruct (drop_string p m) as [|c v]; [reflexivity|].
    change (char_at (String c v) 0) with c in Hz. subst c. reflexivity.
  - rewrite bool_decide_false by done.
    assert (blank (char_at (until_NUL (drop_string p m)) 0) = false
            /\ (p + find_end (drop_string (S p) m) - p)%nat
               = String.length (until_NUL (drop_string p m))) as [Hb Hlen].
    { rewrite find_end_until_NUL, drop_string_S.
      rewrite <- H0 in Hz. destruct (drop_string p m) as [|c v]; [done|].
      change (char_at (String c v) 0) with c in Hz. cbn [until_NUL drop_string] in *.
      rewrite bool_decide_false in * by done. split; [exact Hhead|].
      cbn [String.length]. lia. }
    pose proof (right_trim_shift (p + find_end (drop_string (S p) m)) p m) as Hs.
    destruct (right_trim _ p m) as [m' n]. cbn [fst mem ptr] in *.
    rewrite Hs by (rewrite find_end_until_NUL; lia). rewrite Hlen.
    set (t := until_NUL (drop_string p m)) in *. clearbody t. rewrite E.
    now apply right_trim_strips.
Qed.

Lemma strip_right_last (s : string) :
  strip_right s <> "" -> isprint (last_char (strip_right s)) = true.
Proof.
  induction s as [|c s IH]; [done|]. cbn [strip_right].
  destruct (strip_right s) as [|d r] eqn:E.
  - destruct (isprint c) eqn:Hp; [|done]. intros _. exact Hp.
  - intros _. rewrite last_char_cons by done. now apply IH.
Qed.

Lemma strip_right_head (s : string) :
  strip_right s <> "" -> char_at (strip_right s) 0 = char_at s 0.
Proof.
  destruct s as [|c s]; [done|]. cbn [strip_right].
  destruct (strip_right s); [destruct (isprint c)|]; done.
Qed.

(** X21. [Trim] has nothing to do on an entry it has trimmed: a second
    call leaves the entry as it is and returns the same size. *)
Theorem Trim_twice (str : CString) :
  Trim (trimmed str) = (trimmed str, snd (Trim str)).
Proof.
  rewrite Trim_needs_no_trim; [now rewrite Trim_length|].
  unfold needs_no_trim. destruct (Trim_strips str) as [-> _].
  destruct (decide (strip_right (strip_left (c_str str)) = "")) as [E|E].
  - now rewrite bool_decide_true.
  - rewrite bool_decide_false by done. rewrite strip_right_last by done.
    rewrite strip_right_head by done.
    pose proof (strip_left_head (c_str str)) as Hh.
    destruct (strip_left (c_str str)) as [|c v]; [done|].
    change (char_at (String c v) 0) with c. unfold blank in Hh.
    apply orb_false_elim in Hh as [H1 H2]. apply negb_false_iff in H1.
    now rewrite H1, H2.
Qed.
